(** * A scalar reverse-mode automatic differentiation engine

    Shallow embedding of [comp_graph_node.py] (class [Node]): graph
    construction through the arithmetic operators, the activation
    functions, and [backward_propagation] (depth-first ordering followed
    by the reverse sweep over the recorded closures); and of
    [neural_network.py] (classes [Neuron], [Layer], [MLP]): construction,
    forward call, [parameters] and [clear_gradient].

    Modelling choices.
    - Numbers.  Python numbers are modelled by the rationals [Q]: exact for
      Python integers, the usual idealisation for floats.  Python's [==]
      on numbers is [Qeq] (written [==]).  The two runtime functions whose
      results leave the rationals, [numpy.exp] and the builtin power on
      numbers, are parameters of the development.
    - Objects.  Every [Node] object lives in a store, a list of records
      indexed by address; [Node(...)] allocates at the end of the store.
      A method closure is a constructor of [closure] holding the addresses
      the Python closure captured ([self], [b], [res]).
    - Sets.  [set(...)] is a duplicate-free list; the order in which Python
      iterates over a set is unspecified, so the function [py_set] that
      builds it is a parameter, constrained only to keep exactly the
      members of its argument, each once.
    - Exceptions are values of [exn]; a method is a function in the monad
      [M] of store-passing computations that may raise.
    - Randomness.  [random.uniform(-1, 1)] is a function from the position
      of a draw to its value, a parameter of the constructors of the
      network. *)

From Stdlib Require Import QArith Qminmax String List Lia.
From stdpp Require Import base list.

Local Open Scope Q_scope.

(** ** Python values, exceptions, numbers *)

Abbreviation addr := nat (only parsing).

Inductive value : Type :=
| VNum (q : Q)
| VNode (a : addr).

Inductive exn : Type := TypeError | AttributeError | AssertionError.

Inductive result (A : Type) : Type :=
| Ok (a : A)
| Raise (e : exn).
Arguments Ok {A} a.
Arguments Raise {A} e.

(** [x < y] and [x > y] on numbers, as booleans. *)
Definition Qltb (x y : Q) : bool := negb (Qle_bool y x).
Definition Qgtb (x y : Q) : bool := Qltb y x.
Definition Qleb (x y : Q) : bool := Qle_bool x y.
Definition Qgeb (x y : Q) : bool := Qle_bool y x.

(** [True * g] is [g] and [False * g] is [0]: a bool used as a number. *)
Definition of_bool (b : bool) : Q := if b then 1 else 0.

(** ** The store of [Node] objects *)

(** The function stored in [_backward]: the default [lambda: None] or one
    of the local functions named [_backward], with its captured variables. *)
Inductive closure : Type :=
| lambda_None
| add_backward (self b res : addr)
| mul_backward (self b res : addr)
| pow_backward (self : addr) (b : Q) (res : addr)
| relu_backward (self res : addr)
| sigmoid_backward (self res : addr).

(** The label [_math_operator]: [''], ['+'], ['*'], [f'**{b}'], ['ReLU'],
    ['Sigmoid']. *)
Inductive op_tag : Type :=
| tag_empty
| tag_add
| tag_mul
| tag_pow (b : Q)
| tag_ReLU
| tag_Sigmoid.

Record Node : Type := mkNode {
  scalar : Q;
  _math_operator : op_tag;
  gradient : Q;
  _backward : closure;
  _previous : list addr
}.

Abbreviation heap := (list Node) (only parsing).

(** What [Node(0)] builds; the value read at an address outside the store
    (Python references never dangle, so no theorem reads it for a live
    object). *)
#[export] Instance Node_inhabited : Inhabited Node :=
  populate (mkNode 0 tag_empty 0 lambda_None []).

Definition set_gradient (g : Q) (n : Node) : Node :=
  mkNode (scalar n) (_math_operator n) g (_backward n) (_previous n).

Definition set__backward (f : closure) (n : Node) : Node :=
  mkNode (scalar n) (_math_operator n) (gradient n) f (_previous n).

(** [a.scalar], [a.gradient], [a._previous], [a._backward] *)
Definition scalar_of (h : heap) (a : addr) : Q := scalar (h !!! a).
Definition gradient_of (h : heap) (a : addr) : Q := gradient (h !!! a).
Definition previous_of (h : heap) (a : addr) : list addr := _previous (h !!! a).
Definition backward_of (h : heap) (a : addr) : closure := _backward (h !!! a).

(** [a.gradient += d] *)
Definition add_gradient (a : addr) (d : Q) (h : heap) : heap :=
  alter (fun n => set_gradient (gradient n + d) n) a h.

(** ** The monad of methods *)

Definition M (A : Type) : Type := heap -> result (A * heap).

Definition ret {A} (a : A) : M A := fun h => Ok (a, h).

Definition raise {A} (e : exn) : M A := fun _ => Raise e.

Definition bind {A B} (c : M A) (k : A -> M B) : M B :=
  fun h => match c h with
           | Ok (a, h') => k a h'
           | Raise e => Raise e
           end.

Declare Scope py_scope.
Delimit Scope py_scope with py.
Notation "x <- c ;; k" := (bind c (fun x => k))
  (at level 100, c at next level, right associativity) : py_scope.
Notation "c ;;; k" := (bind c (fun _ => k))
  (at level 100, right associativity) : py_scope.

Definition get_scalar (a : addr) : M Q := fun h => Ok (scalar_of h a, h).

(** [v.scalar] on an arbitrary value: a number has no such attribute. *)
Definition getattr_scalar (v : value) : M Q :=
  match v with
  | VNode a => get_scalar a
  | VNum _ => raise AttributeError
  end.

(** [res._backward = f] *)
Definition assign_backward (res : addr) (f : closure) : M unit :=
  fun h => Ok (tt, alter (set__backward f) res h).

(** ** What the Python runtime supplies *)

Class Runtime : Type := {
  (** [numpy.exp] *)
  np_exp : Q -> Q;
  (** [x ** y] on two numbers, the builtin power (which raises
      [ZeroDivisionError] for zero to a negative power; the parameter is
      total and no theorem depends on its value) *)
  num_pow : Q -> Q -> Q;
  (** [set(t)], as the list of its members in iteration order *)
  py_set : list addr -> list addr
}.

(** The only facts used about [set(t)]: it has the members of [t], once
    each. *)
Definition py_set_spec (rt : Runtime) : Prop :=
  forall t : list addr, NoDup (py_set t) /\ forall x, x ∈ py_set t <-> x ∈ t.

(** A set that iterates in insertion order, to run examples. *)
Fixpoint insertion_order (t : list addr) : list addr :=
  match t with
  | [] => []
  | x :: t' => x :: filter (fun y => x <> y) (insertion_order t')
  end.

(** The power [x ** y] for an integral exponent [y] (the numerator of [y]
    is used), to run examples with integer exponents. *)
Definition integral_pow (x y : Q) : Q := Qpower x (Qnum y).

(** A rational stand-in for the exponential, exact at [0], to run examples. *)
Definition exp_taylor2 (x : Q) : Q := 1 + x + x * x / 2.

Definition example_runtime : Runtime :=
  {| np_exp := exp_taylor2;
     num_pow := integral_pow;
     py_set := insertion_order |}.

Section Engine.

Context {rt : Runtime}.

Local Open Scope py_scope.

(** ** class Node *)

(** [Node(scalar, _children_components, _math_operator)]: the new object
    has gradient [0], the no-op closure, and the set of its children. *)
Definition Node_init (scalar : Q) (_children_components : list addr)
    (_math_operator : op_tag) : M addr :=
  fun h => Ok (length h,
               h ++ [mkNode scalar _math_operator 0 lambda_None
                            (py_set _children_components)]).

(** [b if isinstance(b, Node) else Node(b)] *)
Definition as_Node (b : value) : M addr :=
  match b with
  | VNode n => ret n
  | VNum q => Node_init q [] tag_empty
  end.

Definition __add__ (self : addr) (b : value) : M addr :=
  b <- as_Node b ;;
  x <- get_scalar self ;;
  y <- get_scalar b ;;
  res <- Node_init (x + y) [self; b] tag_add ;;
  assign_backward res (add_backward self b res) ;;;
  ret res.

Definition __mul__ (self : addr) (b : value) : M addr :=
  b <- as_Node b ;;
  x <- get_scalar self ;;
  y <- get_scalar b ;;
  res <- Node_init (x * y) [self; b] tag_mul ;;
  assign_backward res (mul_backward self b res) ;;;
  ret res.

(** The method the source names [_pow__]. *)
Definition _pow__ (self : addr) (b : value) : M addr :=
  match b with
  | VNode _ => raise AssertionError
  | VNum b =>
      x <- get_scalar self ;;
      res <- Node_init (num_pow x b) [self] (tag_pow b) ;;
      assign_backward res (pow_backward self b res) ;;;
      ret res
  end.

(** [self * (-1)], [self + b], [self * b]: [self] is a [Node] and the class
    defines [__mul__] and [__add__], so these calls reach them. *)
Definition __neg__ (self : addr) : M addr := __mul__ self (VNum (-1)).
Definition __radd__ (self : addr) (b : value) : M addr := __add__ self b.
Definition __rmul__ (self : addr) (b : value) : M addr := __mul__ self b.

(** *** Operator dispatch

    The arithmetic special methods that class [Node] binds, under the names
    the source gives them. *)
Inductive method : Type :=
| unary (f : addr -> M addr)
| binary (f : addr -> value -> M addr).

Definition Node_special : list (string * method) :=
  [ ("__add__", binary __add__);
    ("__mul__", binary __mul__);
    ("_pow__", binary _pow__);
    ("__neg__", unary __neg__);
    ("__radd__", binary __radd__);
    ("__rmul__", binary __rmul__) ]%string.

(** Every name bound in the body of class [Node], in source order. *)
Definition Node_names : list string :=
  [ "__init__"; "__add__"; "__mul__"; "_pow__"; "__neg__"; "__radd__";
    "__rmul__"; "__sub__"; "__rsub__"; "__truediv__"; "__rtruediv__";
    "__gt__"; "__lt__"; "__ge__"; "__le__"; "__repr__"; "relu"; "sigmoid";
    "softmax"; "backward_propagation" ]%string.

Definition Node_getattr (name : string) : option method :=
  snd <$> find (fun e => String.eqb name (fst e)) Node_special.

(** [x op y]: two numbers use the builtin; a [Node] on the left is asked for
    [name]; a number on the left answers [NotImplemented] for a [Node], and
    the [Node] on the right is asked for the reflected [rname].  A missing
    method is a [TypeError] (a number's reflected method also answers
    [NotImplemented] for a [Node], and two operands of one type are not
    asked twice). *)
Definition binary_op (name rname : string) (builtin : Q -> Q -> Q)
    (x y : value) : M value :=
  match x, y with
  | VNum p, VNum q => ret (VNum (builtin p q))
  | VNode a, _ =>
      match Node_getattr name with
      | Some (binary f) => r <- f a y ;; ret (VNode r)
      | _ => raise TypeError
      end
  | VNum _, VNode b =>
      match Node_getattr rname with
      | Some (binary f) => r <- f b x ;; ret (VNode r)
      | _ => raise TypeError
      end
  end.

Definition py_add : value -> value -> M value :=
  binary_op "__add__" "__radd__" Qplus.
Definition py_mul : value -> value -> M value :=
  binary_op "__mul__" "__rmul__" Qmult.
Definition py_pow : value -> value -> M value :=
  binary_op "__pow__" "__rpow__" num_pow.

(** [-x] *)
Definition py_neg (x : value) : M value :=
  match x with
  | VNum p => ret (VNum (- p))
  | VNode a =>
      match Node_getattr "__neg__" with
      | Some (unary f) => r <- f a ;; ret (VNode r)
      | _ => raise TypeError
      end
  end.

(** *** Derived operators (source lines 86-96) *)

(** [self + (- b)] *)
Definition __sub__ (self : addr) (b : value) : M value :=
  nb <- py_neg b ;;
  py_add (VNode self) nb.

(** [b + (-self)] *)
Definition __rsub__ (self : addr) (b : value) : M value :=
  ns <- py_neg (VNode self) ;;
  py_add b ns.

(** [self * b ** (-1)]: the power binds tighter and is evaluated first. *)
Definition __truediv__ (self : addr) (b : value) : M value :=
  p <- py_pow b (VNum (-1)) ;;
  py_mul (VNode self) p.

(** [b * self ** (-1)] *)
Definition __rtruediv__ (self : addr) (b : value) : M value :=
  p <- py_pow (VNode self) (VNum (-1)) ;;
  py_mul b p.

(** *** Comparisons: [self.scalar OP other.scalar] *)

Definition __gt__ (self : addr) (other : value) : M bool :=
  x <- get_scalar self ;;
  y <- getattr_scalar other ;;
  ret (Qgtb x y).

Definition __lt__ (self : addr) (other : value) : M bool :=
  x <- get_scalar self ;;
  y <- getattr_scalar other ;;
  ret (Qltb x y).

Definition __ge__ (self : addr) (other : value) : M bool :=
  x <- get_scalar self ;;
  y <- getattr_scalar other ;;
  ret (Qgeb x y).

Definition __le__ (self : addr) (other : value) : M bool :=
  x <- get_scalar self ;;
  y <- getattr_scalar other ;;
  ret (Qleb x y).

(** *** Activation functions *)

Definition relu (self : addr) : M addr :=
  x <- get_scalar self ;;
  res <- Node_init (if Qltb x 0 then 0 else x) [self] tag_ReLU ;;
  assign_backward res (relu_backward self res) ;;;
  ret res.

Definition sigmoid (self : addr) : M addr :=
  x <- get_scalar self ;;
  res <- Node_init (1 / (1 + np_exp (- x))) [self] tag_Sigmoid ;;
  assign_backward res (sigmoid_backward self res) ;;;
  ret res.

(** The loop [for xi in x: sum_softmax = np.exp(xi.scalar)], threading the
    variable [sum_softmax]. *)
Fixpoint softmax_loop (x : list value) (sum_softmax : Q) : M Q :=
  match x with
  | [] => ret sum_softmax
  | xi :: x' =>
      s <- getattr_scalar xi ;;
      softmax_loop x' (np_exp s)
  end.

(** [softmax] returns a number, not a [Node].  (With an empty [x] the
    divisor is [0]; numpy answers [inf] there, [Qdiv] answers [0].) *)
Definition softmax (self : addr) (x : list value) : M Q :=
  sum_softmax <- softmax_loop x 0 ;;
  s <- get_scalar self ;;
  ret (np_exp s / sum_softmax).

(** *** Backward propagation *)

(** Calling a stored closure: each [_backward] body, statement by
    statement, on the store. *)
Definition call_backward (f : closure) (h : heap) : heap :=
  match f with
  | lambda_None => h
  | add_backward self b res =>
      let h1 := add_gradient self (gradient_of h res) h in
      add_gradient b (gradient_of h1 res) h1
  | mul_backward self b res =>
      let h1 := add_gradient self (scalar_of h b * gradient_of h res) h in
      add_gradient b (scalar_of h1 self * gradient_of h1 res) h1
  | pow_backward self b res =>
      add_gradient self
        ((b * num_pow (scalar_of h self) (b - 1)) * gradient_of h res) h
  | relu_backward self res =>
      add_gradient self
        (of_bool (Qgtb (scalar_of h res) 0) * gradient_of h res) h
  | sigmoid_backward self res =>
      add_gradient self (scalar_of h res * (1 - scalar_of h res)) h
  end.

(** The state of the ordering phase: [visited] and [topological_sorted]. *)
Record sort_state : Type := mkState {
  visited : list addr;
  topological_sorted : list addr
}.

(** [for child in children: visit(child)] *)
Definition for_each (visit : addr -> sort_state -> option sort_state) :
    list addr -> sort_state -> option sort_state :=
  fix loop (children : list addr) (st : sort_state) : option sort_state :=
    match children with
    | [] => Some st
    | child :: rest =>
        match visit child st with
        | Some st' => loop rest st'
        | None => None
        end
    end.

(** The recursive local function; [fuel] bounds the depth of the recursion
    and [None] means the bound was reached. *)
Fixpoint build_topological_sort (fuel : nat) (h : heap) (i : addr)
    (st : sort_state) : option sort_state :=
  match fuel with
  | O => None
  | S fuel' =>
      if bool_decide (i ∈ visited st) then Some st
      else
        match for_each (build_topological_sort fuel' h) (previous_of h i)
                (mkState (i :: visited st) (topological_sorted st)) with
        | Some st' =>
            Some (mkState (visited st') (topological_sorted st' ++ [i]))
        | None => None
        end
  end.

(** The ordering phase from root [self]: the recursion never nests deeper
    than the number of objects. *)
Definition ordering_phase (h : heap) (self : addr) : option (list addr) :=
  topological_sorted <$>
    build_topological_sort (length h) h self (mkState [] []).

(** The propagation phase: seed [self.gradient = 1], then call
    [node._backward()] for each node of the reversed sequence ([sweep] is
    the loop). *)
Definition sweep (h : heap) (nodes : list addr) : heap :=
  foldl (fun h node => call_backward (backward_of h node) h) h nodes.

Definition propagation_phase (self : addr) (order : list addr) (h : heap)
    : heap :=
  sweep (alter (set_gradient 1) self h) (reverse order).

Definition backward_propagation (self : addr) (h : heap) : option heap :=
  match ordering_phase h self with
  | Some order => Some (propagation_phase self order h)
  | None => None
  end.

(** [Module.clear_gradient] of [neural_network.py], for the list its
    [parameters()] returns: [for param in ...: param.gradient = 0]. *)
Definition clear_gradient (parameters : list addr) (h : heap) : heap :=
  foldl (fun h param => alter (set_gradient 0) param h) h parameters.

(** ** Programs that build graphs *)

(** One call of a documented operation: the constructor of a leaf, an
    operator method, or an activation. *)
Inductive call : Type :=
| call_Node (x : Q)
| call_add (self : addr) (b : value)
| call_mul (self : addr) (b : value)
| call__pow (self : addr) (b : value)
| call_neg (self : addr)
| call_radd (self : addr) (b : value)
| call_rmul (self : addr) (b : value)
| call_sub (self : addr) (b : value)
| call_rsub (self : addr) (b : value)
| call_truediv (self : addr) (b : value)
| call_rtruediv (self : addr) (b : value)
| call_relu (self : addr)
| call_sigmoid (self : addr).

Definition returning_Node (c : M addr) : M value := r <- c ;; ret (VNode r).

Definition run_call (c : call) : M value :=
  match c with
  | call_Node x => returning_Node (Node_init x [] tag_empty)
  | call_add self b => returning_Node (__add__ self b)
  | call_mul self b => returning_Node (__mul__ self b)
  | call__pow self b => returning_Node (_pow__ self b)
  | call_neg self => returning_Node (__neg__ self)
  | call_radd self b => returning_Node (__radd__ self b)
  | call_rmul self b => returning_Node (__rmul__ self b)
  | call_sub self b => __sub__ self b
  | call_rsub self b => __rsub__ self b
  | call_truediv self b => __truediv__ self b
  | call_rtruediv self b => __rtruediv__ self b
  | call_relu self => returning_Node (relu self)
  | call_sigmoid self => returning_Node (sigmoid self)
  end.

(** A value is live in a store when it is a number or a reference to an
    object of the store. *)
Definition live (h : heap) (v : value) : Prop :=
  match v with
  | VNum _ => True
  | VNode a => (a < length h)%nat
  end.

Definition call_live (h : heap) (c : call) : Prop :=
  match c with
  | call_Node _ => True
  | call_neg self | call_relu self | call_sigmoid self => (self < length h)%nat
  | call_add self b | call_mul self b | call__pow self b
  | call_radd self b | call_rmul self b | call_sub self b
  | call_rsub self b | call_truediv self b | call_rtruediv self b =>
      (self < length h)%nat /\ live h b
  end.

(** The stores a program can reach: it starts with no object, calls
    operations on objects it holds, may run backward propagation from any
    of them, and may reset gradients between passes. *)
Inductive constructed : heap -> Prop :=
| constructed_empty : constructed []
| constructed_call (h : heap) (c : call) (v : value) (h' : heap) :
    constructed h -> call_live h c -> run_call c h = Ok (v, h') ->
    constructed h'
| constructed_backward (h : heap) (root : addr) (h' : heap) :
    constructed h -> (root < length h)%nat ->
    backward_propagation root h = Some h' ->
    constructed h'
| constructed_clear (h : heap) (parameters : list addr) :
    constructed h -> constructed (clear_gradient parameters h).

End Engine.

(** * The network layer ([neural_network.py])

    A [Neuron], a [Layer] and an [MLP] are objects whose fields are assigned
    once, in [__init__], so they are records here; the [Node] objects they
    refer to live in the store.  [random.uniform(-1, 1)] is the function
    [uniform]: [uniform k] is the [k]-th value the generator returns, and
    each [__init__] is given the position [k] of its first draw. *)

(** What a neuron or a layer is called on, and what a layer returns: one
    value (a number or a [Node]), or a list of values. *)
Inductive arg : Type :=
| one (v : value)
| many (xs : list value).

Module Neuron.

Record t : Type := mk {
  w : list addr;
  b : addr;
  non_linear : bool
}.

Section Methods.

Context {rt : Runtime}.

Variable uniform : nat -> Q.

Local Open Scope py_scope.

(** [[Node(random.uniform(-1,1)) for _ in range(n_inputs)]], the first draw
    being the [k]-th. *)
Fixpoint random_Nodes (k n_inputs : nat) : M (list addr) :=
  match n_inputs with
  | O => ret []
  | S n =>
      wi <- Node_init (uniform k) [] tag_empty ;;
      ws <- random_Nodes (S k) n ;;
      ret (wi :: ws)
  end.

Definition __init__ (k n_inputs : nat) (non_linear : bool) : M t :=
  w <- random_Nodes k n_inputs ;;
  b <- Node_init 0 [] tag_empty ;;
  ret (mk w b non_linear).

(** [sum((wi*xi for wi,xi in pairs), acc)]: each product is built when the
    loop of [sum] asks for it, then added to the running result; [wi] and
    the running result are [Node]s, so [*] and [+] reach [__mul__] and
    [__add__]. *)
Fixpoint weighted_sum (pairs : list (addr * value)) (acc : addr) : M addr :=
  match pairs with
  | [] => ret acc
  | (wi, xi) :: rest =>
      p <- __mul__ wi xi ;;
      acc' <- __add__ acc (VNode p) ;;
      weighted_sum rest acc'
  end.

(** [zip(self.w, x)] raises [TypeError] when [x] is not iterable. *)
Definition __call__ (self : t) (x : arg) : M addr :=
  match x with
  | one _ => raise TypeError
  | many xs =>
      activation <- weighted_sum (zip (w self) xs) (b self) ;;
      if non_linear self then relu activation else ret activation
  end.

Definition parameters (self : t) : list addr := w self ++ [b self].

End Methods.

End Neuron.

Module Layer.

Record t : Type := mk { neurons : list Neuron.t }.

Section Methods.

Context {rt : Runtime}.

Variable uniform : nat -> Q.

Local Open Scope py_scope.

(** [[Neuron(n_inputs, **kwargs) for _ in range(n_output)]] *)
Fixpoint new_neurons (k n_inputs n_output : nat) (non_linear : bool)
    : M (list Neuron.t) :=
  match n_output with
  | O => ret []
  | S n =>
      neuron <- Neuron.__init__ uniform k n_inputs non_linear ;;
      rest <- new_neurons (k + n_inputs) n_inputs n non_linear ;;
      ret (neuron :: rest)
  end.

Definition __init__ (k n_inputs n_output : nat) (non_linear : bool) : M t :=
  neurons <- new_neurons k n_inputs n_output non_linear ;;
  ret (mk neurons).

(** [[neuron(x) for neuron in self.neurons]] *)
Fixpoint call_each (neurons : list Neuron.t) (x : arg) : M (list addr) :=
  match neurons with
  | [] => ret []
  | neuron :: rest =>
      r <- Neuron.__call__ neuron x ;;
      rs <- call_each rest x ;;
      ret (r :: rs)
  end.

(** [res[0] if len(res) == 1 else res] *)
Definition __call__ (self : t) (x : arg) : M arg :=
  res <- call_each (neurons self) x ;;
  ret (match res with
       | [r] => one (VNode r)
       | _ => many (VNode <$> res)
       end).

(** [[param for neuron in self.neurons for param in neuron.parameters()]] *)
Definition parameters (self : t) : list addr :=
  concat (Neuron.parameters <$> neurons self).

End Methods.

End Layer.

Module MLP.

Record t : Type := mk { layers : list Layer.t }.

Section Methods.

Context {rt : Runtime}.

Variable uniform : nat -> Q.

Local Open Scope py_scope.

(** The layers for the dimensions [n_in :: n_outputs]: layer [i] maps
    [net_dim[i]] inputs to [net_dim[i+1]] outputs and is non-linear unless
    it is the last one. *)
Fixpoint new_layers (k n_in : nat) (n_outputs : list nat)
    : M (list Layer.t) :=
  match n_outputs with
  | [] => ret []
  | n_out :: rest =>
      layer <- Layer.__init__ uniform k n_in n_out
                 (match rest with [] => false | _ => true end) ;;
      more <- new_layers (k + n_out * n_in) n_out rest ;;
      ret (layer :: more)
  end.

Definition __init__ (k n_inputs : nat) (n_outputs : list nat) : M t :=
  layers <- new_layers k n_inputs n_outputs ;;
  ret (mk layers).

(** [for layer in self.layers: x = layer(x)] *)
Fixpoint call_layers (layers : list Layer.t) (x : arg) : M arg :=
  match layers with
  | [] => ret x
  | layer :: rest =>
      x' <- Layer.__call__ layer x ;;
      call_layers rest x'
  end.

Definition __call__ (self : t) (x : arg) : M arg :=
  call_layers (layers self) x.

Definition parameters (self : t) : list addr :=
  concat (Layer.parameters <$> layers self).

End Methods.

End MLP.


(** ** Example stores, built under [example_runtime] *)

(** [x = Node(3); y = Node(4)] *)
Definition two_leaves : heap :=
  [ mkNode 3 tag_empty 0 lambda_None [];
    mkNode 4 tag_empty 0 lambda_None [] ].

(** [u = Node(-5); v = Node(5); w = Node(0)] *)
Definition signed_leaves : heap :=
  [ mkNode (-5) tag_empty 0 lambda_None [];
    mkNode 5 tag_empty 0 lambda_None [];
    mkNode 0 tag_empty 0 lambda_None [] ].

(** [a = Node(0)] *)
Definition zero_leaf : heap := [ mkNode 0 tag_empty 0 lambda_None [] ].

(** [a = Node(2); b = a.relu(); c = a * b]: [a] is reached from [c] along
    two paths. *)
Definition diamond : heap :=
  [ mkNode 2 tag_empty 0 lambda_None [];
    mkNode 2 tag_ReLU 0 (relu_backward 0 1) [0%nat];
    mkNode 4 tag_mul 0 (mul_backward 0 1 2) [0%nat; 1%nat] ].

(** * Specification vocabulary *)

Local Open Scope nat_scope.

(** The captured variables of a closure stored at address [i] are objects
    that existed when [i] was created, and its [res] is [i] itself. *)
Definition wf_closure (i : addr) (f : closure) : Prop :=
  match f with
  | lambda_None => True
  | add_backward self b res => self < i /\ b < i /\ res = i
  | mul_backward self b res => self < i /\ b < i /\ res = i
  | pow_backward self _ res => self < i /\ res = i
  | relu_backward self res => self < i /\ res = i
  | sigmoid_backward self res => self < i /\ res = i
  end.

(** The shape of a store built by the operators: the operands of an object
    are older than it (so the operand relation is acyclic and every
    reference is live), and so are the variables its closure captured. *)
Definition wf (h : heap) : Prop :=
  forall i : addr,
    (forall c, c ∈ previous_of h i -> c < i) /\
    wf_closure i (backward_of h i).

(** [n] is the root or one of its transitive operands. *)
Inductive reachable (h : heap) (root : addr) : addr -> Prop :=
| reach_root : reachable h root root
| reach_operand n c :
    reachable h root n -> c ∈ previous_of h n -> reachable h root c.

(** [x] occurs in [l] at a position strictly before one of [y]. *)
Definition strictly_before (l : list addr) (x y : addr) : Prop :=
  exists j k, j < k /\ l !! j = Some x /\ l !! k = Some y.

(** Every operand of a listed node is listed at an earlier position. *)
Definition operands_first (h : heap) (l : list addr) : Prop :=
  forall k n, l !! k = Some n ->
    forall c, c ∈ previous_of h n -> exists j, j < k /\ l !! j = Some c.

(** A leaf: an object with no operands and the no-op closure, as built by
    [Node(x)]. *)
Definition leaf (h : heap) (a : addr) : Prop :=
  a < length h /\ previous_of h a = [] /\ backward_of h a = lambda_None.

(** What the ordering phase maintains: no node is listed twice, every
    listed node was marked visited, and operands are listed first. *)
Definition sort_inv (h : heap) (st : sort_state) : Prop :=
  NoDup (topological_sorted st) /\
  (forall x, x ∈ topological_sorted st -> x ∈ visited st) /\
  operands_first h (topological_sorted st).

(** A visit of [i] appends nodes to the sequence: each is [i] or older,
    is reachable from [i], and was not visited before; the visited set
    grows by exactly these nodes. *)
Definition grows (h : heap) (i : addr) (st st' : sort_state) : Prop :=
  exists new,
    topological_sorted st' = topological_sorted st ++ new /\
    (forall x, x ∈ new -> x <= i /\ reachable h i x /\ x ∉ visited st) /\
    (forall x, x ∈ visited st' <-> x ∈ visited st \/ x ∈ new).

(** The contract of one visit of node [c]: called in a state where every
    visited node is finished or younger than [c], it returns, keeps the
    invariant, appends as [grows] says, and leaves [c] listed. *)
Definition visit_ok (h : heap)
    (visit : addr -> sort_state -> option sort_state) (c : addr) : Prop :=
  forall st,
    sort_inv h st ->
    (forall x, x ∈ visited st -> x ∈ topological_sorted st \/ c < x) ->
    exists st', visit c st = Some st' /\ sort_inv h st' /\
                grows h c st st' /\ c ∈ topological_sorted st'.

(** A computation keeps the store well formed, only appends to it, and
    returns something live in the new store. *)
Definition preserves {A : Type} (liveA : heap -> A -> Prop) (c : M A)
    (h : heap) : Prop :=
  forall r h', c h = Ok (r, h') ->
    wf h' /\ h `prefix_of` h' /\ liveA h' r.

Definition live_addr (h : heap) (a : addr) : Prop := a < length h.

(** Two stores hold the same graph when they differ at most in the
    [gradient] fields. *)
Definition same_graph (h h' : heap) : Prop :=
  length h' = length h /\
  forall i, scalar_of h' i = scalar_of h i /\
            _math_operator (h' !!! i) = _math_operator (h !!! i) /\
            backward_of h' i = backward_of h i /\
            previous_of h' i = previous_of h i.

(** ** Vocabulary of the further properties *)

(** The operands a closure adds to: the variables [self] and [b] it
    captured. *)
Definition captured (f : closure) : list addr :=
  match f with
  | lambda_None => []
  | add_backward self b _ => [self; b]
  | mul_backward self b _ => [self; b]
  | pow_backward self _ _ => [self]
  | relu_backward self _ => [self]
  | sigmoid_backward self _ => [self]
  end.

(** The object at address [i] is what one call of [Node(x)] or of an
    operator builds: label, closure and operand set belong together, the
    operands are older than [i], and the scalar is the operator applied to
    the operands' scalars read in [h]. *)
Definition operator_node {rt : Runtime} (h : heap) (i : addr) (n : Node)
    : Prop :=
  match _backward n with
  | lambda_None =>
      _math_operator n = tag_empty /\ _previous n = py_set []
  | add_backward self b res =>
      res = i /\ self < i /\ b < i /\
      _math_operator n = tag_add /\ _previous n = py_set [self; b] /\
      scalar n = (scalar_of h self + scalar_of h b)%Q
  | mul_backward self b res =>
      res = i /\ self < i /\ b < i /\
      _math_operator n = tag_mul /\ _previous n = py_set [self; b] /\
      scalar n = (scalar_of h self * scalar_of h b)%Q
  | pow_backward self p res =>
      res = i /\ self < i /\
      _math_operator n = tag_pow p /\ _previous n = py_set [self] /\
      scalar n = num_pow (scalar_of h self) p
  | relu_backward self res =>
      res = i /\ self < i /\
      _math_operator n = tag_ReLU /\ _previous n = py_set [self] /\
      scalar n = (if Qltb (scalar_of h self) 0 then 0 else scalar_of h self)%Q
  | sigmoid_backward self res =>
      res = i /\ self < i /\
      _math_operator n = tag_Sigmoid /\ _previous n = py_set [self] /\
      scalar n = (1 / (1 + np_exp (- scalar_of h self)))%Q
  end.

(** Every object of the store has such a shape. *)
Definition well_shaped {rt : Runtime} (h : heap) : Prop :=
  forall i : addr, operator_node h i (h !!! i).

(** A computation that returns keeps the invariant [Inv], only appends to
    the store, and returns something live. *)
Definition keeps (Inv : heap -> Prop) {A : Type} (liveA : heap -> A -> Prop)
    (c : M A) (h : heap) : Prop :=
  forall r h',
    c h = Ok (r, h') -> Inv h' /\ h `prefix_of` h' /\ liveA h' r.

(** What the closure [f] adds to the gradient of [n] when the gradient of
    its own node is [g]; scalars are read in [h]. *)
Definition contribution {rt : Runtime} (h : heap) (f : closure) (g : Q)
    (n : addr) : Q :=
  match f with
  | lambda_None => 0
  | add_backward self b _ =>
      of_bool (bool_decide (self = n)) * g
      + of_bool (bool_decide (b = n)) * g
  | mul_backward self b _ =>
      of_bool (bool_decide (self = n)) * (scalar_of h b * g)
      + of_bool (bool_decide (b = n)) * (scalar_of h self * g)
  | pow_backward self p _ =>
      of_bool (bool_decide (self = n))
      * ((p * num_pow (scalar_of h self) (p - 1)) * g)
  | relu_backward self res =>
      of_bool (bool_decide (self = n))
      * (of_bool (Qgtb (scalar_of h res) 0) * g)
  | sigmoid_backward self res =>
      of_bool (bool_decide (self = n))
      * (scalar_of h res * (1 - scalar_of h res))
  end%Q.

(** The sum of a list of numbers. *)
Definition Qsum (l : list Q) : Q := foldr Qplus 0%Q l.


(** ** Vocabulary of the network layer *)

(** The number an operand stands for: itself, or the scalar of the [Node]. *)
Definition operand_scalar (h : heap) (v : value) : Q :=
  match v with
  | VNum q => q
  | VNode a => scalar_of h a
  end.

(** [sum(wi.scalar * xi for wi, xi in pairs)], the scalars read in [h]. *)
Definition weighted (h : heap) (pairs : list (addr * value)) : Q :=
  Qsum ((fun p => (scalar_of h p.1 * operand_scalar h p.2)%Q) <$> pairs).

(** Liveness of what the network is called on, of lists of addresses and
    of the pairs [zip] yields. *)
Definition live_arg (h : heap) (x : arg) : Prop :=
  match x with
  | one v => live h v
  | many xs => Forall (live h) xs
  end.

Definition live_addrs (h : heap) (l : list addr) : Prop :=
  Forall (live_addr h) l.

Definition live_pair (h : heap) (p : addr * value) : Prop :=
  p.1 < length h /\ live h p.2.



Definition is_many (x : arg) : bool :=
  match x with
  | one _ => false
  | many _ => true
  end.

(** The number of neurons of each layer. *)
Definition widths (m : MLP.t) : list nat :=
  (fun l => length (Layer.neurons l)) <$> MLP.layers m.

(** Whether layers of the given widths can be called in turn, the first on
    a list ([is_list]) or on a single value: a layer with a neuron needs a
    list, and a layer of width 1 does not return one. *)
Fixpoint chains (is_list : bool) (widths : list nat) : bool :=
  match widths with
  | [] => true
  | n :: rest => (is_list || (n =? 0)) && chains (negb (n =? 1)) rest
  end.

(** What a layer of [n] neurons returns: its only node, or a list of [n]
    nodes. *)
Definition layer_shape (n : nat) (y : arg) : Prop :=
  if n =? 1 then exists r, y = one (VNode r)
  else exists rs, y = many (VNode <$> rs) /\ length rs = n.



(** The object [Node(x)] builds. *)
Definition new_leaf {rt : Runtime} (x : Q) : Node :=
  mkNode x tag_empty 0 lambda_None (py_set []).

(** The weights and the biases of a network, layer by layer and neuron by
    neuron. *)
Definition Layer_weights (l : Layer.t) : list addr :=
  concat (Neuron.w <$> Layer.neurons l).

Definition weights (m : MLP.t) : list addr :=
  concat (Layer_weights <$> MLP.layers m).

Definition biases (m : MLP.t) : list addr :=
  concat ((fun l => Neuron.b <$> Layer.neurons l) <$> MLP.layers m).

(** For each layer and each of its neurons, the number of weights and the
    flag [non_linear]. *)
Definition shape (m : MLP.t) : list (list (nat * bool)) :=
  (fun l => (fun n => (length (Neuron.w n), Neuron.non_linear n))
              <$> Layer.neurons l) <$> MLP.layers m.

(** The shape [MLP(n_in, n_outputs)] is meant to have: layer [i] has
    [n_outputs[i]] neurons with as many weights as the layer before has
    neurons, and every layer but the last is non-linear. *)
Fixpoint mlp_shape (n_in : nat) (n_outputs : list nat)
    : list (list (nat * bool)) :=
  match n_outputs with
  | [] => []
  | n_out :: rest =>
      replicate n_out (n_in, match rest with [] => false | _ => true end)
      :: mlp_shape n_out rest
  end.

Fixpoint param_count (n_in : nat) (n_outputs : list nat) : nat :=
  match n_outputs with
  | [] => 0
  | n_out :: rest => n_out * (n_in + 1) + param_count n_out rest
  end.

(** One of the objects [Node(x)] builds. *)
Definition is_new_leaf {rt : Runtime} (n : Node) : Prop :=
  exists q, n = new_leaf q.



(** The running result the [i]-th step of [sum] adds to, when the objects
    of the steps are appended from address [L0] on: the start value, or
    the sum built by the step before. *)
Definition chain_prev (L0 acc : addr) (i : nat) : addr :=
  match i with
  | O => acc
  | S j => L0 + 3 * j + 2
  end.

(** The objects [sum((wi*xi for ...), acc)] leaves in the store for
    numeric inputs: per pair, the wrapped input, the product and the new
    running sum. *)
Definition chain_at {rt : Runtime} (G : heap) (L0 acc : addr)
    (pairs : list (addr * Q)) : Prop :=
  forall i w q, pairs !! i = Some (w, q) ->
    G !!! (L0 + 3 * i) = new_leaf q /\
    (exists s,
       G !!! (L0 + 3 * i + 1)
       = mkNode s tag_mul 0 (mul_backward w (L0 + 3 * i) (L0 + 3 * i + 1))
           (py_set [w; L0 + 3 * i])) /\
    (exists s,
       G !!! (L0 + 3 * i + 2)
       = mkNode s tag_add 0
           (add_backward (chain_prev L0 acc i) (L0 + 3 * i + 1)
              (L0 + 3 * i + 2))
           (py_set [chain_prev L0 acc i; L0 + 3 * i + 1])).



(** The function a network is meant to compute, on numbers, with the
    parameters read in the store [h]: a neuron gives
    [b + sum(wi * xi)], through [max(0, .)] when it is non-linear; a layer
    gives the list of its neurons' values; the layers are chained. *)
Definition neuron_eval (h : heap) (n : Neuron.t) (xs : list Q) : Q :=
  let a := (scalar_of h (Neuron.b n)
            + Qsum ((fun p => scalar_of h p.1 * p.2) <$> zip (Neuron.w n) xs))%Q
  in if Neuron.non_linear n then Qmax 0 a else a.

Definition layer_eval (h : heap) (l : Layer.t) (xs : list Q) : list Q :=
  (fun n => neuron_eval h n xs) <$> Layer.neurons l.

Definition mlp_eval (h : heap) (ls : list Layer.t) (xs : list Q) : list Q :=
  foldl (fun xs l => layer_eval h l xs) xs ls.

(** The numbers an argument or a result stands for. *)
Definition arg_scalars (h : heap) (x : arg) : list Q :=
  match x with
  | one v => [operand_scalar h v]
  | many vs => operand_scalar h <$> vs
  end.


(** * Properties *)

(** ** Numbers *)

Lemma Qltb_lt (x y : Q) : Qltb x y = true <-> (x < y)%Q.
Proof.
  unfold Qltb. rewrite negb_true_iff, <- not_true_iff_false, Qle_bool_iff.
  split; [apply Qnot_le_lt | apply Qlt_not_le].
Qed.

Lemma Qgtb_gt (x y : Q) : Qgtb x y = true <-> (y < x)%Q.
Proof. apply Qltb_lt. Qed.

Lemma Qleb_le (x y : Q) : Qleb x y = true <-> (x <= y)%Q.
Proof. apply Qle_bool_iff. Qed.

Lemma Qgeb_ge (x y : Q) : Qgeb x y = true <-> (y <= x)%Q.
Proof. apply Qle_bool_iff. Qed.

(** ** Reading the store after an update *)

Lemma length_add_gradient a d (h : heap) :
  length (add_gradient a d h) = length h.
Proof. apply length_alter. Qed.

Lemma scalar_of_add_gradient a d (h : heap) x :
  scalar_of (add_gradient a d h) x = scalar_of h x.
Proof.
  unfold scalar_of, add_gradient. rewrite list_lookup_total_alter.
  case_decide as H; [destruct H as [-> _]|]; reflexivity.
Qed.

Lemma previous_of_add_gradient a d (h : heap) x :
  previous_of (add_gradient a d h) x = previous_of h x.
Proof.
  unfold previous_of, add_gradient. rewrite list_lookup_total_alter.
  case_decide as H; [destruct H as [-> _]|]; reflexivity.
Qed.

Lemma backward_of_add_gradient a d (h : heap) x :
  backward_of (add_gradient a d h) x = backward_of h x.
Proof.
  unfold backward_of, add_gradient. rewrite list_lookup_total_alter.
  case_decide as H; [destruct H as [-> _]|]; reflexivity.
Qed.

Lemma gradient_of_add_gradient_eq a d (h : heap) :
  a < length h ->
  gradient_of (add_gradient a d h) a = (gradient_of h a + d)%Q.
Proof.
  intros Ha. unfold gradient_of, add_gradient.
  rewrite list_lookup_total_alter_eq by assumption. reflexivity.
Qed.

Lemma gradient_of_add_gradient_ne a d (h : heap) x :
  a <> x -> gradient_of (add_gradient a d h) x = gradient_of h x.
Proof.
  intros Hne. unfold gradient_of, add_gradient.
  rewrite list_lookup_total_alter_ne by assumption. reflexivity.
Qed.

(** The seed [self.gradient = 1]. *)
Lemma length_seed a (h : heap) : length (alter (set_gradient 1) a h) = length h.
Proof. apply length_alter. Qed.

Lemma scalar_of_seed a (h : heap) x :
  scalar_of (alter (set_gradient 1) a h) x = scalar_of h x.
Proof.
  unfold scalar_of. rewrite list_lookup_total_alter.
  case_decide as H; [destruct H as [-> _]|]; reflexivity.
Qed.

Lemma previous_of_seed a (h : heap) x :
  previous_of (alter (set_gradient 1) a h) x = previous_of h x.
Proof.
  unfold previous_of. rewrite list_lookup_total_alter.
  case_decide as H; [destruct H as [-> _]|]; reflexivity.
Qed.

Lemma backward_of_seed a (h : heap) x :
  backward_of (alter (set_gradient 1) a h) x = backward_of h x.
Proof.
  unfold backward_of. rewrite list_lookup_total_alter.
  case_decide as H; [destruct H as [-> _]|]; reflexivity.
Qed.

Lemma gradient_of_seed_eq a (h : heap) :
  a < length h -> gradient_of (alter (set_gradient 1) a h) a = 1%Q.
Proof.
  intros Ha. unfold gradient_of.
  rewrite list_lookup_total_alter_eq by assumption. reflexivity.
Qed.

Lemma gradient_of_seed_ne a (h : heap) x :
  a <> x -> gradient_of (alter (set_gradient 1) a h) x = gradient_of h x.
Proof.
  intros Hne. unfold gradient_of.
  rewrite list_lookup_total_alter_ne by assumption. reflexivity.
Qed.

(** Allocation followed by the assignment of the closure is one append. *)
Lemma alter_new_object (f : Node -> Node) (h : heap) (n : Node) :
  alter f (length h) (h ++ [n]) = h ++ [f n].
Proof.
  induction h as [|m h IH]; simpl; [reflexivity|].
  f_equal. exact IH.
Qed.

Lemma lookup_total_old (h : heap) (k : list Node) x :
  x < length h -> (h ++ k) !!! x = h !!! x.
Proof. apply lookup_total_app_l. Qed.

Lemma lookup_total_new (h : heap) (n : Node) : (h ++ [n]) !!! length h = n.
Proof. apply list_lookup_total_middle. reflexivity. Qed.

Section Properties.

Context {rt : Runtime}.

(** ** What each operator appends to the store *)

Lemma __add___Node (self b : addr) (h : heap) :
  __add__ self (VNode b) h =
  Ok (length h,
      h ++ [mkNode (scalar_of h self + scalar_of h b) tag_add 0
                   (add_backward self b (length h)) (py_set [self; b])]).
Proof.
  unfold __add__, bind, as_Node, ret, get_scalar, Node_init, assign_backward.
  rewrite alter_new_object. reflexivity.
Qed.

Lemma __mul___Node (self b : addr) (h : heap) :
  __mul__ self (VNode b) h =
  Ok (length h,
      h ++ [mkNode (scalar_of h self * scalar_of h b) tag_mul 0
                   (mul_backward self b (length h)) (py_set [self; b])]).
Proof.
  unfold __mul__, bind, as_Node, ret, get_scalar, Node_init, assign_backward.
  rewrite alter_new_object. reflexivity.
Qed.

Lemma _pow___Num (self : addr) (b : Q) (h : heap) :
  _pow__ self (VNum b) h =
  Ok (length h,
      h ++ [mkNode (num_pow (scalar_of h self) b) (tag_pow b) 0
                   (pow_backward self b (length h)) (py_set [self])]).
Proof.
  unfold _pow__, bind, ret, get_scalar, Node_init, assign_backward.
  rewrite alter_new_object. reflexivity.
Qed.

Lemma relu_eq (self : addr) (h : heap) :
  relu self h =
  Ok (length h,
      h ++ [mkNode (if Qltb (scalar_of h self) 0 then 0 else scalar_of h self)
                   tag_ReLU 0 (relu_backward self (length h)) (py_set [self])]).
Proof.
  unfold relu, bind, ret, get_scalar, Node_init, assign_backward.
  rewrite alter_new_object. reflexivity.
Qed.

Lemma sigmoid_eq (self : addr) (h : heap) :
  sigmoid self h =
  Ok (length h,
      h ++ [mkNode (1 / (1 + np_exp (- scalar_of h self))) tag_Sigmoid 0
                   (sigmoid_backward self (length h)) (py_set [self])]).
Proof.
  unfold sigmoid, bind, ret, get_scalar, Node_init, assign_backward.
  rewrite alter_new_object. reflexivity.
Qed.

(** ** The names the class binds *)

(** On the names the operators [+], [*], [**] and unary [-] look up, the
    table used for dispatch and the whole class agree. *)
Lemma Node_getattr_agrees (name : string) :
  name ∈ [ "__add__"; "__radd__"; "__mul__"; "__rmul__"; "__pow__";
           "__rpow__"; "__neg__" ]%string ->
  (is_Some (Node_getattr name) <-> name ∈ Node_names).
Proof.
  intros Hin. unfold Node_names.
  repeat (apply elem_of_cons in Hin as [-> | Hin]);
    [ .. | inversion Hin ];
    (split; intros H;
     [ first [ apply list_elem_of_In; simpl; tauto
             | exfalso; destruct H as [m Hm]; vm_compute in Hm; discriminate ]
     | first [ eexists; vm_compute; reflexivity
             | exfalso; apply list_elem_of_In in H; simpl in H;
               repeat destruct H as [H|H];
               solve [discriminate | destruct H] ] ]).
Qed.

Lemma no_power_method :
  Node_getattr "__pow__" = None /\ Node_getattr "__rpow__" = None.
Proof. split; reflexivity. Qed.

(** ** The power operator and division *)

(** The method [_pow__], called by the name the source gives it, records
    the power node and its derivative rule. *)
Lemma pow_method_by_name (self : addr) (p : Q) (h : heap) :
  exists r h',
    _pow__ self (VNum p) h = Ok (r, h') /\
    scalar_of h' r = num_pow (scalar_of h self) p /\
    backward_of h' r = pow_backward self p r /\
    forall k : heap, self < length k -> self <> r ->
      gradient_of (call_backward (pow_backward self p r) k) self =
      (gradient_of k self
       + (p * num_pow (scalar_of k self) (p - 1)) * gradient_of k r)%Q.
Proof.
  eexists _, _. split; [apply _pow___Num|].
  unfold scalar_of, backward_of. rewrite !lookup_total_new. simpl.
  split; [reflexivity|]. split; [reflexivity|].
  intros k Hk _. apply gradient_of_add_gradient_eq. exact Hk.
Qed.

(** C1 (what the code does): the expression [a ** p] with a node [a] and a
    number [p] raises [TypeError] in every store, because the class binds
    its power method under the name [_pow__] and so has no [__pow__]; in
    particular [Node(2) ** 3] raises and no node [r] is returned. *)
Theorem power_operator_raises :
  (forall (h : heap) (a : addr) (p : Q),
      py_pow (VNode a) (VNum p) h = Raise TypeError) /\
  bind (Node_init 2 [] tag_empty) (fun a => py_pow (VNode a) (VNum 3)) []
  = Raise TypeError.
Proof. split; reflexivity. Qed.

(** C3 (what the code does): [a / b] for two nodes evaluates [b ** (-1)]
    first, which raises [TypeError] for want of [__pow__]; the right form
    [b / a] evaluates [a ** (-1)] and raises for every left operand.  No
    node is returned. *)
Theorem division_raises :
  (forall (h : heap) (a b : addr),
      __truediv__ a (VNode b) h = Raise TypeError) /\
  (forall (h : heap) (a : addr) (b : value),
      __rtruediv__ a b h = Raise TypeError).
Proof. split; reflexivity. Qed.

(** ** softmax *)

Lemma softmax_loop_last (others : list addr) (last : addr) (s0 : Q)
    (h : heap) :
  softmax_loop (VNode <$> (others ++ [last])) s0 h
  = Ok (np_exp (scalar_of h last), h).
Proof.
  revert s0. induction others as [|x others IH]; intros s0; simpl.
  - reflexivity.
  - unfold bind at 1. simpl. apply IH.
Qed.

(** C8 (what the code does): [softmax] divides [exp(a.scalar)] by the
    exponential of the LAST element of the list only, since each iteration
    overwrites [sum_softmax]; with two nodes of scalar 0 it returns
    [exp(0) / exp(0)], not [exp(0) / (exp(0) + exp(0))].  The result is a
    number and the store is unchanged. *)
Theorem softmax_divides_by_last_term :
  (forall (h : heap) (a : addr) (others : list addr) (last : addr),
      softmax a (VNode <$> (others ++ [last])) h
      = Ok ((np_exp (scalar_of h a) / np_exp (scalar_of h last))%Q, h)) /\
  bind (Node_init 0 [] tag_empty) (fun a =>
    bind (Node_init 0 [] tag_empty) (fun b =>
      softmax a [VNode a; VNode b])) []
  = Ok ((np_exp 0 / np_exp 0)%Q,
        [mkNode 0 tag_empty 0 lambda_None (py_set []);
         mkNode 0 tag_empty 0 lambda_None (py_set [])]).
Proof.
  split.
  - intros h a others last. unfold softmax, bind.
    rewrite softmax_loop_last. reflexivity.
  - reflexivity.
Qed.

(** ** Comparisons *)

(** C10: a comparison method applied to a node and a plain number raises
    [AttributeError] (the number has no [scalar]); applied to two nodes it
    returns the boolean comparison of the two [scalar] fields and leaves
    the store as it was, so no node is created. *)
Theorem comparisons_read_scalar_of_both (h : heap) (a : addr) :
  (forall c : Q,
      __gt__ a (VNum c) h = Raise AttributeError /\
      __lt__ a (VNum c) h = Raise AttributeError /\
      __ge__ a (VNum c) h = Raise AttributeError /\
      __le__ a (VNum c) h = Raise AttributeError) /\
  (forall b : addr,
      exists gt lt ge le : bool,
        __gt__ a (VNode b) h = Ok (gt, h) /\
        __lt__ a (VNode b) h = Ok (lt, h) /\
        __ge__ a (VNode b) h = Ok (ge, h) /\
        __le__ a (VNode b) h = Ok (le, h) /\
        (gt = true <-> (scalar_of h a > scalar_of h b)%Q) /\
        (lt = true <-> (scalar_of h a < scalar_of h b)%Q) /\
        (ge = true <-> (scalar_of h a >= scalar_of h b)%Q) /\
        (le = true <-> (scalar_of h a <= scalar_of h b)%Q)).
Proof.
  split.
  - intros c. repeat split; reflexivity.
  - intros b.
    exists (Qgtb (scalar_of h a) (scalar_of h b)),
           (Qltb (scalar_of h a) (scalar_of h b)),
           (Qgeb (scalar_of h a) (scalar_of h b)),
           (Qleb (scalar_of h a) (scalar_of h b)).
    repeat (split; [reflexivity|]).
    split; [apply Qgtb_gt|]. split; [apply Qltb_lt|].
    split; [apply Qgeb_ge|]. apply Qleb_le.
Qed.

(** ** The ordering phase *)

Lemma reachable_via_operand (h : heap) (i c x : addr) :
  c ∈ previous_of h i -> reachable h c x -> reachable h i x.
Proof.
  intros Hc Hr. induction Hr as [|n d Hr IH Hd].
  - eapply reach_operand; [apply reach_root | exact Hc].
  - eapply reach_operand; [exact IH | exact Hd].
Qed.

Lemma grows_refl h i st : grows h i st st.
Proof.
  exists []. rewrite app_nil_r. split; [reflexivity|].
  split; [intros x Hx; inversion Hx|].
  intros x. rewrite elem_of_nil. tauto.
Qed.

Lemma operands_first_snoc (h : heap) (l : list addr) (i : addr) :
  operands_first h l ->
  (forall c, c ∈ previous_of h i -> c ∈ l) ->
  operands_first h (l ++ [i]).
Proof.
  intros Hl Hi k n Hk c Hc.
  apply lookup_app_Some in Hk as [Hk | [Hge Hk]].
  - destruct (Hl k n Hk c Hc) as (j & Hj & Hjc).
    exists j. split; [exact Hj|]. apply lookup_app_l_Some. exact Hjc.
  - apply list_lookup_singleton_Some in Hk as [Hk0 ->].
    destruct (list_elem_of_lookup_1 _ _ (Hi c Hc)) as [j Hj].
    exists j. split.
    + apply lookup_lt_Some in Hj. lia.
    + apply lookup_app_l_Some. exact Hj.
Qed.

Section Visit.
Variable h : heap.
Hypothesis Hdec : forall j c, c ∈ previous_of h j -> c < j.

Lemma for_each_spec (visit : addr -> sort_state -> option sort_state)
    (i : addr) :
  (forall c, c < i -> visit_ok h visit c) ->
  forall (cs : list addr) (st : sort_state),
    (forall c, c ∈ cs -> c ∈ previous_of h i) ->
    sort_inv h st ->
    (forall x, x ∈ visited st -> x ∈ topological_sorted st \/ i <= x) ->
    exists st' new,
      for_each visit cs st = Some st' /\ sort_inv h st' /\
      topological_sorted st' = topological_sorted st ++ new /\
      (forall x, x ∈ new -> x < i /\ reachable h i x /\ x ∉ visited st) /\
      (forall x, x ∈ visited st' <-> x ∈ visited st \/ x ∈ new) /\
      (forall c, c ∈ cs -> c ∈ topological_sorted st').
Proof.
  intros Hvisit cs. induction cs as [|c cs IH]; intros st Hcs Hinv Hprog.
  - exists st, []. simpl. rewrite app_nil_r.
    split; [reflexivity|]. split; [exact Hinv|]. split; [reflexivity|].
    split; [intros x Hx; inversion Hx|].
    split; [|intros x Hx; inversion Hx].
    intros x. rewrite elem_of_nil. tauto.
  - assert (Hc : c ∈ previous_of h i) by (apply Hcs; left).
    assert (Hci : c < i) by (apply Hdec; exact Hc).
    destruct (Hvisit c Hci st Hinv)
      as (st1 & Hv & Hinv1 & (new1 & Hs1 & Hn1 & Hvis1) & Hin1).
    { intros x Hx.
      destruct (Hprog x Hx) as [?|?]; [left; assumption | right; lia]. }
    destruct (IH st1) as (st2 & new2 & Hf & Hinv2 & Hs2 & Hn2 & Hvis2 & Hcs2).
    { intros d Hd. apply Hcs. right. exact Hd. }
    { exact Hinv1. }
    { intros x Hx. apply Hvis1 in Hx as [Hx | Hx].
      - destruct (Hprog x Hx) as [Hxs | Hxi]; [left | right; exact Hxi].
        rewrite Hs1. apply elem_of_app. left. exact Hxs.
      - left. rewrite Hs1. apply elem_of_app. right. exact Hx. }
    exists st2, (new1 ++ new2). simpl. rewrite Hv.
    split; [exact Hf|]. split; [exact Hinv2|].
    split; [rewrite Hs2, Hs1, app_assoc; reflexivity|].
    split; [|split].
    + intros x Hx. apply elem_of_app in Hx as [Hx | Hx].
      * destruct (Hn1 x Hx) as (Hle & Hr & Hnv).
        split; [lia|]. split; [|exact Hnv].
        eapply reachable_via_operand; eassumption.
      * destruct (Hn2 x Hx) as (Hlt & Hr & Hnv).
        split; [exact Hlt|]. split; [exact Hr|].
        intros Hxv. apply Hnv. apply Hvis1. left. exact Hxv.
    + intros x. rewrite Hvis2, Hvis1, elem_of_app. tauto.
    + intros d Hd. apply elem_of_cons in Hd as [-> | Hd].
      * rewrite Hs2. apply elem_of_app. left. exact Hin1.
      * apply Hcs2. exact Hd.
Qed.

Lemma build_topological_sort_spec (fuel : nat) :
  forall i, i < fuel -> visit_ok h (build_topological_sort fuel h) i.
Proof.
  induction fuel as [|fuel IH]; intros i Hi; [lia|].
  intros st Hinv Hprog. simpl.
  destruct (bool_decide (i ∈ visited st)) eqn:Hvis.
  - apply bool_decide_eq_true in Hvis.
    exists st. split; [reflexivity|]. split; [exact Hinv|].
    split; [apply grows_refl|].
    destruct (Hprog i Hvis) as [?|?]; [assumption | lia].
  - apply bool_decide_eq_false in Hvis.
    destruct Hinv as (Hnd & Hsub & Hof).
    destruct (for_each_spec (build_topological_sort fuel h) i
                (fun c Hc => IH c ltac:(lia))
                (previous_of h i)
                (mkState (i :: visited st) (topological_sorted st)))
      as (st2 & new & Hf & (Hnd2 & Hsub2 & Hof2) & Hs2 & Hn2 & Hvis2 & Hcs2).
    { auto. }
    { split; [exact Hnd|]. split; [|exact Hof].
      simpl. intros x Hx. right. apply Hsub. exact Hx. }
    { simpl. intros x Hx. apply elem_of_cons in Hx as [-> | Hx].
      - right. lia.
      - destruct (Hprog x Hx) as [?|?]; [left; assumption | right; lia]. }
    simpl in *. rewrite Hf.
    eexists. split; [reflexivity|]. simpl.
    assert (Hi_new : i ∉ topological_sorted st2).
    { rewrite Hs2. intros Hx. apply elem_of_app in Hx as [Hx | Hx].
      - apply Hvis, Hsub, Hx.
      - destruct (Hn2 i Hx) as (Hlt & _). lia. }
    split; [split; [|split]|split].
    + apply NoDup_app. split; [exact Hnd2|]. split; [|apply NoDup_singleton].
      intros x Hx Hxi. apply list_elem_of_singleton in Hxi as ->. auto.
    + intros x Hx. apply elem_of_app in Hx as [Hx | Hx].
      * apply Hsub2. exact Hx.
      * apply list_elem_of_singleton in Hx as ->. apply Hvis2. left. left.
    + apply operands_first_snoc; assumption.
    + exists (new ++ [i]). simpl.
      split; [rewrite Hs2, app_assoc; reflexivity|]. split.
      * intros x Hx. apply elem_of_app in Hx as [Hx | Hx].
        -- destruct (Hn2 x Hx) as (Hlt & Hr & Hnv).
           split; [lia|]. split; [exact Hr|].
           intros Hxv. apply Hnv. right. exact Hxv.
        -- apply list_elem_of_singleton in Hx as ->.
           split; [lia|]. split; [apply reach_root | exact Hvis].
      * intros x.
        rewrite Hvis2, elem_of_app, elem_of_cons, list_elem_of_singleton.
        tauto.
    + apply elem_of_app. right. left.
Qed.
End Visit.

(** ** Construction keeps the store well formed *)

Lemma lookup_total_beyond (h : heap) (i : addr) :
  length h <= i -> h !!! i = mkNode 0 tag_empty 0 lambda_None [].
Proof.
  intros Hi. rewrite list_lookup_total_alt, (lookup_ge_None_2 h i Hi).
  reflexivity.
Qed.

Lemma wf_nil : wf [].
Proof.
  intros i. unfold previous_of, backward_of.
  rewrite lookup_total_beyond by (simpl; lia). simpl.
  split; [intros c Hc; inversion Hc | exact I].
Qed.

Lemma wf_snoc (h : heap) (n : Node) :
  wf h ->
  (forall c, c ∈ _previous n -> c < length h) ->
  wf_closure (length h) (_backward n) ->
  wf (h ++ [n]).
Proof.
  intros Hwf Hprev Hclo i. unfold previous_of, backward_of.
  destruct (lt_eq_lt_dec i (length h)) as [[Hlt | ->] | Hgt].
  - rewrite lookup_total_old by exact Hlt. apply Hwf.
  - rewrite lookup_total_new. split; assumption.
  - rewrite lookup_total_beyond by (rewrite length_app; simpl; lia).
    simpl. split; [intros c Hc; inversion Hc | exact I].
Qed.

Section Construction.

Hypothesis Hset : py_set_spec rt.

Lemma py_set_elem (t : list addr) (x : addr) : x ∈ py_set t <-> x ∈ t.
Proof. apply Hset. Qed.

Lemma py_set_NoDup (t : list addr) : NoDup (py_set t).
Proof. apply Hset. Qed.

Lemma py_set_nil : py_set [] = [].
Proof.
  apply elem_of_nil_inv. intros x Hx.
  apply (proj1 (py_set_elem [] x)) in Hx. inversion Hx.
Qed.

Lemma wf_new_object (h : heap) (x : Q) (t : list addr) (tag : op_tag)
    (f : closure) :
  wf h ->
  (forall c, c ∈ t -> c < length h) ->
  wf_closure (length h) f ->
  wf (h ++ [mkNode x tag 0 f (py_set t)]).
Proof.
  intros Hwf Ht Hf. apply wf_snoc; simpl; [exact Hwf | | exact Hf].
  intros c Hc. apply Ht, py_set_elem, Hc.
Qed.

Lemma preserves_bind {A B} (liveA : heap -> A -> Prop)
    (liveB : heap -> B -> Prop) (c : M A) (k : A -> M B) (h : heap) :
  preserves liveA c h ->
  (forall a h1, c h = Ok (a, h1) -> preserves liveB (k a) h1) ->
  preserves liveB (bind c k) h.
Proof.
  intros Hc Hk r h'. unfold bind.
  destruct (c h) as [[a h1]|e] eqn:E; [|discriminate].
  intros Hr. destruct (Hc a h1 E) as (Hwf1 & Hpre1 & _).
  destruct (Hk a h1 eq_refl r h' Hr) as (Hwf' & Hpre' & Hlive).
  split; [exact Hwf'|]. split; [|exact Hlive].
  etransitivity; eassumption.
Qed.

Lemma preserves_returning_Node (c : M addr) (h : heap) :
  preserves live_addr c h -> preserves live (returning_Node c) h.
Proof.
  intros Hc r h'. unfold returning_Node, bind, ret.
  destruct (c h) as [[a h1]|e] eqn:E; [|discriminate].
  intros [= <- <-]. apply (Hc a h1 E).
Qed.

Lemma prefix_snoc (h : heap) (n : Node) : h `prefix_of` h ++ [n].
Proof. exists [n]. reflexivity. Qed.

Lemma prefix_snoc2 (h : heap) (n m : Node) : h `prefix_of` (h ++ [n]) ++ [m].
Proof. exists [n; m]. rewrite <- app_assoc. reflexivity. Qed.

Lemma live_weaken (h h' : heap) (v : value) :
  h `prefix_of` h' -> live h v -> live h' v.
Proof.
  intros Hp. apply prefix_length in Hp. destruct v; simpl; [auto | lia].
Qed.

Ltac new_object :=
  apply wf_new_object; simpl;
  [ try assumption
  | intros ? ?Hc;
    repeat (apply elem_of_cons in Hc as [-> | Hc]); [ .. | inversion Hc ];
    rewrite ?length_app; simpl; lia
  | rewrite ?length_app; simpl; repeat split; lia ].

Lemma __add___Num (self : addr) (q : Q) (h : heap) :
  __add__ self (VNum q) h =
  __add__ self (VNode (length h))
    (h ++ [mkNode q tag_empty 0 lambda_None (py_set [])]).
Proof. reflexivity. Qed.

Lemma __mul___Num (self : addr) (q : Q) (h : heap) :
  __mul__ self (VNum q) h =
  __mul__ self (VNode (length h))
    (h ++ [mkNode q tag_empty 0 lambda_None (py_set [])]).
Proof. reflexivity. Qed.

Lemma preserves_Node_init (x : Q) (h : heap) :
  wf h -> preserves live_addr (Node_init x [] tag_empty) h.
Proof.
  intros Hwf r h' [= <- <-].
  split; [new_object|]. split; [apply prefix_snoc|].
  unfold live_addr. rewrite length_app. simpl. lia.
Qed.

Lemma preserves___add__ (self : addr) (b : value) (h : heap) :
  wf h -> self < length h -> live h b ->
  preserves live_addr (__add__ self b) h.
Proof.
  intros Hwf Hself Hb r h'. destruct b as [q | b]; simpl in Hb.
  - rewrite __add___Num, __add___Node. intros [= <- <-].
    split; [new_object; new_object|]. split; [apply prefix_snoc2|].
    unfold live_addr. rewrite !length_app. simpl. lia.
  - rewrite __add___Node. intros [= <- <-].
    split; [new_object|]. split; [apply prefix_snoc|].
    unfold live_addr. rewrite !length_app. simpl. lia.
Qed.

Lemma preserves___mul__ (self : addr) (b : value) (h : heap) :
  wf h -> self < length h -> live h b ->
  preserves live_addr (__mul__ self b) h.
Proof.
  intros Hwf Hself Hb r h'. destruct b as [q | b]; simpl in Hb.
  - rewrite __mul___Num, __mul___Node. intros [= <- <-].
    split; [new_object; new_object|]. split; [apply prefix_snoc2|].
    unfold live_addr. rewrite !length_app. simpl. lia.
  - rewrite __mul___Node. intros [= <- <-].
    split; [new_object|]. split; [apply prefix_snoc|].
    unfold live_addr. rewrite !length_app. simpl. lia.
Qed.

Lemma preserves__pow__ (self : addr) (b : value) (h : heap) :
  wf h -> self < length h ->
  preserves live_addr (_pow__ self b) h.
Proof.
  intros Hwf Hself r h'. destruct b as [q | b]; [|discriminate].
  rewrite _pow___Num. intros [= <- <-].
  split; [new_object|]. split; [apply prefix_snoc|].
  unfold live_addr. rewrite !length_app. simpl. lia.
Qed.

Lemma preserves_relu (self : addr) (h : heap) :
  wf h -> self < length h -> preserves live_addr (relu self) h.
Proof.
  intros Hwf Hself r h'. rewrite relu_eq. intros [= <- <-].
  split; [new_object|]. split; [apply prefix_snoc|].
  unfold live_addr. rewrite !length_app. simpl. lia.
Qed.

Lemma preserves_sigmoid (self : addr) (h : heap) :
  wf h -> self < length h -> preserves live_addr (sigmoid self) h.
Proof.
  intros Hwf Hself r h'. rewrite sigmoid_eq. intros [= <- <-].
  split; [new_object|]. split; [apply prefix_snoc|].
  unfold live_addr. rewrite !length_app. simpl. lia.
Qed.

Lemma preserves_ret_Num (q : Q) (h : heap) :
  wf h -> preserves live (ret (VNum q)) h.
Proof.
  intros Hwf r h' [= <- <-].
  split; [exact Hwf|]. split; [reflexivity | exact I].
Qed.

Lemma preserves_raise {A} (liveA : heap -> A -> Prop) (e : exn) (h : heap) :
  preserves liveA (raise e) h.
Proof. intros r h' Hr. discriminate. Qed.

Lemma py_add_Node_l (a : addr) (y : value) :
  py_add (VNode a) y = returning_Node (__add__ a y).
Proof. reflexivity. Qed.

Lemma py_add_Num_Node (p : Q) (b : addr) :
  py_add (VNum p) (VNode b) = returning_Node (__radd__ b (VNum p)).
Proof. reflexivity. Qed.

Lemma py_mul_Node_l (a : addr) (y : value) :
  py_mul (VNode a) y = returning_Node (__mul__ a y).
Proof. reflexivity. Qed.

Lemma py_mul_Num_Node (p : Q) (b : addr) :
  py_mul (VNum p) (VNode b) = returning_Node (__rmul__ b (VNum p)).
Proof. reflexivity. Qed.

Lemma py_neg_Node (a : addr) : py_neg (VNode a) = returning_Node (__neg__ a).
Proof. reflexivity. Qed.

Lemma py_pow_Node_l (a : addr) (y : value) :
  py_pow (VNode a) y = raise TypeError.
Proof. reflexivity. Qed.

Lemma py_pow_Num_Node (p : Q) (b : addr) :
  py_pow (VNum p) (VNode b) = raise TypeError.
Proof. reflexivity. Qed.

Lemma preserves_py_add (x y : value) (h : heap) :
  wf h -> live h x -> live h y -> preserves live (py_add x y) h.
Proof.
  intros Hwf Hx Hy. destruct x as [p | a].
  - destruct y as [q | b].
    + apply preserves_ret_Num, Hwf.
    + rewrite py_add_Num_Node. apply preserves_returning_Node.
      apply preserves___add__; assumption.
  - rewrite py_add_Node_l. apply preserves_returning_Node.
    apply preserves___add__; assumption.
Qed.

Lemma preserves_py_mul (x y : value) (h : heap) :
  wf h -> live h x -> live h y -> preserves live (py_mul x y) h.
Proof.
  intros Hwf Hx Hy. destruct x as [p | a].
  - destruct y as [q | b].
    + apply preserves_ret_Num, Hwf.
    + rewrite py_mul_Num_Node. apply preserves_returning_Node.
      apply preserves___mul__; assumption.
  - rewrite py_mul_Node_l. apply preserves_returning_Node.
    apply preserves___mul__; assumption.
Qed.

Lemma preserves_py_neg (x : value) (h : heap) :
  wf h -> live h x -> preserves live (py_neg x) h.
Proof.
  intros Hwf Hx. destruct x as [p | a].
  - apply preserves_ret_Num, Hwf.
  - rewrite py_neg_Node. apply preserves_returning_Node.
    apply preserves___mul__; [assumption | assumption | exact I].
Qed.

Lemma preserves_py_pow (x y : value) (h : heap) :
  wf h -> preserves live (py_pow x y) h.
Proof.
  intros Hwf. destruct x as [p | a].
  - destruct y as [q | b].
    + apply preserves_ret_Num, Hwf.
    + rewrite py_pow_Num_Node. apply preserves_raise.
  - rewrite py_pow_Node_l. apply preserves_raise.
Qed.

(** Every documented operation keeps the store well formed and only
    appends objects to it. *)
Lemma preserves_run_call (c : call) (h : heap) :
  wf h -> call_live h c -> preserves live (run_call c) h.
Proof.
  intros Hwf Hlive.
  destruct c as [x | self b | self b | self b | self | self b | self b
                | self b | self b | self b | self b | self | self];
    simpl in Hlive; simpl run_call;
    try match type of Hlive with _ /\ _ => destruct Hlive as [Hself Hb] end.
  - apply preserves_returning_Node, preserves_Node_init, Hwf.
  - apply preserves_returning_Node, preserves___add__; assumption.
  - apply preserves_returning_Node, preserves___mul__; assumption.
  - apply preserves_returning_Node, preserves__pow__; assumption.
  - apply preserves_returning_Node, preserves___mul__;
      [assumption | exact Hlive | exact I].
  - apply preserves_returning_Node, preserves___add__; assumption.
  - apply preserves_returning_Node, preserves___mul__; assumption.
  - eapply preserves_bind; [apply preserves_py_neg; assumption|].
    intros nb h1 E. destruct (preserves_py_neg b h Hwf Hb nb h1 E)
      as (Hwf1 & Hp1 & Hnb).
    apply preserves_py_add; [assumption | | assumption].
    apply (live_weaken h h1 (VNode self) Hp1 Hself).
  - eapply preserves_bind;
      [apply (preserves_py_neg (VNode self)); assumption|].
    intros ns h1 E.
    destruct (preserves_py_neg (VNode self) h Hwf Hself ns h1 E)
      as (Hwf1 & Hp1 & Hns).
    apply preserves_py_add; [assumption | | assumption].
    apply (live_weaken h h1 b Hp1 Hb).
  - eapply preserves_bind; [apply preserves_py_pow; assumption|].
    intros p h1 E. destruct (preserves_py_pow b (VNum (-1)) h Hwf p h1 E)
      as (Hwf1 & Hp1 & Hlp).
    apply preserves_py_mul; [assumption | | assumption].
    apply (live_weaken h h1 (VNode self) Hp1 Hself).
  - eapply preserves_bind; [apply preserves_py_pow; assumption|].
    intros p h1 E.
    destruct (preserves_py_pow (VNode self) (VNum (-1)) h Hwf p h1 E)
      as (Hwf1 & Hp1 & Hlp).
    apply preserves_py_mul; [assumption | | assumption].
    apply (live_weaken h h1 b Hp1 Hb).
  - apply preserves_returning_Node, preserves_relu; assumption.
  - apply preserves_returning_Node, preserves_sigmoid; assumption.
Qed.

(** *** Backward propagation changes gradients only *)

Lemma same_graph_refl (h : heap) : same_graph h h.
Proof. split; [reflexivity|]. intros i. repeat split. Qed.

Lemma same_graph_trans (h1 h2 h3 : heap) :
  same_graph h1 h2 -> same_graph h2 h3 -> same_graph h1 h3.
Proof.
  intros [L12 F12] [L23 F23]. split; [congruence|].
  intros i. destruct (F12 i) as (A1 & B1 & C1 & D1).
  destruct (F23 i) as (A2 & B2 & C2 & D2).
  repeat split; congruence.
Qed.

Lemma same_graph_alter_gradient (g : Q -> Q) (a : addr) (h : heap) :
  same_graph h (alter (fun n => set_gradient (g (gradient n)) n) a h).
Proof.
  split; [apply length_alter|]. intros i.
  unfold scalar_of, backward_of, previous_of.
  rewrite list_lookup_total_alter.
  case_decide as H; [destruct H as [-> _]|]; repeat split.
Qed.

Lemma same_graph_add_gradient (a : addr) (d : Q) (h : heap) :
  same_graph h (add_gradient a d h).
Proof. apply (same_graph_alter_gradient (fun g => (g + d)%Q)). Qed.

Lemma same_graph_seed (a : addr) (h : heap) :
  same_graph h (alter (set_gradient 1) a h).
Proof. apply (same_graph_alter_gradient (fun _ => 1%Q)). Qed.

Lemma same_graph_call_backward (f : closure) (h : heap) :
  same_graph h (call_backward f h).
Proof.
  destruct f; simpl;
    [ apply same_graph_refl
    | eapply same_graph_trans; apply same_graph_add_gradient
    | eapply same_graph_trans; apply same_graph_add_gradient
    | apply same_graph_add_gradient ..].
Qed.

Lemma same_graph_sweep (l : list addr) (h : heap) :
  same_graph h (sweep h l).
Proof.
  revert h. induction l as [|n l IH]; intros h; unfold sweep; simpl.
  - apply same_graph_refl.
  - eapply same_graph_trans; [apply same_graph_call_backward | apply IH].
Qed.

Lemma same_graph_propagation_phase (self : addr) (order : list addr)
    (h : heap) :
  same_graph h (propagation_phase self order h).
Proof.
  unfold propagation_phase.
  eapply same_graph_trans; [apply same_graph_seed | apply same_graph_sweep].
Qed.

Lemma same_graph_backward_propagation (root : addr) (h h' : heap) :
  backward_propagation root h = Some h' -> same_graph h h'.
Proof.
  unfold backward_propagation.
  destruct (ordering_phase h root) as [order|]; [|discriminate].
  intros [= <-]. apply same_graph_propagation_phase.
Qed.

Lemma same_graph_wf (h h' : heap) : same_graph h h' -> wf h -> wf h'.
Proof.
  intros [_ F] Hwf i. destruct (F i) as (_ & _ & -> & ->). apply Hwf.
Qed.

Lemma same_graph_clear_gradient (parameters : list addr) (h : heap) :
  same_graph h (clear_gradient parameters h).
Proof.
  unfold clear_gradient. revert h.
  induction parameters as [|p l IH]; intros h; simpl.
  - apply same_graph_refl.
  - eapply same_graph_trans; [|apply IH].
    apply (same_graph_alter_gradient (fun _ => 0%Q)).
Qed.

Lemma constructed_wf (h : heap) : constructed h -> wf h.
Proof.
  induction 1 as [| h c v h' _ IH Hlive Hrun | h root h' _ IH Hroot Hbp
                 | h parameters _ IH].
  - apply wf_nil.
  - apply (preserves_run_call c h IH Hlive v h' Hrun).
  - eapply same_graph_wf; [|exact IH].
    eapply same_graph_backward_propagation. exact Hbp.
  - eapply same_graph_wf; [apply same_graph_clear_gradient | exact IH].
Qed.
End Construction.

(** ** The backward scheduler *)

Lemma ordering_phase_root_last (h : heap) (root : addr) :
  wf h -> root < length h ->
  exists rest,
    ordering_phase h root = Some (rest ++ [root]) /\
    NoDup (rest ++ [root]) /\
    operands_first h (rest ++ [root]) /\
    (forall n, n ∈ rest -> n < root /\ reachable h root n).
Proof.
  intros Hwf Hroot. unfold ordering_phase.
  destruct (length h) as [|fuel] eqn:Hlen; [lia|].
  assert (Hdec : forall j c, c ∈ previous_of h j -> c < j)
    by (intros j; apply Hwf).
  destruct (for_each_spec h Hdec (build_topological_sort fuel h) root
              (fun c Hc => build_topological_sort_spec h Hdec fuel c
                             ltac:(lia))
              (previous_of h root) (mkState [root] []))
    as (st2 & new & Hf & (Hnd2 & _ & Hof2) & Hs2 & Hn2 & _ & Hcs2).
  { auto. }
  { split; [apply NoDup_nil; exact I|].
    split; [intros x Hx; inversion Hx|].
    intros k n Hk. inversion Hk. }
  { simpl. intros x Hx. apply list_elem_of_singleton in Hx as ->.
    right. lia. }
  simpl in Hs2. simpl. rewrite Hf. simpl. rewrite Hs2.
  exists new. split; [reflexivity|]. rewrite Hs2 in *.
  split; [|split].
  - apply NoDup_app. split; [exact Hnd2|]. split; [|apply NoDup_singleton].
    intros x Hx Hxr. apply list_elem_of_singleton in Hxr as ->.
    destruct (Hn2 root Hx) as (Hlt & _). lia.
  - apply operands_first_snoc; assumption.
  - intros n Hn. destruct (Hn2 n Hn) as (Hlt & Hr & _). split; assumption.
Qed.

Lemma sweep_cons (x : addr) (l : list addr) (h : heap) :
  sweep h (x :: l) = sweep (call_backward (backward_of h x) h) l.
Proof. reflexivity. Qed.

Lemma propagation_phase_root_first (r : addr) (rest : list addr) (h : heap) :
  propagation_phase r (rest ++ [r]) h =
  sweep (call_backward (backward_of h r) (alter (set_gradient 1) r h))
        (reverse rest).
Proof.
  unfold propagation_phase. rewrite reverse_snoc, sweep_cons.
  rewrite backward_of_seed. reflexivity.
Qed.

Lemma sweep_no_closure (l : list addr) (h : heap) :
  (forall x, x ∈ l -> backward_of h x = lambda_None) ->
  sweep h l = h.
Proof.
  induction l as [|x l IH]; intros Hl; [reflexivity|].
  rewrite sweep_cons, (Hl x) by left. simpl. apply IH.
  intros y Hy. apply Hl. right. exact Hy.
Qed.

(** A closure stored at [n] only adds to gradients of objects older than
    [n]. *)
Lemma call_backward_keeps_gradient (f : closure) (n a : addr) (h : heap) :
  wf_closure n f -> n <= a ->
  gradient_of (call_backward f h) a = gradient_of h a.
Proof.
  intros Hf Hna. destruct f; simpl in *;
    rewrite ?gradient_of_add_gradient_ne by lia; reflexivity.
Qed.

Lemma sweep_keeps_gradient (l : list addr) (a : addr) (h : heap) :
  wf h -> (forall x, x ∈ l -> x <= a) ->
  gradient_of (sweep h l) a = gradient_of h a.
Proof.
  revert h. induction l as [|x l IH]; intros h Hwf Hl; [reflexivity|].
  rewrite sweep_cons, IH.
  - apply (call_backward_keeps_gradient _ x); [apply Hwf | apply Hl; left].
  - eapply same_graph_wf; [apply same_graph_call_backward | exact Hwf].
  - intros y Hy. apply Hl. right. exact Hy.
Qed.

Lemma reachable_le (h : heap) (root n : addr) :
  wf h -> reachable h root n -> n <= root.
Proof.
  intros Hwf. induction 1 as [|n c _ IH Hc]; [lia|].
  apply (proj1 (Hwf n)) in Hc. lia.
Qed.

Lemma reachable_inv (h : heap) (root n : addr) :
  reachable h root n ->
  n = root \/ exists c, c ∈ previous_of h root /\ reachable h c n.
Proof.
  induction 1 as [|n c Hr IH Hc]; [left; reflexivity|].
  right. destruct IH as [-> | (d & Hd & Hdn)].
  - exists c. split; [exact Hc | apply reach_root].
  - exists d. split; [exact Hd|]. eapply reach_operand; eassumption.
Qed.

(** Backward propagation from [r] returns; on an object no older than
    every operand of [r], the gradient it leaves is the one left by the
    closure of [r] alone, run on the seeded store. *)
Lemma backward_propagation_operand (h : heap) (r : addr) :
  wf h -> r < length h ->
  exists h',
    backward_propagation r h = Some h' /\
    forall a,
      (forall c, c ∈ previous_of h r -> c <= a) ->
      gradient_of h' a =
      gradient_of (call_backward (backward_of h r)
                     (alter (set_gradient 1) r h)) a.
Proof.
  intros Hwf Hr.
  destruct (ordering_phase_root_last h r Hwf Hr)
    as (rest & Hrun & _ & _ & Hrest).
  unfold backward_propagation. rewrite Hrun. eexists. split; [reflexivity|].
  intros a Ha. rewrite propagation_phase_root_first.
  apply sweep_keeps_gradient.
  - eapply same_graph_wf; [|exact Hwf].
    eapply same_graph_trans;
      [apply same_graph_seed | apply same_graph_call_backward].
  - intros x Hx. rewrite elem_of_reverse in Hx.
    destruct (Hrest x Hx) as (Hlt & Hreach).
    apply reachable_inv in Hreach as [-> | (c & Hc & Hcx)]; [lia|].
    apply (reachable_le h c x Hwf) in Hcx. specialize (Ha c Hc). lia.
Qed.

(** When every operand of [r] is a leaf, the closure of [r] is the only
    one that does anything. *)
Lemma backward_propagation_over_leaves (h : heap) (r : addr) :
  wf h -> r < length h ->
  (forall c, c ∈ previous_of h r -> leaf h c) ->
  backward_propagation r h =
  Some (call_backward (backward_of h r) (alter (set_gradient 1) r h)).
Proof.
  intros Hwf Hr Hleaf.
  destruct (ordering_phase_root_last h r Hwf Hr)
    as (rest & Hrun & _ & _ & Hrest).
  unfold backward_propagation. rewrite Hrun.
  rewrite propagation_phase_root_first. f_equal.
  apply sweep_no_closure. intros x Hx. rewrite elem_of_reverse in Hx.
  destruct (Hrest x Hx) as (Hlt & Hreach).
  assert (Hsg : same_graph h (call_backward (backward_of h r)
                                (alter (set_gradient 1) r h))).
  { eapply same_graph_trans;
      [apply same_graph_seed | apply same_graph_call_backward]. }
  destruct Hsg as [_ Hsg]. destruct (Hsg x) as (_ & _ & -> & _).
  apply reachable_inv in Hreach as [-> | (c & Hc & Hcx)]; [lia|].
  destruct (Hleaf c Hc) as (_ & Hprev & Hbw).
  apply reachable_inv in Hcx as [-> | (d & Hd & _)]; [exact Hbw|].
  rewrite Hprev in Hd. inversion Hd.
Qed.

Section Scheduler.

Hypothesis Hset : py_set_spec rt.

(** C4: in every store built by the documented operations, the ordering
    phase from any root returns a sequence without repetition in which
    every operand of a listed node occurs at a strictly earlier position,
    and which lists exactly the nodes reachable from the root (each once,
    however many paths lead to it). *)
Theorem ordering_phase_topological (h : heap) (root : addr) :
  constructed h -> root < length h ->
  exists order,
    ordering_phase h root = Some order /\
    NoDup order /\
    (forall n c, n ∈ order -> c ∈ previous_of h n ->
                 strictly_before order c n) /\
    (forall n, n ∈ order <-> reachable h root n).
Proof.
  intros Hcons Hroot.
  destruct (ordering_phase_root_last h root (constructed_wf Hset h Hcons)
              Hroot) as (rest & Hrun & Hnd & Hof & Hreach).
  assert (Hin : root ∈ rest ++ [root])
    by (apply elem_of_app; right; left).
  exists (rest ++ [root]).
  split; [exact Hrun|]. split; [exact Hnd|]. split.
  - intros n c Hn Hc. apply list_elem_of_lookup_1 in Hn as [k Hk].
    destruct (Hof k n Hk c Hc) as (j & Hjk & Hj).
    exists j, k. auto.
  - intros n. split.
    { intros Hn. apply elem_of_app in Hn as [Hn | Hn]; [apply Hreach, Hn|].
      apply list_elem_of_singleton in Hn as ->. apply reach_root. }
    induction 1 as [|n c _ IH Hc]; [exact Hin|].
    apply list_elem_of_lookup_1 in IH as [k Hk].
    destruct (Hof k n Hk c Hc) as (j & _ & Hj).
    eapply list_elem_of_lookup_2, Hj.
Qed.

(** C9: backward propagation, whenever it returns, leaves the length of the
    store and every field other than [gradient] of every object unchanged
    ([scalar] in particular); on a store built by the documented operations
    it does return; and the operations themselves only append objects, so
    no existing [scalar] or [gradient] changes outside backward
    propagation. *)
Theorem backward_propagation_changes_gradients_only :
  (forall (h : heap) (root : addr) (h' : heap),
      backward_propagation root h = Some h' ->
      length h' = length h /\
      forall i, scalar_of h' i = scalar_of h i /\
                _math_operator (h' !!! i) = _math_operator (h !!! i) /\
                backward_of h' i = backward_of h i /\
                previous_of h' i = previous_of h i) /\
  (forall (h : heap) (root : addr),
      constructed h -> root < length h ->
      exists h', backward_propagation root h = Some h') /\
  (forall (h : heap) (c : call) (v : value) (h' : heap),
      constructed h -> call_live h c -> run_call c h = Ok (v, h') ->
      forall i n, h !! i = Some n -> h' !! i = Some n).
Proof.
  split; [|split].
  - intros h root h' Hbp. apply (same_graph_backward_propagation _ _ _ Hbp).
  - intros h root Hcons Hroot.
    destruct (ordering_phase_root_last h root (constructed_wf Hset h Hcons)
                Hroot) as (rest & Hrun & _).
    unfold backward_propagation. rewrite Hrun. eexists. reflexivity.
  - intros h c v h' Hcons Hlive Hrun i n Hi.
    destruct (preserves_run_call Hset c h (constructed_wf Hset h Hcons)
                Hlive v h' Hrun) as (_ & [k ->] & _).
    apply lookup_app_l_Some. exact Hi.
Qed.
End Scheduler.

(** ** Reading a store that was appended to *)

Lemma scalar_of_old (h k : heap) (x : addr) :
  x < length h -> scalar_of (h ++ k) x = scalar_of h x.
Proof. intros Hx. unfold scalar_of. rewrite lookup_total_old; auto. Qed.

Lemma gradient_of_old (h k : heap) (x : addr) :
  x < length h -> gradient_of (h ++ k) x = gradient_of h x.
Proof. intros Hx. unfold gradient_of. rewrite lookup_total_old; auto. Qed.

Lemma previous_of_old (h k : heap) (x : addr) :
  x < length h -> previous_of (h ++ k) x = previous_of h x.
Proof. intros Hx. unfold previous_of. rewrite lookup_total_old; auto. Qed.

Lemma backward_of_old (h k : heap) (x : addr) :
  x < length h -> backward_of (h ++ k) x = backward_of h x.
Proof. intros Hx. unfold backward_of. rewrite lookup_total_old; auto. Qed.

Lemma scalar_of_new (h : heap) (n : Node) :
  scalar_of (h ++ [n]) (length h) = scalar n.
Proof. unfold scalar_of. rewrite lookup_total_new. reflexivity. Qed.

Lemma gradient_of_new (h : heap) (n : Node) :
  gradient_of (h ++ [n]) (length h) = gradient n.
Proof. unfold gradient_of. rewrite lookup_total_new. reflexivity. Qed.

Lemma previous_of_new (h : heap) (n : Node) :
  previous_of (h ++ [n]) (length h) = _previous n.
Proof. unfold previous_of. rewrite lookup_total_new. reflexivity. Qed.

Lemma backward_of_new (h : heap) (n : Node) :
  backward_of (h ++ [n]) (length h) = _backward n.
Proof. unfold backward_of. rewrite lookup_total_new. reflexivity. Qed.

Lemma leaf_old (h k : heap) (c : addr) : leaf h c -> leaf (h ++ k) c.
Proof.
  intros (Hc & Hp & Hb). split; [rewrite length_app; lia|].
  rewrite previous_of_old, backward_of_old by exact Hc. split; assumption.
Qed.

Ltac store_length :=
  rewrite ?length_add_gradient, ?length_seed, ?length_app; simpl; lia.

Ltac read_store :=
  repeat first
    [ rewrite scalar_of_add_gradient
    | rewrite scalar_of_seed
    | rewrite backward_of_add_gradient
    | rewrite backward_of_seed
    | rewrite previous_of_add_gradient
    | rewrite previous_of_seed
    | rewrite gradient_of_add_gradient_eq by store_length
    | rewrite gradient_of_add_gradient_ne by lia
    | rewrite gradient_of_seed_eq by store_length
    | rewrite gradient_of_seed_ne by lia
    | rewrite scalar_of_new
    | rewrite gradient_of_new
    | rewrite previous_of_new
    | rewrite backward_of_new
    | rewrite scalar_of_old by lia
    | rewrite gradient_of_old by lia
    | rewrite previous_of_old by lia
    | rewrite backward_of_old by lia ];
  simpl scalar; simpl gradient; simpl _previous; simpl _backward.

(** ** The local derivative rules *)

Section Rules.

Hypothesis Hset : py_set_spec rt.

(** C6: for two nodes [a], [b] of a store built by the documented
    operations, [a * b] returns [r] with [r.scalar = a.scalar * b.scalar];
    the closure of [r] adds [b.scalar * r.gradient] to [a.gradient] and then
    [a.scalar * r.gradient] to [b.gradient]; and when [a], [b] are distinct
    leaves with gradient 0, backward propagation from [r] leaves
    [a.gradient == b.scalar] and [b.gradient == a.scalar], so 4 and 3 for
    scalars 3 and 4. *)
Theorem multiply_rule (h : heap) (a b : addr) :
  constructed h -> a < length h -> b < length h ->
  exists r h',
    __mul__ a (VNode b) h = Ok (r, h') /\
    scalar_of h' r = (scalar_of h a * scalar_of h b)%Q /\
    (forall k : heap,
        call_backward (backward_of h' r) k =
        add_gradient b (scalar_of k a * gradient_of k r)
          (add_gradient a (scalar_of k b * gradient_of k r) k)) /\
    (leaf h a -> leaf h b -> a <> b ->
     gradient_of h a == 0 -> gradient_of h b == 0 ->
     exists h'',
       backward_propagation r h' = Some h'' /\
       gradient_of h'' a == scalar_of h b /\
       gradient_of h'' b == scalar_of h a /\
       (scalar_of h a == 3 -> scalar_of h b == 4 ->
        gradient_of h'' a == 4 /\ gradient_of h'' b == 3)).
Proof.
  intros Hcons Ha Hb.
  pose proof (constructed_wf Hset h Hcons) as Hwf.
  eexists _, _. split; [apply __mul___Node|].
  destruct (preserves___mul__ Hset a (VNode b) h Hwf Ha Hb _ _
              (__mul___Node a b h)) as (Hwf' & _ & _).
  set (h' := h ++ [_]) in *.
  split; [subst h'; read_store; reflexivity|].
  split.
  { intros k. subst h'. read_store. simpl. read_store. reflexivity. }
  intros La Lb Hab Hga Hgb.
  rewrite backward_propagation_over_leaves;
    [|exact Hwf'|subst h'; store_length|].
  - eexists. split; [reflexivity|].
    assert (Ea : gradient_of (call_backward (backward_of h' (length h))
                   (alter (set_gradient 1) (length h) h')) a
                 == scalar_of h b).
    { subst h'. read_store. simpl. read_store. rewrite Hga. ring. }
    assert (Eb : gradient_of (call_backward (backward_of h' (length h))
                   (alter (set_gradient 1) (length h) h')) b
                 == scalar_of h a).
    { subst h'. read_store. simpl. read_store. rewrite Hgb. ring. }
    split; [exact Ea|]. split; [exact Eb|].
    intros H3 H4. rewrite Ea, Eb. split; assumption.
  - intros c Hc. subst h'. rewrite previous_of_new in Hc. simpl in Hc.
    apply (proj1 (py_set_elem Hset _ _)) in Hc. apply leaf_old.
    apply elem_of_cons in Hc as [-> | Hc]; [exact La|].
    apply list_elem_of_singleton in Hc as ->. exact Lb.
Qed.

(** C5: the closure of [r = a + b] adds [r.gradient], unchanged, to
    [a.gradient] and then to [b.gradient]; for distinct leaves [a], [b]
    with gradient 0, backward propagation from [r] leaves [a.gradient == 1]
    and [b.gradient == 1]; and for [c = a + a] it leaves [a.gradient == 2],
    the two contributions being summed. *)
Theorem add_rule (h : heap) (a : addr) :
  constructed h -> leaf h a -> gradient_of h a == 0 ->
  (forall b : addr,
      leaf h b -> gradient_of h b == 0 ->
      exists r h',
        __add__ a (VNode b) h = Ok (r, h') /\
        scalar_of h' r = (scalar_of h a + scalar_of h b)%Q /\
        (forall k : heap,
            call_backward (backward_of h' r) k =
            add_gradient b (gradient_of k r)
              (add_gradient a (gradient_of k r) k)) /\
        (a <> b ->
         exists h'',
           backward_propagation r h' = Some h'' /\
           gradient_of h'' a == 1 /\ gradient_of h'' b == 1)) /\
  (exists c h' h'',
      __add__ a (VNode a) h = Ok (c, h') /\
      backward_propagation c h' = Some h'' /\
      gradient_of h'' a == 2).
Proof.
  intros Hcons La Hga.
  pose proof (constructed_wf Hset h Hcons) as Hwf.
  assert (Ha : a < length h) by apply La.
  split.
  - intros b Lb Hgb. assert (Hb : b < length h) by apply Lb.
    eexists _, _. split; [apply __add___Node|].
    destruct (preserves___add__ Hset a (VNode b) h Hwf Ha Hb _ _
                (__add___Node a b h)) as (Hwf' & _ & _).
    set (h' := h ++ [_]) in *.
    split; [subst h'; read_store; reflexivity|].
    split.
    { intros k. subst h'. read_store. simpl. read_store. reflexivity. }
    intros Hab.
    rewrite backward_propagation_over_leaves;
      [|exact Hwf'|subst h'; store_length|].
    + eexists. split; [reflexivity|].
      subst h'. read_store. simpl. read_store.
      rewrite Hga, Hgb. split; reflexivity.
    + intros c Hc. subst h'. rewrite previous_of_new in Hc. simpl in Hc.
      apply (proj1 (py_set_elem Hset _ _)) in Hc. apply leaf_old.
      apply elem_of_cons in Hc as [-> | Hc]; [exact La|].
      apply list_elem_of_singleton in Hc as ->. exact Lb.
  - eexists _, _, _. split; [apply __add___Node|].
    destruct (preserves___add__ Hset a (VNode a) h Hwf Ha Ha _ _
                (__add___Node a a h)) as (Hwf' & _ & _).
    set (h' := h ++ [_]) in *.
    rewrite backward_propagation_over_leaves;
      [|exact Hwf'|subst h'; store_length|].
    + split; [reflexivity|].
      subst h'. read_store. simpl. read_store.
      rewrite Hga. reflexivity.
    + intros c Hc. subst h'. rewrite previous_of_new in Hc. simpl in Hc.
      apply (proj1 (py_set_elem Hset _ _)) in Hc. apply leaf_old.
      apply elem_of_cons in Hc as [-> | Hc]; [exact La|].
      apply list_elem_of_singleton in Hc as ->. exact La.
Qed.

Lemma relu_value (x : Q) : (if Qltb x 0 then 0 else x) == Qmax 0 x.
Proof.
  destruct (Qltb x 0) eqn:E.
  - apply Qltb_lt in E. symmetry. apply Q.max_l. apply Qlt_le_weak, E.
  - symmetry. apply Q.max_r. apply Qnot_lt_le. intros Hlt.
    apply Qltb_lt in Hlt. congruence.
Qed.

Lemma relu_gate (x : Q) :
  Qgtb (if Qltb x 0 then 0 else x) 0 = Qgtb x 0.
Proof.
  destruct (Qltb x 0) eqn:E; [|reflexivity].
  apply Qltb_lt in E. symmetry. apply not_true_iff_false.
  intros H. apply Qgtb_gt in H. apply (Qlt_irrefl 0).
  eapply Qlt_trans; eassumption.
Qed.

(** C7: for every node [a] of a store built by the documented
    operations, [relu(a)] returns [r] with [r.scalar == max(0, a.scalar)];
    the closure of [r] changes no gradient but [a]'s, to which it adds
    [r.gradient] when [r.scalar > 0] and nothing otherwise; and if
    [a.gradient] is 0, backward propagation from [r] leaves
    [a.gradient == 0] when [a.scalar <= 0] (the boundary 0 included) and
    [a.gradient == 1] when [a.scalar > 0]. *)
Theorem relu_rule (h : heap) (a : addr) :
  constructed h -> a < length h ->
  exists r h',
    relu a h = Ok (r, h') /\
    scalar_of h' r == Qmax 0 (scalar_of h a) /\
    (forall k : heap, a < length k ->
        (forall x, x <> a ->
           gradient_of (call_backward (backward_of h' r) k) x
           = gradient_of k x) /\
        ((scalar_of k r > 0)%Q ->
           gradient_of (call_backward (backward_of h' r) k) a
           == gradient_of k a + gradient_of k r) /\
        (~ (scalar_of k r > 0)%Q ->
           gradient_of (call_backward (backward_of h' r) k) a
           == gradient_of k a)) /\
    (gradient_of h a == 0 ->
     exists h'',
       backward_propagation r h' = Some h'' /\
       ((scalar_of h a <= 0)%Q -> gradient_of h'' a == 0) /\
       ((scalar_of h a > 0)%Q -> gradient_of h'' a == 1)).
Proof.
  intros Hcons Ha.
  pose proof (constructed_wf Hset h Hcons) as Hwf.
  eexists _, _. split; [apply relu_eq|].
  destruct (preserves_relu Hset a h Hwf Ha _ _ (relu_eq a h))
    as (Hwf' & _ & _).
  set (h' := h ++ [_]) in *.
  split; [subst h'; read_store; apply relu_value|].
  split.
  { intros k Hk. subst h'. read_store. simpl. split; [|split].
    - intros x Hx. read_store. reflexivity.
    - intros Hpos. read_store.
      rewrite (proj2 (Qgtb_gt _ _) Hpos). simpl. ring.
    - intros Hneg. read_store.
      destruct (Qgtb (scalar_of k (length h)) 0) eqn:E.
      + exfalso. apply Hneg, Qgtb_gt, E.
      + simpl. ring. }
  intros Hga.
  destruct (backward_propagation_operand h' (length h) Hwf')
    as (h'' & Hbp & Hgrad); [subst h'; store_length|].
  exists h''. split; [exact Hbp|].
  assert (Ea : gradient_of h'' a == of_bool (Qgtb (scalar_of h a) 0)).
  { rewrite Hgrad.
    - subst h'. read_store. simpl. read_store.
      rewrite relu_gate, Hga. ring.
    - intros c Hc. subst h'. rewrite previous_of_new in Hc. simpl in Hc.
      apply (proj1 (py_set_elem Hset _ _)) in Hc.
      apply list_elem_of_singleton in Hc as ->. lia. }
  split.
  - intros Hle. rewrite Ea.
    destruct (Qgtb (scalar_of h a) 0) eqn:E; [|reflexivity].
    apply Qgtb_gt in E. exfalso. apply (Qlt_irrefl 0).
    eapply Qlt_le_trans; eassumption.
  - intros Hpos. rewrite Ea, (proj2 (Qgtb_gt _ _) Hpos). reflexivity.
Qed.

Lemma sweep_app (l1 l2 : list addr) (h : heap) :
  sweep h (l1 ++ l2) = sweep (sweep h l1) l2.
Proof. apply foldl_app. Qed.

(** C2 (what the code does): [s = sigmoid(a)] has
    [s.scalar = 1 / (1 + exp(-a.scalar))], but its closure adds
    [s.scalar * (1 - s.scalar)] to [a.gradient] without the factor
    [s.gradient]: after [y = s + s] and backward propagation from [y] the
    upstream gradient [s.gradient] is 2, yet [a.gradient] has grown by
    [s.scalar * (1 - s.scalar)] only. *)
Theorem sigmoid_backward_unscaled (h : heap) (a : addr) :
  constructed h -> a < length h ->
  exists s h1 y h2 h3,
    sigmoid a h = Ok (s, h1) /\
    scalar_of h1 s = (1 / (1 + np_exp (- scalar_of h a)))%Q /\
    (forall k : heap,
        call_backward (backward_of h1 s) k =
        add_gradient a (scalar_of k s * (1 - scalar_of k s)) k) /\
    __add__ s (VNode s) h1 = Ok (y, h2) /\
    backward_propagation y h2 = Some h3 /\
    gradient_of h3 s == 2 /\
    gradient_of h3 a
    == gradient_of h a + scalar_of h1 s * (1 - scalar_of h1 s).
Proof.
  intros Hcons Ha.
  pose proof (constructed_wf Hset h Hcons) as Hwf.
  destruct (preserves_sigmoid Hset a h Hwf Ha _ _ (sigmoid_eq a h))
    as (Hwf1 & _ & _).
  set (ns := mkNode _ tag_Sigmoid _ _ _) in *.
  set (h1 := h ++ [ns]) in *.
  assert (Hs : length h < length h1) by (subst h1; store_length).
  destruct (preserves___add__ Hset (length h) (VNode (length h)) h1 Hwf1
              Hs Hs _ _ (__add___Node _ _ h1)) as (Hwf2 & _ & _).
  set (ny := mkNode _ tag_add _ _ _) in *.
  set (h2 := h1 ++ [ny]) in *.
  assert (Hy : length h1 < length h2) by (subst h2; store_length).
  assert (Hl1 : length h1 = S (length h)) by (subst h1; store_length).
  destruct (ordering_phase_root_last h2 (length h1) Hwf2 Hy)
    as (rest & Hrun & Hnd & Hof & Hrest).
  exists (length h), h1, (length h1), h2.
  eexists. split; [apply sigmoid_eq|].
  split; [subst h1 ns; read_store; reflexivity|].
  split; [intros k; subst h1 ns; read_store; reflexivity|].
  split; [apply __add___Node|].
  unfold backward_propagation. rewrite Hrun.
  split; [reflexivity|].
  rewrite propagation_phase_root_first.
  set (k0 := call_backward _ _).
  assert (Hsg0 : same_graph h2 k0).
  { eapply same_graph_trans;
      [apply same_graph_seed | apply same_graph_call_backward]. }
  assert (Hwf0 : wf k0) by (eapply same_graph_wf; eassumption).
  assert (Hprev_y : previous_of h2 (length h1) = py_set [length h; length h])
    by (subst h2 ny; read_store; reflexivity).
  assert (Hprev_s : previous_of h2 (length h) = py_set [a])
    by (subst h2 h1 ns; read_store; reflexivity).
  (* the sigmoid node is swept exactly once *)
  assert (Hin : length h ∈ reverse rest).
  { rewrite elem_of_reverse.
    destruct (Hof (length rest) (length h1)) with (c := length h)
      as (j & Hj & Hjs).
    - apply list_lookup_middle. reflexivity.
    - rewrite Hprev_y. apply (py_set_elem Hset). left.
    - rewrite lookup_app_l in Hjs by exact Hj.
      eapply list_elem_of_lookup_2, Hjs. }
  apply list_elem_of_split in Hin as (l1 & l2 & Hsplit).
  assert (Hnd' : NoDup (l1 ++ length h :: l2)).
  { rewrite <- Hsplit, reverse_Permutation.
    apply NoDup_app in Hnd. apply Hnd. }
  assert (Hother : forall x, x ∈ l1 ++ l2 -> x <= a).
  { intros x Hx.
    assert (Hxs : x <> length h).
    { intros ->. apply NoDup_app in Hnd' as (_ & Hdisj & Hnd2).
      apply NoDup_cons in Hnd2 as [Hn2 _].
      apply elem_of_app in Hx as [Hx | Hx]; [|contradiction].
      apply (Hdisj _ Hx). left. }
    assert (Hxr : x ∈ rest).
    { rewrite <- elem_of_reverse, Hsplit.
      apply elem_of_app in Hx as [Hx | Hx]; apply elem_of_app;
        [left; exact Hx | right; right; exact Hx]. }
    destruct (Hrest x Hxr) as (Hlt & Hreach).
    apply reachable_inv in Hreach as [-> | (c & Hc & Hcx)]; [lia|].
    rewrite Hprev_y in Hc. apply (proj1 (py_set_elem Hset _ _)) in Hc.
    assert (c = length h) as ->.
    { apply elem_of_cons in Hc as [-> | Hc]; [reflexivity|].
      apply list_elem_of_singleton in Hc. exact Hc. }
    apply reachable_inv in Hcx as [-> | (d & Hd & Hdx)]; [congruence|].
    rewrite Hprev_s in Hd. apply (proj1 (py_set_elem Hset _ _)) in Hd.
    apply list_elem_of_singleton in Hd as ->.
    apply (reachable_le h2 a x Hwf2 Hdx). }
  rewrite Hsplit, sweep_app, sweep_cons.
  set (k1 := sweep k0 l1).
  assert (Hsg1 : same_graph h2 k1).
  { eapply same_graph_trans; [exact Hsg0 | apply same_graph_sweep]. }
  assert (Hwf1' : wf k1) by (eapply same_graph_wf; eassumption).
  assert (Hbw : backward_of k1 (length h) = sigmoid_backward a (length h)).
  { destruct Hsg1 as [_ F]. destruct (F (length h)) as (_ & _ & -> & _).
    subst h2 h1 ns. read_store. reflexivity. }
  assert (Hsc : scalar_of k1 (length h) = scalar_of h1 (length h)).
  { destruct Hsg1 as [_ F]. destruct (F (length h)) as (-> & _).
    subst h2. read_store. reflexivity. }
  assert (Hlen1 : length k1 = length h2) by apply Hsg1.
  assert (Hk0a : gradient_of k0 a = gradient_of h a).
  { subst k0 h2 ny. read_store. simpl. read_store.
    subst h1. read_store. reflexivity. }
  assert (Hk0s : gradient_of k0 (length h) == 2).
  { subst k0 h2 ny. read_store. simpl. read_store.
    subst h1 ns. read_store. reflexivity. }
  assert (Hwfc : wf (call_backward (backward_of k1 (length h)) k1)).
  { eapply same_graph_wf; [apply same_graph_call_backward | exact Hwf1']. }
  split.
  - rewrite sweep_keeps_gradient; [|exact Hwfc|].
    + rewrite Hbw. simpl. rewrite gradient_of_add_gradient_ne by lia.
      subst k1. rewrite sweep_keeps_gradient; [exact Hk0s|exact Hwf0|].
      intros x Hx. enough (x <= a) by lia.
      apply Hother, elem_of_app. left. exact Hx.
    + intros x Hx. enough (x <= a) by lia.
      apply Hother, elem_of_app. right. exact Hx.
  - rewrite sweep_keeps_gradient; [|exact Hwfc|].
    + rewrite Hbw. simpl.
      rewrite gradient_of_add_gradient_eq
        by (rewrite Hlen1; subst h2 h1; store_length).
      rewrite Hsc. subst k1.
      rewrite sweep_keeps_gradient; [rewrite Hk0a; reflexivity|exact Hwf0|].
      intros x Hx. apply Hother, elem_of_app. left. exact Hx.
    + intros x Hx. apply Hother, elem_of_app. right. exact Hx.
Qed.
End Rules.

End Properties.

(** * Further properties *)

(** ** Invariants kept by every operation *)

Section Builder.

Context {rt : Runtime}.
Variable Inv : heap -> Prop.
Hypothesis Inv_leaf : forall (h : heap) (q : Q),
  Inv h -> Inv (h ++ [mkNode q tag_empty 0 lambda_None (py_set [])]).
Hypothesis Inv_add : forall (h : heap) (s b : addr),
  Inv h -> s < length h -> b < length h ->
  Inv (h ++ [mkNode (scalar_of h s + scalar_of h b) tag_add 0
             (add_backward s b (length h)) (py_set [s; b])]).
Hypothesis Inv_mul : forall (h : heap) (s b : addr),
  Inv h -> s < length h -> b < length h ->
  Inv (h ++ [mkNode (scalar_of h s * scalar_of h b) tag_mul 0
             (mul_backward s b (length h)) (py_set [s; b])]).
Hypothesis Inv_pow : forall (h : heap) (s : addr) (p : Q),
  Inv h -> s < length h ->
  Inv (h ++ [mkNode (num_pow (scalar_of h s) p) (tag_pow p) 0
             (pow_backward s p (length h)) (py_set [s])]).
Hypothesis Inv_relu : forall (h : heap) (s : addr),
  Inv h -> s < length h ->
  Inv (h ++ [mkNode (if Qltb (scalar_of h s) 0 then 0 else scalar_of h s)
             tag_ReLU 0 (relu_backward s (length h)) (py_set [s])]).
Hypothesis Inv_sigmoid : forall (h : heap) (s : addr),
  Inv h -> s < length h ->
  Inv (h ++ [mkNode (1 / (1 + np_exp (- scalar_of h s))) tag_Sigmoid 0
             (sigmoid_backward s (length h)) (py_set [s])]).

Lemma keeps_bind {A B} (liveA : heap -> A -> Prop)
    (liveB : heap -> B -> Prop) (c : M A) (k : A -> M B) (h : heap) :
  keeps Inv liveA c h ->
  (forall a h1, c h = Ok (a, h1) -> keeps Inv liveB (k a) h1) ->
  keeps Inv liveB (bind c k) h.
Proof.
  intros Hc Hk r h'. unfold bind.
  destruct (c h) as [[a h1]|e] eqn:E; [|discriminate].
  intros Hr. destruct (Hc a h1 E) as (_ & Hpre1 & _).
  destruct (Hk a h1 eq_refl r h' Hr) as (HI & Hpre' & Hlive).
  split; [exact HI|]. split; [|exact Hlive].
  etransitivity; eassumption.
Qed.

Lemma keeps_returning_Node (c : M addr) (h : heap) :
  keeps Inv live_addr c h -> keeps Inv live (returning_Node c) h.
Proof.
  intros Hc r h'. unfold returning_Node, bind, ret.
  destruct (c h) as [[a h1]|e] eqn:E; [|discriminate].
  intros [= <- <-]. apply (Hc a h1 E).
Qed.

Lemma keeps_ret_Num (q : Q) (h : heap) :
  Inv h -> keeps Inv live (ret (VNum q)) h.
Proof.
  intros HI r h' [= <- <-].
  split; [exact HI|]. split; [reflexivity | exact I].
Qed.

Ltac appended :=
  split; [|split; [first [apply prefix_snoc | apply prefix_snoc2]
                  | unfold live_addr; rewrite !length_app; simpl; lia]].

Lemma keeps_Node_init (x : Q) (h : heap) :
  Inv h -> keeps Inv live_addr (Node_init x [] tag_empty) h.
Proof. intros HI r h' [= <- <-]. appended. apply Inv_leaf, HI. Qed.

Lemma keeps___add__ (self : addr) (b : value) (h : heap) :
  Inv h -> self < length h -> live h b ->
  keeps Inv live_addr (__add__ self b) h.
Proof.
  intros HI Hself Hb r h'. destruct b as [q | b]; simpl in Hb.
  - rewrite __add___Num, __add___Node. intros [= <- <-]. appended.
    apply Inv_add; [apply Inv_leaf, HI | |]; rewrite length_app; simpl; lia.
  - rewrite __add___Node. intros [= <- <-]. appended.
    apply Inv_add; assumption.
Qed.

Lemma keeps___mul__ (self : addr) (b : value) (h : heap) :
  Inv h -> self < length h -> live h b ->
  keeps Inv live_addr (__mul__ self b) h.
Proof.
  intros HI Hself Hb r h'. destruct b as [q | b]; simpl in Hb.
  - rewrite __mul___Num, __mul___Node. intros [= <- <-]. appended.
    apply Inv_mul; [apply Inv_leaf, HI | |]; rewrite length_app; simpl; lia.
  - rewrite __mul___Node. intros [= <- <-]. appended.
    apply Inv_mul; assumption.
Qed.

Lemma keeps__pow__ (self : addr) (b : value) (h : heap) :
  Inv h -> self < length h -> keeps Inv live_addr (_pow__ self b) h.
Proof.
  intros HI Hself r h'. destruct b as [q | b]; [|discriminate].
  rewrite _pow___Num. intros [= <- <-]. appended.
  apply Inv_pow; assumption.
Qed.

Lemma keeps_relu (self : addr) (h : heap) :
  Inv h -> self < length h -> keeps Inv live_addr (relu self) h.
Proof.
  intros HI Hself r h'. rewrite relu_eq. intros [= <- <-]. appended.
  apply Inv_relu; assumption.
Qed.

Lemma keeps_sigmoid (self : addr) (h : heap) :
  Inv h -> self < length h -> keeps Inv live_addr (sigmoid self) h.
Proof.
  intros HI Hself r h'. rewrite sigmoid_eq. intros [= <- <-]. appended.
  apply Inv_sigmoid; assumption.
Qed.

Lemma keeps_py_add (x y : value) (h : heap) :
  Inv h -> live h x -> live h y -> keeps Inv live (py_add x y) h.
Proof.
  intros HI Hx Hy. destruct x as [p | a].
  - destruct y as [q | b].
    + apply keeps_ret_Num, HI.
    + rewrite py_add_Num_Node. apply keeps_returning_Node.
      apply keeps___add__; assumption.
  - rewrite py_add_Node_l. apply keeps_returning_Node.
    apply keeps___add__; assumption.
Qed.

Lemma keeps_py_mul (x y : value) (h : heap) :
  Inv h -> live h x -> live h y -> keeps Inv live (py_mul x y) h.
Proof.
  intros HI Hx Hy. destruct x as [p | a].
  - destruct y as [q | b].
    + apply keeps_ret_Num, HI.
    + rewrite py_mul_Num_Node. apply keeps_returning_Node.
      apply keeps___mul__; assumption.
  - rewrite py_mul_Node_l. apply keeps_returning_Node.
    apply keeps___mul__; assumption.
Qed.

Lemma keeps_py_neg (x : value) (h : heap) :
  Inv h -> live h x -> keeps Inv live (py_neg x) h.
Proof.
  intros HI Hx. destruct x as [p | a].
  - apply keeps_ret_Num, HI.
  - rewrite py_neg_Node. apply keeps_returning_Node.
    apply keeps___mul__; [assumption | assumption | exact I].
Qed.

Lemma keeps_py_pow (x y : value) (h : heap) :
  Inv h -> keeps Inv live (py_pow x y) h.
Proof.
  intros HI. destruct x as [p | a].
  - destruct y as [q | b].
    + apply keeps_ret_Num, HI.
    + rewrite py_pow_Num_Node. intros r h' Hr. discriminate.
  - rewrite py_pow_Node_l. intros r h' Hr. discriminate.
Qed.

Lemma keeps_run_call (c : call) (h : heap) :
  Inv h -> call_live h c -> keeps Inv live (run_call c) h.
Proof.
  intros HI Hlive.
  destruct c as [x | self b | self b | self b | self | self b | self b
                | self b | self b | self b | self b | self | self];
    simpl in Hlive; simpl run_call;
    try match type of Hlive with _ /\ _ => destruct Hlive as [Hself Hb] end.
  - apply keeps_returning_Node, keeps_Node_init, HI.
  - apply keeps_returning_Node, keeps___add__; assumption.
  - apply keeps_returning_Node, keeps___mul__; assumption.
  - apply keeps_returning_Node, keeps__pow__; assumption.
  - apply keeps_returning_Node, keeps___mul__;
      [assumption | exact Hlive | exact I].
  - apply keeps_returning_Node, keeps___add__; assumption.
  - apply keeps_returning_Node, keeps___mul__; assumption.
  - eapply keeps_bind; [apply keeps_py_neg; assumption|].
    intros nb h1 E.
    destruct (keeps_py_neg b h HI Hb nb h1 E) as (HI1 & Hp1 & Hnb).
    apply keeps_py_add; [assumption | | assumption].
    apply (live_weaken h h1 (VNode self) Hp1 Hself).
  - eapply keeps_bind; [apply (keeps_py_neg (VNode self)); assumption|].
    intros ns h1 E.
    destruct (keeps_py_neg (VNode self) h HI Hself ns h1 E)
      as (HI1 & Hp1 & Hns).
    apply keeps_py_add; [assumption | | assumption].
    apply (live_weaken h h1 b Hp1 Hb).
  - eapply keeps_bind; [apply keeps_py_pow; assumption|].
    intros p h1 E.
    destruct (keeps_py_pow b (VNum (-1)) h HI p h1 E) as (HI1 & Hp1 & Hlp).
    apply keeps_py_mul; [assumption | | assumption].
    apply (live_weaken h h1 (VNode self) Hp1 Hself).
  - eapply keeps_bind; [apply keeps_py_pow; assumption|].
    intros p h1 E.
    destruct (keeps_py_pow (VNode self) (VNum (-1)) h HI p h1 E)
      as (HI1 & Hp1 & Hlp).
    apply keeps_py_mul; [assumption | | assumption].
    apply (live_weaken h h1 b Hp1 Hb).
  - apply keeps_returning_Node, keeps_relu; assumption.
  - apply keeps_returning_Node, keeps_sigmoid; assumption.
Qed.
End Builder.

(** ** The shape of a store built by the operations *)

Section Shape.

Context {rt : Runtime}.

Hypothesis Hset : py_set_spec rt.

Lemma operator_node_old (h k : heap) (i : addr) (n : Node) :
  i <= length h -> operator_node h i n -> operator_node (h ++ k) i n.
Proof.
  intros Hi. unfold operator_node.
  destruct (_backward n); [tauto | ..]; intros H;
    repeat match goal with H : _ /\ _ |- _ => destruct H end; subst;
    rewrite ?scalar_of_old by lia; repeat split; assumption.
Qed.

Lemma well_shaped_nil : well_shaped [].
Proof.
  intros i. rewrite lookup_total_beyond by (simpl; lia).
  split; [reflexivity|]. simpl. symmetry. apply (py_set_nil Hset).
Qed.

Lemma well_shaped_snoc (h : heap) (n : Node) :
  well_shaped h -> operator_node h (length h) n -> well_shaped (h ++ [n]).
Proof.
  intros Hh Hn i.
  destruct (lt_eq_lt_dec i (length h)) as [[Hlt | ->] | Hgt].
  - rewrite lookup_total_old by exact Hlt.
    apply operator_node_old; [lia | apply Hh].
  - rewrite lookup_total_new. apply operator_node_old; [lia | exact Hn].
  - rewrite lookup_total_beyond by (rewrite length_app; simpl; lia).
    split; [reflexivity|]. simpl. symmetry. apply (py_set_nil Hset).
Qed.

Lemma same_graph_well_shaped (h h' : heap) :
  same_graph h h' -> well_shaped h -> well_shaped h'.
Proof.
  intros [_ F] Hh i. specialize (Hh i).
  destruct (F i) as (Hsc & Htag & Hbw & Hprev).
  unfold operator_node, backward_of, previous_of, scalar_of in *.
  rewrite Hbw, Htag, Hprev, Hsc.
  destruct (_backward (h !!! i)); [exact Hh | ..];
    repeat match goal with H : _ /\ _ |- _ => destruct H end; subst;
    repeat split; try assumption;
    match goal with H : scalar _ = _ |- _ => rewrite H end;
    repeat match goal with
           | |- context [scalar (h' !!! ?x)] =>
               rewrite (proj1 (F x))
           end; reflexivity.
Qed.

Lemma constructed_well_shaped (h : heap) : constructed h -> well_shaped h.
Proof.
  induction 1 as [| h c v h' _ IH Hlive Hrun | h root h' _ IH Hroot Hbp
                 | h parameters _ IH].
  - apply well_shaped_nil.
  - refine (proj1 (keeps_run_call well_shaped _ _ _ _ _ _ c h IH Hlive
                     v h' Hrun)).
    + intros k q Hk. apply well_shaped_snoc; [exact Hk|].
      split; reflexivity.
    + intros k s b Hk Hs Hb. apply well_shaped_snoc; [exact Hk|].
      repeat split; assumption.
    + intros k s b Hk Hs Hb. apply well_shaped_snoc; [exact Hk|].
      repeat split; assumption.
    + intros k s p Hk Hs. apply well_shaped_snoc; [exact Hk|].
      repeat split; assumption.
    + intros k s Hk Hs. apply well_shaped_snoc; [exact Hk|].
      repeat split; assumption.
    + intros k s Hk Hs. apply well_shaped_snoc; [exact Hk|].
      repeat split; assumption.
  - eapply same_graph_well_shaped; [|exact IH].
    eapply same_graph_backward_propagation. exact Hbp.
  - eapply same_graph_well_shaped; [|exact IH].
    apply same_graph_clear_gradient.
Qed.

(** The operands of an object are exactly the variables its closure
    captured. *)
Lemma captured_previous (h : heap) (i x : addr) :
  well_shaped h -> x ∈ captured (backward_of h i) <-> x ∈ previous_of h i.
Proof.
  intros Hh. specialize (Hh i). unfold operator_node in Hh.
  unfold backward_of, previous_of.
  destruct (_backward (h !!! i)); simpl;
    repeat match goal with H : _ /\ _ |- _ => destruct H end;
    match goal with H : _previous _ = _ |- _ => rewrite H end;
    rewrite (py_set_elem Hset); reflexivity.
Qed.
End Shape.

Lemma same_graph_backward_of (h h' : heap) (i : addr) :
  same_graph h h' -> backward_of h' i = backward_of h i.
Proof. intros [_ F]. apply F. Qed.

Lemma same_graph_scalar_of (h h' : heap) (i : addr) :
  same_graph h h' -> scalar_of h' i = scalar_of h i.
Proof. intros [_ F]. apply F. Qed.

Lemma same_graph_previous_of (h h' : heap) (i : addr) :
  same_graph h h' -> previous_of h' i = previous_of h i.
Proof. intros [_ F]. apply F. Qed.

(** ** How gradients flow in one pass *)

Section Flow.

Context {rt : Runtime}.

Lemma call_backward_outside (f : closure) (k : heap) (x : addr) :
  x ∉ captured f -> gradient_of (call_backward f k) x = gradient_of k x.
Proof.
  intros Hx. destruct f; simpl in *;
    rewrite ?gradient_of_add_gradient_ne; try reflexivity;
    intros ->; apply Hx; rewrite ?elem_of_cons; auto.
Qed.

Lemma backward_of_sweep (l : list addr) (k : heap) (m : addr) :
  backward_of (sweep k l) m = backward_of k m.
Proof. apply same_graph_backward_of, same_graph_sweep. Qed.

Lemma sweep_outside (l : list addr) (k : heap) (x : addr) :
  (forall m, m ∈ l -> x ∉ captured (backward_of k m)) ->
  gradient_of (sweep k l) x = gradient_of k x.
Proof.
  revert k. induction l as [|m l IH]; intros k Hl; [reflexivity|].
  rewrite sweep_cons, IH.
  - apply call_backward_outside, Hl. left.
  - intros m' Hm'.
    rewrite (same_graph_backward_of k) by apply same_graph_call_backward.
    apply Hl. right. exact Hm'.
Qed.

Lemma not_captured_self (h : heap) (n : addr) :
  wf h -> n ∉ captured (backward_of h n).
Proof.
  intros Hwf Hn. destruct (Hwf n) as [_ Hc].
  destruct (backward_of h n); simpl in *;
    repeat (apply elem_of_cons in Hn as [-> | Hn]);
    try (inversion Hn; fail); lia.
Qed.

Hypothesis Hset : py_set_spec rt.

(** The gradient a node has when its closure is called is the one it has
    when the sweep ends. *)
Lemma swept_gradient_final (h k : heap) (order : list addr)
    (l1 l2 : list addr) (n : addr) :
  wf h -> well_shaped h -> same_graph h k ->
  NoDup order -> operands_first h order ->
  reverse order = l1 ++ n :: l2 ->
  gradient_of (sweep k (reverse order)) n = gradient_of (sweep k l1) n.
Proof.
  intros Hwf Hsh Hsg Hnd Hof Hsplit.
  rewrite Hsplit, sweep_app, sweep_cons.
  set (k1 := sweep k l1).
  assert (Hsg1 : same_graph h k1).
  { eapply same_graph_trans; [exact Hsg | apply same_graph_sweep]. }
  assert (Horder : order = reverse l2 ++ n :: reverse l1).
  { rewrite <- (reverse_involutive order), Hsplit, reverse_app, reverse_cons.
    rewrite <- app_assoc. reflexivity. }
  rewrite sweep_outside.
  - apply call_backward_outside.
    rewrite (same_graph_backward_of h k1) by exact Hsg1.
    apply not_captured_self, Hwf.
  - intros m Hm Hcap.
    rewrite (same_graph_backward_of k1) in Hcap
      by apply same_graph_call_backward.
    rewrite (same_graph_backward_of h k1) in Hcap by exact Hsg1.
    apply (captured_previous Hset h m n Hsh) in Hcap.
    apply elem_of_reverse, list_elem_of_lookup_1 in Hm as [jm Hjm].
    assert (Hlt : jm < length (reverse l2))
      by (eapply lookup_lt_Some; exact Hjm).
    destruct (Hof jm m) with (c := n) as (j & Hj & Hjn).
    + rewrite Horder. apply lookup_app_l_Some. exact Hjm.
    + exact Hcap.
    + assert (Hn : order !! length (reverse l2) = Some n)
        by (rewrite Horder; apply list_lookup_middle; reflexivity).
      pose proof (NoDup_lookup _ _ _ _ Hnd Hjn Hn). lia.
Qed.

Lemma Qsum_app (l1 l2 : list Q) : (Qsum (l1 ++ l2) == Qsum l1 + Qsum l2)%Q.
Proof.
  induction l1 as [|x l1 IH]; simpl.
  - ring.
  - rewrite IH. ring.
Qed.

Lemma Qsum_zero (l : list Q) :
  (forall x, x ∈ l -> (x == 0)%Q) -> (Qsum l == 0)%Q.
Proof.
  induction l as [|x l IH]; intros Hl; simpl; [reflexivity|].
  rewrite (Hl x) by left. rewrite IH; [ring|].
  intros y Hy. apply Hl. right. exact Hy.
Qed.

Ltac decide_captured n :=
  repeat match goal with
         | |- context [bool_decide (?s = n)] =>
             destruct (decide (s = n)) as [?|?];
             [ rewrite (bool_decide_eq_true_2 (s = n)) by assumption
             | rewrite (bool_decide_eq_false_2 (s = n)) by assumption ]
         end.

Lemma call_backward_adds (f : closure) (k : heap) (m n : addr) :
  wf_closure m f -> m < length k ->
  (gradient_of (call_backward f k) n
   == gradient_of k n + contribution k f (gradient_of k m) n)%Q.
Proof.
  intros Hf Hm.
  destruct f as [|s b r|s b r|s p r|s r|s r]; simpl in *;
    [ ring | .. ];
    repeat match goal with H : _ /\ _ |- _ => destruct H end; subst r;
    decide_captured n; subst; simpl;
    rewrite ?scalar_of_add_gradient;
    repeat first
      [ rewrite gradient_of_add_gradient_eq
          by (rewrite ?length_add_gradient; lia)
      | rewrite gradient_of_add_gradient_ne by lia ];
    ring.
Qed.

Lemma contribution_same_graph (h k : heap) (f : closure) (g : Q)
    (n : addr) :
  same_graph h k -> contribution k f g n = contribution h f g n.
Proof.
  intros Hsg. destruct f; simpl;
    rewrite ?(same_graph_scalar_of h k) by exact Hsg; reflexivity.
Qed.

Lemma Qsum_reverse (l : list Q) : (Qsum (reverse l) == Qsum l)%Q.
Proof.
  induction l as [|x l IH]; [reflexivity|].
  rewrite reverse_cons, Qsum_app, IH. simpl. ring.
Qed.

Lemma sweep_flow (h k : heap) (order : list addr) :
  wf h -> well_shaped h -> same_graph h k ->
  NoDup order -> operands_first h order ->
  (forall m, m ∈ order -> m < length h) ->
  forall (l1 l2 : list addr) (n : addr),
    reverse order = l1 ++ l2 ->
    (gradient_of (sweep k l1) n
     == gradient_of k n
        + Qsum ((fun m => contribution h (backward_of h m)
                            (gradient_of (sweep k (reverse order)) m) n)
                <$> l1))%Q.
Proof.
  intros Hwf Hsh Hsg Hnd Hof Hlive l1.
  induction l1 as [|m l1 IH] using rev_ind; intros l2 n Hsplit.
  - simpl. ring.
  - rewrite <- app_assoc in Hsplit. simpl in Hsplit.
    rewrite sweep_app, fmap_app, Qsum_app. simpl.
    set (k1 := sweep k l1).
    assert (Hsg1 : same_graph h k1).
    { eapply same_graph_trans; [exact Hsg | apply same_graph_sweep]. }
    change (sweep k1 [m]) with (call_backward (backward_of k1 m) k1).
    rewrite (call_backward_adds _ k1 m n).
    + rewrite (same_graph_backward_of h k1) by exact Hsg1.
      rewrite (contribution_same_graph h k1) by exact Hsg1.
      rewrite (swept_gradient_final h k order l1 l2 m)
        by assumption.
      subst k1. rewrite (IH (m :: l2) n Hsplit). ring.
    + rewrite (same_graph_backward_of h k1) by exact Hsg1. apply Hwf.
    + rewrite (proj1 Hsg1). apply Hlive.
      rewrite <- elem_of_reverse, Hsplit, elem_of_app. right. left.
Qed.

(** X1: in every store the documented operations can reach (backward
    passes and gradient resets included), the scalar of each object is its
    operator applied to the scalars its operands have now: the sum for an
    add node, the product for a mul node, the power, the rectification, the
    logistic value; an object with the default closure has no operands. *)
Theorem forward_values_consistent (h : heap) (i : addr) :
  constructed h ->
  match backward_of h i with
  | lambda_None => previous_of h i = []
  | add_backward a b _ =>
      scalar_of h i = (scalar_of h a + scalar_of h b)%Q
  | mul_backward a b _ =>
      scalar_of h i = (scalar_of h a * scalar_of h b)%Q
  | pow_backward a p _ => scalar_of h i = num_pow (scalar_of h a) p
  | relu_backward a _ =>
      scalar_of h i = (if Qltb (scalar_of h a) 0 then 0 else scalar_of h a)%Q
  | sigmoid_backward a _ =>
      scalar_of h i = (1 / (1 + np_exp (- scalar_of h a)))%Q
  end.
Proof.
  intros Hcons. pose proof (constructed_well_shaped Hset h Hcons i) as Hi.
  unfold operator_node in Hi. unfold backward_of, previous_of, scalar_of.
  destruct (_backward (h !!! i));
    repeat match goal with H : _ /\ _ |- _ => destruct H end;
    try assumption.
  rewrite <- (py_set_nil Hset). assumption.
Qed.

(** One pass from [root], unfolded. *)
Lemma pass_facts (h : heap) (root : addr) :
  constructed h -> root < length h ->
  exists rest,
    ordering_phase h root = Some (rest ++ [root]) /\
    backward_propagation root h
    = Some (sweep (alter (set_gradient 1) root h)
              (reverse (rest ++ [root]))) /\
    NoDup (rest ++ [root]) /\
    operands_first h (rest ++ [root]) /\
    (forall n, n ∈ rest ++ [root] -> n < length h /\ reachable h root n).
Proof.
  intros Hcons Hroot.
  destruct (ordering_phase_root_last h root (constructed_wf Hset h Hcons)
              Hroot) as (rest & Hrun & Hnd & Hof & Hrest).
  exists rest. split; [exact Hrun|].
  split; [unfold backward_propagation; rewrite Hrun; reflexivity|].
  split; [exact Hnd|]. split; [exact Hof|].
  intros n Hn. apply elem_of_app in Hn as [Hn | Hn].
  - destruct (Hrest n Hn). split; [lia | assumption].
  - apply list_elem_of_singleton in Hn as ->. split; [lia | apply reach_root].
Qed.


(** X3: after backward propagation the gradient of the root is exactly 1,
    whatever it was before and whatever the graph below it is: no closure
    adds to the root. *)
Theorem root_gradient_is_one (h : heap) (root : addr) :
  constructed h -> root < length h ->
  exists h',
    backward_propagation root h = Some h' /\ gradient_of h' root = 1%Q.
Proof.
  intros Hcons Hroot.
  destruct (pass_facts h root Hcons Hroot)
    as (rest & _ & Hbp & Hnd & Hof & _).
  eexists. split; [exact Hbp|].
  rewrite (swept_gradient_final h _ (rest ++ [root]) [] (reverse rest)
             root);
    try assumption.
  - apply gradient_of_seed_eq, Hroot.
  - apply (constructed_wf Hset h Hcons).
  - apply (constructed_well_shaped Hset h Hcons).
  - apply same_graph_seed.
  - apply reverse_snoc.
Qed.

(** X4: when the sweep reaches a node [n] (the closures of the nodes [l1]
    before it in the reversed order have run), the gradient of [n] already
    has the value it has when backward propagation ends: nothing adds to a
    node after its own closure was called. *)
Theorem closure_reads_final_gradient (h : heap) (root : addr) :
  constructed h -> root < length h ->
  exists order h',
    ordering_phase h root = Some order /\
    backward_propagation root h = Some h' /\
    forall l1 n l2,
      reverse order = l1 ++ n :: l2 ->
      gradient_of (sweep (alter (set_gradient 1) root h) l1) n
      = gradient_of h' n.
Proof.
  intros Hcons Hroot.
  destruct (pass_facts h root Hcons Hroot)
    as (rest & Hrun & Hbp & Hnd & Hof & _).
  eexists _, _. split; [exact Hrun|]. split; [exact Hbp|].
  intros l1 n l2 Hsplit. symmetry.
  apply (swept_gradient_final h _ (rest ++ [root]) l1 l2 n);
    try assumption.
  - apply (constructed_wf Hset h Hcons).
  - apply (constructed_well_shaped Hset h Hcons).
  - apply same_graph_seed.
Qed.

Lemma gradient_flow_eq (h : heap) (root : addr) :
  constructed h -> root < length h ->
  exists order h',
    ordering_phase h root = Some order /\
    backward_propagation root h = Some h' /\
    NoDup order /\
    (forall n, n ∈ order <-> reachable h root n) /\
    forall n,
      (gradient_of h' n
       == (if bool_decide (n = root) then 1 else gradient_of h n)
          + Qsum ((fun m => contribution h (backward_of h m)
                              (gradient_of h' m) n) <$> order))%Q.
Proof.
  intros Hcons Hroot.
  destruct (pass_facts h root Hcons Hroot)
    as (rest & Hrun & Hbp & Hnd & Hof & Hreach).
  eexists _, _. split; [exact Hrun|]. split; [exact Hbp|].
  split; [exact Hnd|]. split.
  { intros n. split; [apply Hreach|].
    induction 1 as [|n c _ IH Hc];
      [apply elem_of_app; right; left|].
    apply list_elem_of_lookup_1 in IH as [k Hk].
    destruct (Hof k n Hk c Hc) as (j & _ & Hj).
    eapply list_elem_of_lookup_2, Hj. }
  intros n.
  set (order := rest ++ [root]) in *.
  set (k0 := alter (set_gradient 1) root h).
  rewrite (sweep_flow h k0 order) with (l2 := []) (n := n);
    try assumption.
  - rewrite fmap_reverse, Qsum_reverse.
    apply Qplus_comp; [|reflexivity].
    subst k0. case_bool_decide as Hn.
    + subst n. rewrite gradient_of_seed_eq by exact Hroot. reflexivity.
    + rewrite gradient_of_seed_ne by congruence. reflexivity.
  - apply (constructed_wf Hset h Hcons).
  - apply (constructed_well_shaped Hset h Hcons).
  - apply same_graph_seed.
  - intros m Hm. apply Hreach, Hm.
  - rewrite app_nil_r. reflexivity.
Qed.
End Flow.

(** X5: after backward propagation from [root], the gradient of every object
    [n] is its starting value (1 for the root, its previous gradient
    otherwise) plus the sum, over the nodes [m] of the graph, of what the
    closure of [m] adds to [n] given the final gradient of [m]; the nodes
    summed over are exactly those reachable from the root, each once. *)
Theorem gradient_is_sum_of_contributions {rt : Runtime} (h : heap)
    (root : addr) :
  py_set_spec rt -> constructed h -> root < length h ->
  exists order h',
    ordering_phase h root = Some order /\
    backward_propagation root h = Some h' /\
    NoDup order /\
    (forall n, n ∈ order <-> reachable h root n) /\
    forall n,
      (gradient_of h' n
       == (if bool_decide (n = root) then 1 else gradient_of h n)
          + Qsum ((fun m => contribution h (backward_of h m)
                              (gradient_of h' m) n) <$> order))%Q.
Proof. intros Hset. apply (gradient_flow_eq Hset). Qed.

(** ** Using the flow equation *)

Ltac store_length :=
  rewrite ?length_add_gradient, ?length_seed, ?length_app; simpl; lia.

Ltac read_store :=
  repeat first
    [ rewrite scalar_of_add_gradient
    | rewrite scalar_of_seed
    | rewrite backward_of_add_gradient
    | rewrite backward_of_seed
    | rewrite previous_of_add_gradient
    | rewrite previous_of_seed
    | rewrite gradient_of_add_gradient_eq by store_length
    | rewrite gradient_of_add_gradient_ne by lia
    | rewrite gradient_of_seed_eq by store_length
    | rewrite gradient_of_seed_ne by lia
    | rewrite scalar_of_new
    | rewrite gradient_of_new
    | rewrite previous_of_new
    | rewrite backward_of_new
    | rewrite scalar_of_old by store_length
    | rewrite gradient_of_old by store_length
    | rewrite previous_of_old by store_length
    | rewrite backward_of_old by store_length ];
  simpl scalar; simpl gradient; simpl _previous; simpl _backward.

Ltac decide_eqs :=
  repeat match goal with
         | |- context [bool_decide (?x = ?y)] =>
             first [ rewrite (bool_decide_eq_true_2 (x = y)) by lia
                   | rewrite (bool_decide_eq_false_2 (x = y)) by lia ]
         end.

(** Reading the objects appended to a store. *)
Lemma appended_0 (h k : heap) (n0 : Node) : (h ++ n0 :: k) !!! length h = n0.
Proof. apply list_lookup_total_middle. reflexivity. Qed.

Lemma appended_1 (h k : heap) (n0 n1 : Node) :
  (h ++ n0 :: n1 :: k) !!! S (length h) = n1.
Proof.
  rewrite (cons_middle n0), app_assoc.
  apply list_lookup_total_middle. rewrite length_app. simpl. lia.
Qed.

Lemma appended_2 (h k : heap) (n0 n1 n2 : Node) :
  (h ++ n0 :: n1 :: n2 :: k) !!! S (S (length h)) = n2.
Proof.
  rewrite (cons_middle n0), app_assoc.
  rewrite <- (appended_1 (h ++ [n0]) k n1 n2) at 2.
  rewrite length_app. simpl. rewrite Nat.add_1_r. reflexivity.
Qed.

Lemma appended_3 (h k : heap) (n0 n1 n2 n3 : Node) :
  (h ++ n0 :: n1 :: n2 :: n3 :: k) !!! S (S (S (length h))) = n3.
Proof.
  rewrite (cons_middle n0), app_assoc.
  rewrite <- (appended_2 (h ++ [n0]) k n1 n2 n3) at 2.
  rewrite length_app. simpl. rewrite Nat.add_1_r. reflexivity.
Qed.

(** Unfold the accessors and read old and appended objects. *)
Ltac read_appended :=
  unfold scalar_of, gradient_of, previous_of, backward_of;
  rewrite ?appended_0, ?appended_1, ?appended_2, ?appended_3,
    ?lookup_total_old by lia;
  simpl scalar; simpl gradient; simpl _previous; simpl _backward.

Section FlowUse.

Context {rt : Runtime}.

Hypothesis Hset : py_set_spec rt.

Lemma Qsum_single (f : addr -> Q) (l : list addr) (c : addr) :
  NoDup l -> c ∈ l ->
  (forall m, m ∈ l -> m <> c -> (f m == 0)%Q) ->
  (Qsum (f <$> l) == f c)%Q.
Proof.
  induction l as [|x l IH]; intros Hnd Hc Hz; [inversion Hc|].
  apply NoDup_cons in Hnd as [Hx Hnd]. simpl.
  destruct (decide (x = c)) as [-> | Hne].
  - rewrite Qsum_zero; [ring|].
    intros y Hy. apply list_elem_of_fmap in Hy as (m & -> & Hm).
    apply Hz; [right; exact Hm | congruence].
  - rewrite (Hz x) by (left || exact Hne). rewrite IH; [ring | exact Hnd | |].
    + apply elem_of_cons in Hc as [-> | Hc]; [congruence | exact Hc].
    + intros m Hm. apply Hz. right. exact Hm.
Qed.

Lemma contribution_not_captured (h : heap) (f : closure) (g : Q) (n : addr) :
  n ∉ captured f -> (contribution h f g n == 0)%Q.
Proof.
  intros Hn. destruct f as [|s b r|s b r|s p r|s r|s r]; simpl in *;
    [ reflexivity | .. ];
    repeat match goal with
           | |- context [bool_decide (?s = n)] =>
               rewrite (bool_decide_eq_false_2 (s = n))
                 by (intros ->; apply Hn; rewrite ?elem_of_cons; auto)
           end; simpl; ring.
Qed.

Lemma contribution_gradient_eq (h : heap) (f : closure) (g g' : Q)
    (n : addr) :
  (g == g')%Q -> (contribution h f g n == contribution h f g' n)%Q.
Proof.
  intros Hg. destruct f; simpl; rewrite ?Hg; reflexivity.
Qed.

(** The flow equation when [c] is the only node of the graph that has [n]
    as an operand. *)
Lemma flow_one (h h' : heap) (root c n : addr) :
  constructed h -> root < length h ->
  backward_propagation root h = Some h' ->
  reachable h root c ->
  (forall m, reachable h root m -> m <> c -> n ∉ previous_of h m) ->
  (gradient_of h' n
   == (if bool_decide (n = root) then 1 else gradient_of h n)
      + contribution h (backward_of h c) (gradient_of h' c) n)%Q.
Proof.
  intros Hcons Hroot Hbp Hc Hothers.
  destruct (gradient_flow_eq Hset h root Hcons Hroot)
    as (order & h1 & _ & Hbp1 & Hnd & Hreach & Hflow).
  rewrite Hbp in Hbp1. injection Hbp1 as <-.
  rewrite (Hflow n). apply Qplus_comp; [reflexivity|].
  apply (Qsum_single
           (fun m => contribution h (backward_of h m) (gradient_of h' m) n)
           order c Hnd).
  - apply Hreach, Hc.
  - intros m Hm Hne. apply contribution_not_captured.
    rewrite (captured_previous Hset h m n
               (constructed_well_shaped Hset h Hcons)).
    apply Hothers; [apply Hreach, Hm | exact Hne].
Qed.

(** The flow equation when no node of the graph has [n] as an operand. *)
Lemma flow_none (h h' : heap) (root n : addr) :
  constructed h -> root < length h ->
  backward_propagation root h = Some h' ->
  (forall m, reachable h root m -> n ∉ previous_of h m) ->
  (gradient_of h' n
   == (if bool_decide (n = root) then 1 else gradient_of h n))%Q.
Proof.
  intros Hcons Hroot Hbp Hothers.
  destruct (gradient_flow_eq Hset h root Hcons Hroot)
    as (order & h1 & _ & Hbp1 & Hnd & Hreach & Hflow).
  rewrite Hbp in Hbp1. injection Hbp1 as <-.
  rewrite (Hflow n), Qsum_zero; [ring|].
  intros y Hy. apply list_elem_of_fmap in Hy as (m & -> & Hm).
  apply contribution_not_captured.
  rewrite (captured_previous Hset h m n
             (constructed_well_shaped Hset h Hcons)).
  apply Hothers, Hreach, Hm.
Qed.

(** Below a root whose operands are [a] or older, or have no operands
    themselves, only the root has [a] as an operand. *)
Lemma root_only_consumer (h : heap) (r a : addr) :
  wf h ->
  (forall c, c ∈ previous_of h r -> c <= a \/ previous_of h c = []) ->
  forall m, reachable h r m -> m <> r -> a ∉ previous_of h m.
Proof.
  intros Hwf Hops m Hm Hne Ha.
  apply reachable_inv in Hm as [-> | (c & Hc & Hcm)]; [congruence|].
  destruct (Hops c Hc) as [Hle | Hnil].
  - apply (reachable_le h c m Hwf) in Hcm.
    apply (proj1 (Hwf m)) in Ha. lia.
  - apply reachable_inv in Hcm as [-> | (d & Hd & _)].
    + rewrite Hnil in Ha. inversion Ha.
    + rewrite Hnil in Hd. inversion Hd.
Qed.

(** Backward propagation returns on a constructed store. *)
Lemma backward_propagation_returns (h : heap) (root : addr) :
  constructed h -> root < length h ->
  exists h', backward_propagation root h = Some h'.
Proof.
  intros Hcons Hroot.
  destruct (pass_facts Hset h root Hcons Hroot) as (rest & _ & Hbp & _).
  eexists. exact Hbp.
Qed.

Lemma flow_root (h h' : heap) (root : addr) :
  constructed h -> root < length h ->
  backward_propagation root h = Some h' ->
  (gradient_of h' root == 1)%Q.
Proof.
  intros Hcons Hroot Hbp.
  rewrite (flow_none h h' root root Hcons Hroot Hbp).
  - rewrite bool_decide_eq_true_2 by reflexivity. reflexivity.
  - intros m Hm Hin.
    pose proof (constructed_wf Hset h Hcons) as Hwf.
    apply (reachable_le h root m Hwf) in Hm.
    apply (proj1 (Hwf m)) in Hin. lia.
Qed.

(** After a pass from [r], the gradient of an operand [a] of [r] that no
    other node of the graph has as an operand, given its gradient before. *)
Lemma flow_from_root (h h' : heap) (r a : addr) :
  constructed h -> r < length h -> a <> r ->
  backward_propagation r h = Some h' ->
  (forall c, c ∈ previous_of h r -> c <= a \/ previous_of h c = []) ->
  (gradient_of h' a
   == gradient_of h a + contribution h (backward_of h r) 1 a)%Q.
Proof.
  intros Hcons Hr Har Hbp Hops.
  rewrite (flow_one h h' r r a Hcons Hr Hbp (reach_root h r)).
  - rewrite bool_decide_eq_false_2 by exact Har.
    rewrite (contribution_gradient_eq h (backward_of h r) _ 1 a
               (flow_root h h' r Hcons Hr Hbp)).
    reflexivity.
  - apply root_only_consumer; [apply (constructed_wf Hset h Hcons) | exact Hops].
Qed.

(** A set of addresses that holds the root and the operands of its members
    holds every node reachable from the root. *)
Lemma reachable_closed (h : heap) (root : addr) (S : list addr) :
  root ∈ S ->
  (forall x c, x ∈ S -> c ∈ previous_of h x -> c ∈ S) ->
  forall m, reachable h root m -> m ∈ S.
Proof.
  intros Hroot Hclosed m. induction 1 as [|n c _ IH Hc]; [exact Hroot|].
  apply (Hclosed n c IH Hc).
Qed.

Lemma __add___lit (self : addr) (q : Q) (h : heap) :
  self < length h ->
  __add__ self (VNum q) h =
  Ok (S (length h),
      h ++ [ mkNode q tag_empty 0 lambda_None (py_set []);
             mkNode (scalar_of h self + q) tag_add 0
               (add_backward self (length h) (S (length h)))
               (py_set [self; length h]) ]).
Proof.
  intros Hself. rewrite __add___Num, __add___Node.
  rewrite <- app_assoc, length_app, Nat.add_1_r. simpl.
  rewrite scalar_of_old by lia. rewrite scalar_of_new. reflexivity.
Qed.

Lemma __mul___lit (self : addr) (q : Q) (h : heap) :
  self < length h ->
  __mul__ self (VNum q) h =
  Ok (S (length h),
      h ++ [ mkNode q tag_empty 0 lambda_None (py_set []);
             mkNode (scalar_of h self * q) tag_mul 0
               (mul_backward self (length h) (S (length h)))
               (py_set [self; length h]) ]).
Proof.
  intros Hself. rewrite __mul___Num, __mul___Node.
  rewrite <- app_assoc, length_app, Nat.add_1_r. simpl.
  rewrite scalar_of_old by lia. rewrite scalar_of_new. reflexivity.
Qed.

Lemma run_returning_Node (c : M addr) (h h' : heap) (r : addr) :
  c h = Ok (r, h') -> returning_Node c h = Ok (VNode r, h').
Proof. intros Hc. unfold returning_Node, bind. rewrite Hc. reflexivity. Qed.

(** The operands of a node built from [a] and a fresh literal, seen from a
    target [t] no older than [a]. *)
Lemma literal_operands (h' : heap) (a l t : addr) (c : addr) :
  a <= t -> previous_of h' l = [] ->
  c ∈ py_set [a; l] -> c <= t \/ previous_of h' c = [].
Proof.
  intros Ht Hl Hc. apply (proj1 (py_set_elem Hset _ _)) in Hc.
  apply elem_of_cons in Hc as [-> | Hc]; [left; exact Ht|].
  apply list_elem_of_singleton in Hc as ->. right. exact Hl.
Qed.

(** X6: for a node [a] and a number [q], [a + q] appends exactly two
    objects and changes none: a leaf holding [q] with gradient 0, and the
    result with scalar [a.scalar + q]; the reflected [q + a] does the very
    same; and backward propagation from the result adds 1 to [a.gradient]
    and leaves the literal's gradient at 1. *)
Theorem add_literal_rule (h : heap) (a : addr) (q : Q) :
  constructed h -> a < length h ->
  exists h',
    __add__ a (VNum q) h = Ok (S (length h), h') /\
    py_add (VNum q) (VNode a) h = py_add (VNode a) (VNum q) h /\
    length h' = S (S (length h)) /\
    (forall i n, h !! i = Some n -> h' !! i = Some n) /\
    leaf h' (length h) /\
    scalar_of h' (length h) = q /\
    gradient_of h' (length h) = 0%Q /\
    scalar_of h' (S (length h)) = (scalar_of h a + q)%Q /\
    exists h'',
      backward_propagation (S (length h)) h' = Some h'' /\
      (gradient_of h'' a == gradient_of h a + 1)%Q /\
      (gradient_of h'' (length h) == 1)%Q.
Proof.
  intros Hcons Ha.
  pose proof (__add___lit a q h Ha) as Hrun.
  set (h' := h ++ _) in *.
  assert (Hcons' : constructed h').
  { apply (constructed_call h (call_add a (VNum q)) (VNode (S (length h))) h'
             Hcons (conj Ha I)).
    apply run_returning_Node, Hrun. }
  assert (Hlen : length h' = S (S (length h)))
    by (subst h'; rewrite length_app; simpl; lia).
  assert (Hprev_l : previous_of h' (length h) = [])
    by (subst h'; read_appended; apply (py_set_nil Hset)).
  exists h'. split; [exact Hrun|].
  split; [reflexivity|]. split; [exact Hlen|].
  split; [intros i n Hi; apply lookup_app_l_Some, Hi|].
  split.
  { split; [lia|]. split; [exact Hprev_l|]. subst h'. read_appended.
    reflexivity. }
  split; [subst h'; read_appended; reflexivity|].
  split; [subst h'; read_appended; reflexivity|].
  split; [subst h'; read_appended; reflexivity|].
  destruct (backward_propagation_returns h' (S (length h)) Hcons')
    as (h'' & Hbp); [lia|].
  exists h''. split; [exact Hbp|].
  assert (Hops : forall t, a <= t ->
            forall c, c ∈ previous_of h' (S (length h)) ->
                      c <= t \/ previous_of h' c = []).
  { intros t Ht c Hc. apply (literal_operands h' a (length h) t c Ht Hprev_l).
    revert Hc. subst h'. read_appended. auto. }
  split.
  - rewrite (flow_from_root h' h'' (S (length h)) a Hcons') by
      (first [lia | exact Hbp | apply Hops; lia]).
    subst h'. read_appended. simpl. decide_eqs. simpl. ring.
  - rewrite (flow_from_root h' h'' (S (length h)) (length h) Hcons') by
      (first [lia | exact Hbp | apply Hops; lia]).
    subst h'. read_appended. simpl. decide_eqs. simpl. ring.
Qed.

(** X7: for a node [a] and a number [q], [a * q] appends a leaf holding
    [q] and the result with scalar [a.scalar * q], the reflected [q * a]
    does the very same, and backward propagation from the result adds [q]
    to [a.gradient] and leaves [a.scalar] as the literal's gradient. *)
Theorem mul_literal_rule (h : heap) (a : addr) (q : Q) :
  constructed h -> a < length h ->
  exists h',
    __mul__ a (VNum q) h = Ok (S (length h), h') /\
    py_mul (VNum q) (VNode a) h = py_mul (VNode a) (VNum q) h /\
    length h' = S (S (length h)) /\
    (forall i n, h !! i = Some n -> h' !! i = Some n) /\
    leaf h' (length h) /\
    scalar_of h' (length h) = q /\
    gradient_of h' (length h) = 0%Q /\
    scalar_of h' (S (length h)) = (scalar_of h a * q)%Q /\
    exists h'',
      backward_propagation (S (length h)) h' = Some h'' /\
      (gradient_of h'' a == gradient_of h a + q)%Q /\
      (gradient_of h'' (length h) == scalar_of h a)%Q.
Proof.
  intros Hcons Ha.
  pose proof (__mul___lit a q h Ha) as Hrun.
  set (h' := h ++ _) in *.
  assert (Hcons' : constructed h').
  { apply (constructed_call h (call_mul a (VNum q)) (VNode (S (length h))) h'
             Hcons (conj Ha I)).
    apply run_returning_Node, Hrun. }
  assert (Hlen : length h' = S (S (length h)))
    by (subst h'; rewrite length_app; simpl; lia).
  assert (Hprev_l : previous_of h' (length h) = [])
    by (subst h'; read_appended; apply (py_set_nil Hset)).
  exists h'. split; [exact Hrun|].
  split; [reflexivity|]. split; [exact Hlen|].
  split; [intros i n Hi; apply lookup_app_l_Some, Hi|].
  split.
  { split; [lia|]. split; [exact Hprev_l|]. subst h'. read_appended.
    reflexivity. }
  split; [subst h'; read_appended; reflexivity|].
  split; [subst h'; read_appended; reflexivity|].
  split; [subst h'; read_appended; reflexivity|].
  destruct (backward_propagation_returns h' (S (length h)) Hcons')
    as (h'' & Hbp); [lia|].
  exists h''. split; [exact Hbp|].
  assert (Hops : forall t, a <= t ->
            forall c, c ∈ previous_of h' (S (length h)) ->
                      c <= t \/ previous_of h' c = []).
  { intros t Ht c Hc. apply (literal_operands h' a (length h) t c Ht Hprev_l).
    revert Hc. subst h'. read_appended. auto. }
  split.
  - rewrite (flow_from_root h' h'' (S (length h)) a Hcons') by
      (first [lia | exact Hbp | apply Hops; lia]).
    subst h'. read_appended. simpl. decide_eqs. read_appended. simpl. ring.
  - rewrite (flow_from_root h' h'' (S (length h)) (length h) Hcons') by
      (first [lia | exact Hbp | apply Hops; lia]).
    subst h'. read_appended. simpl. decide_eqs. read_appended. simpl. ring.
Qed.

(** X8: [-a] is the product of [a] with a fresh leaf holding -1: it appends
    two objects, the result has scalar [- a.scalar], and backward
    propagation from it subtracts 1 from [a.gradient]; the negation of a
    number is the number negated, with the store untouched. *)
Theorem neg_rule (h : heap) (a : addr) :
  constructed h -> a < length h ->
  exists h',
    __neg__ a h = Ok (S (length h), h') /\
    py_neg (VNode a) h = Ok (VNode (S (length h)), h') /\
    (forall q : Q, py_neg (VNum q) h = Ok (VNum (- q), h)) /\
    length h' = S (S (length h)) /\
    scalar_of h' (length h) = (-1)%Q /\
    (scalar_of h' (S (length h)) == - scalar_of h a)%Q /\
    exists h'',
      backward_propagation (S (length h)) h' = Some h'' /\
      (gradient_of h'' a == gradient_of h a - 1)%Q.
Proof.
  intros Hcons Ha.
  pose proof (__mul___lit a (-1) h Ha) as Hrun.
  set (h' := h ++ _) in *.
  assert (Hcons' : constructed h').
  { apply (constructed_call h (call_neg a) (VNode (S (length h))) h'
             Hcons Ha).
    apply run_returning_Node, Hrun. }
  assert (Hprev_l : previous_of h' (length h) = [])
    by (subst h'; read_appended; apply (py_set_nil Hset)).
  exists h'. split; [exact Hrun|].
  split; [rewrite py_neg_Node; apply run_returning_Node, Hrun|].
  split; [reflexivity|].
  split; [subst h'; rewrite length_app; simpl; lia|].
  split; [subst h'; read_appended; reflexivity|].
  split; [subst h'; read_appended; ring|].
  destruct (backward_propagation_returns h' (S (length h)) Hcons')
    as (h'' & Hbp); [subst h'; rewrite length_app; simpl; lia|].
  exists h''. split; [exact Hbp|].
  rewrite (flow_from_root h' h'' (S (length h)) a Hcons').
  - subst h'. read_appended. simpl. decide_eqs. read_appended. simpl. ring.
  - subst h'. rewrite length_app. simpl. lia.
  - lia.
  - exact Hbp.
  - intros c Hc.
    apply (literal_operands h' a (length h) a c (le_n a) Hprev_l).
    revert Hc. subst h'. read_appended. auto.
Qed.


(** X10: [a * a] appends one object with scalar [a.scalar * a.scalar] whose
    operand set holds [a] once, and backward propagation from it adds
    [2 * a.scalar] to [a.gradient]: both cross terms of the closure land on
    the same node. *)
Theorem square_rule (h : heap) (a : addr) :
  constructed h -> a < length h ->
  exists h',
    __mul__ a (VNode a) h = Ok (length h, h') /\
    length h' = S (length h) /\
    scalar_of h' (length h) = (scalar_of h a * scalar_of h a)%Q /\
    previous_of h' (length h) = [a] /\
    exists h'',
      backward_propagation (length h) h' = Some h'' /\
      (gradient_of h'' a == gradient_of h a + 2 * scalar_of h a)%Q.
Proof.
  intros Hcons Ha.
  pose proof (__mul___Node a a h) as Hrun.
  set (h' := h ++ _) in *.
  assert (Hcons' : constructed h').
  { apply (constructed_call h (call_mul a (VNode a)) (VNode (length h)) h'
             Hcons (conj Ha Ha)).
    apply run_returning_Node, Hrun. }
  exists h'. split; [exact Hrun|].
  split; [subst h'; rewrite length_app; simpl; lia|].
  split; [subst h'; read_appended; reflexivity|].
  split.
  { subst h'. read_appended.
    destruct (Hset [a; a]) as [Hnd Hin].
    destruct (py_set [a; a]) as [|x [|y l]].
    - exfalso. apply (not_elem_of_nil a), Hin. left.
    - f_equal. assert (Hx : x ∈ [a; a]) by (apply Hin; left).
      apply elem_of_cons in Hx as [-> | Hx]; [reflexivity|].
      apply list_elem_of_singleton in Hx. exact Hx.
    - exfalso. apply NoDup_cons in Hnd as [Hx Hnd].
      assert (Hxa : x = a).
      { assert (Hx' : x ∈ [a; a]) by (apply Hin; left).
        apply elem_of_cons in Hx' as [-> | Hx']; [reflexivity|].
        apply list_elem_of_singleton in Hx'. exact Hx'. }
      assert (Hya : y = a).
      { assert (Hy' : y ∈ [a; a]) by (apply Hin; right; left).
        apply elem_of_cons in Hy' as [-> | Hy']; [reflexivity|].
        apply list_elem_of_singleton in Hy'. exact Hy'. }
      subst. apply Hx. left. }
  destruct (backward_propagation_returns h' (length h) Hcons')
    as (h'' & Hbp); [subst h'; rewrite length_app; simpl; lia|].
  exists h''. split; [exact Hbp|].
  rewrite (flow_from_root h' h'' (length h) a Hcons').
  - subst h'. read_appended. simpl. decide_eqs. read_appended. simpl. ring.
  - subst h'. rewrite length_app. simpl. lia.
  - lia.
  - exact Hbp.
  - intros c Hc. left. revert Hc. subst h'. read_appended. simpl.
    intros Hc. apply (proj1 (py_set_elem Hset _ _)) in Hc.
    apply elem_of_cons in Hc as [-> | Hc]; [lia|].
    apply list_elem_of_singleton in Hc as ->. lia.
Qed.
End FlowUse.

(** ** Derived operators and repeated passes *)

Section Derived.

Context {rt : Runtime}.

Hypothesis Hset : py_set_spec rt.

(** The flow equation with one consumer whose final gradient is known. *)
Lemma flow_one_known (h h' : heap) (root c n : addr) (g : Q) :
  constructed h -> root < length h ->
  backward_propagation root h = Some h' ->
  reachable h root c ->
  (gradient_of h' c == g)%Q ->
  (forall m, reachable h root m -> m <> c -> n ∉ previous_of h m) ->
  (gradient_of h' n
   == (if bool_decide (n = root) then 1 else gradient_of h n)
      + contribution h (backward_of h c) g n)%Q.
Proof.
  intros Hcons Hroot Hbp Hc Hg Hothers.
  rewrite (flow_one Hset h h' root c n Hcons Hroot Hbp Hc Hothers).
  rewrite (contribution_gradient_eq h (backward_of h c) _ g n Hg).
  reflexivity.
Qed.

Lemma __neg___eq (self : addr) (h : heap) :
  self < length h ->
  __neg__ self h =
  Ok (S (length h),
      h ++ [ mkNode (-1) tag_empty 0 lambda_None (py_set []);
             mkNode (scalar_of h self * -1) tag_mul 0
               (mul_backward self (length h) (S (length h)))
               (py_set [self; length h]) ]).
Proof. apply __mul___lit. Qed.

Lemma __sub___Node (a b : addr) (h : heap) :
  a < length h -> b < length h ->
  __sub__ a (VNode b) h =
  Ok (VNode (S (S (length h))),
      h ++ [ mkNode (-1) tag_empty 0 lambda_None (py_set []);
             mkNode (scalar_of h b * -1) tag_mul 0
               (mul_backward b (length h) (S (length h)))
               (py_set [b; length h]);
             mkNode (scalar_of h a + scalar_of h b * -1) tag_add 0
               (add_backward a (S (length h)) (S (S (length h))))
               (py_set [a; S (length h)]) ]).
Proof.
  intros Ha Hb. unfold __sub__, bind.
  rewrite py_neg_Node, (run_returning_Node _ _ _ _ (__neg___eq b h Hb)).
  rewrite py_add_Node_l.
  rewrite (run_returning_Node _ _ _ _ (__add___Node a (S (length h)) _)).
  rewrite length_app. simpl. rewrite <- app_assoc. simpl.
  replace (length h + 2) with (S (S (length h))) by lia.
  read_appended. reflexivity.
Qed.

(** X11: for distinct leaves [a] and [b], [a - b] appends three objects (a
    leaf holding -1, the product [b * -1], and their sum with [a]) and
    changes none; the result's scalar equals [a.scalar - b.scalar];
    backward propagation from it adds 1 to [a.gradient] and subtracts 1
    from [b.gradient].  Subtracting a number is adding the negated
    number. *)
Theorem sub_rule (h : heap) (a b : addr) :
  constructed h -> leaf h a -> leaf h b -> a <> b ->
  exists h',
    __sub__ a (VNode b) h = Ok (VNode (S (S (length h))), h') /\
    (forall q : Q,
        __sub__ a (VNum q) h = returning_Node (__add__ a (VNum (- q))) h) /\
    length h' = length h + 3 /\
    (forall i n, h !! i = Some n -> h' !! i = Some n) /\
    (scalar_of h' (S (S (length h))) == scalar_of h a - scalar_of h b)%Q /\
    exists h'',
      backward_propagation (S (S (length h))) h' = Some h'' /\
      (gradient_of h'' a == gradient_of h a + 1)%Q /\
      (gradient_of h'' b == gradient_of h b - 1)%Q.
Proof.
  intros Hcons (Ha & Hpa & _) (Hb & Hpb & _) Hab.
  pose proof (__sub___Node a b h Ha Hb) as Hrun.
  set (h' := h ++ _) in *.
  set (L := length h) in *.
  assert (Hcons' : constructed h')
    by (apply (constructed_call h (call_sub a (VNode b)) _ h' Hcons
                 (conj Ha Hb) Hrun)).
  assert (Hlen : length h' = L + 3)
    by (subst h' L; rewrite length_app; simpl; lia).
  assert (Hp_m : previous_of h' L = [])
    by (subst h' L; read_appended; apply (py_set_nil Hset)).
  assert (Hp_a : previous_of h' a = [])
    by (subst h' L; read_appended; exact Hpa).
  assert (Hp_b : previous_of h' b = [])
    by (subst h' L; read_appended; exact Hpb).
  assert (Hp_nb : forall c, c ∈ previous_of h' (S L) -> c = b \/ c = L).
  { intros c. subst h' L. read_appended. intros Hc.
    apply (proj1 (py_set_elem Hset _ _)) in Hc.
    apply elem_of_cons in Hc as [-> | Hc]; [left; reflexivity|].
    apply list_elem_of_singleton in Hc. right. exact Hc. }
  assert (Hp_r : forall c, c ∈ previous_of h' (S (S L)) -> c = a \/ c = S L).
  { intros c. subst h' L. read_appended. intros Hc.
    apply (proj1 (py_set_elem Hset _ _)) in Hc.
    apply elem_of_cons in Hc as [-> | Hc]; [left; reflexivity|].
    apply list_elem_of_singleton in Hc. right. exact Hc. }
  assert (Hreach : forall m, reachable h' (S (S L)) m ->
                             m ∈ [S (S L); a; S L; b; L]).
  { apply reachable_closed; [left|].
    intros x c Hx Hc. rewrite !elem_of_cons, elem_of_nil in Hx.
    destruct Hx as [-> | [-> | [-> | [-> | [-> | []]]]]].
    - destruct (Hp_r c Hc) as [-> | ->]; rewrite !elem_of_cons; auto.
    - rewrite Hp_a in Hc. inversion Hc.
    - destruct (Hp_nb c Hc) as [-> | ->]; rewrite !elem_of_cons; auto 6.
    - rewrite Hp_b in Hc. inversion Hc.
    - rewrite Hp_m in Hc. inversion Hc. }
  exists h'. split; [exact Hrun|]. split; [reflexivity|].
  split; [exact Hlen|].
  split; [intros i n Hi; apply lookup_app_l_Some, Hi|].
  split; [subst h' L; read_appended; ring|].
  destruct (backward_propagation_returns Hset h' (S (S L)) Hcons')
    as (h'' & Hbp); [lia|].
  exists h''. split; [exact Hbp|].
  assert (Hg_r : (gradient_of h'' (S (S L)) == 1)%Q)
    by (apply (flow_root Hset h' h'' _ Hcons'); [lia | exact Hbp]).
  assert (Hg_nb : (gradient_of h'' (S L) == 1)%Q).
  { rewrite (flow_one_known h' h'' (S (S L)) (S (S L)) (S L) 1 Hcons');
      [ | lia | exact Hbp | apply reach_root | exact Hg_r | ].
    - subst h' L. read_appended. simpl. decide_eqs. simpl. ring.
    - intros m Hm Hne Hin. apply Hreach in Hm.
      rewrite !elem_of_cons, elem_of_nil in Hm.
      destruct Hm as [-> | [-> | [-> | [-> | [-> | []]]]]];
        [ congruence
        | rewrite Hp_a in Hin; inversion Hin
        | destruct (Hp_nb _ Hin); lia
        | rewrite Hp_b in Hin; inversion Hin
        | rewrite Hp_m in Hin; inversion Hin ]. }
  split.
  - rewrite (flow_one_known h' h'' (S (S L)) (S (S L)) a 1 Hcons');
      [ | lia | exact Hbp | apply reach_root | exact Hg_r | ].
    + subst h' L. read_appended. simpl. decide_eqs. simpl. ring.
    + intros m Hm Hne Hin. apply Hreach in Hm.
      rewrite !elem_of_cons, elem_of_nil in Hm.
      destruct Hm as [-> | [-> | [-> | [-> | [-> | []]]]]];
        [ congruence
        | rewrite Hp_a in Hin; inversion Hin
        | destruct (Hp_nb _ Hin); subst L; lia
        | rewrite Hp_b in Hin; inversion Hin
        | rewrite Hp_m in Hin; inversion Hin ].
  - rewrite (flow_one_known h' h'' (S (S L)) (S L) b 1 Hcons');
      [ | lia | exact Hbp | | exact Hg_nb | ].
    + subst h' L. read_appended. simpl. decide_eqs. read_appended. simpl.
      ring.
    + eapply reach_operand; [apply reach_root|].
      subst h' L. read_appended. apply (py_set_elem Hset). right. left.
    + intros m Hm Hne Hin. apply Hreach in Hm.
      rewrite !elem_of_cons, elem_of_nil in Hm.
      destruct Hm as [-> | [-> | [-> | [-> | [-> | []]]]]];
        [ destruct (Hp_r _ Hin); subst L; lia
        | rewrite Hp_a in Hin; inversion Hin
        | congruence
        | rewrite Hp_b in Hin; inversion Hin
        | rewrite Hp_m in Hin; inversion Hin ].
Qed.

Lemma __rsub___Num (a : addr) (q : Q) (h : heap) :
  a < length h ->
  __rsub__ a (VNum q) h =
  Ok (VNode (S (S (S (length h)))),
      h ++ [ mkNode (-1) tag_empty 0 lambda_None (py_set []);
             mkNode (scalar_of h a * -1) tag_mul 0
               (mul_backward a (length h) (S (length h)))
               (py_set [a; length h]);
             mkNode q tag_empty 0 lambda_None (py_set []);
             mkNode (scalar_of h a * -1 + q) tag_add 0
               (add_backward (S (length h)) (S (S (length h)))
                  (S (S (S (length h)))))
               (py_set [S (length h); S (S (length h))]) ]).
Proof.
  intros Ha. unfold __rsub__, bind.
  rewrite py_neg_Node, (run_returning_Node _ _ _ _ (__neg___eq a h Ha)).
  rewrite py_add_Num_Node. unfold __radd__.
  match goal with
  | |- context [returning_Node _ ?h1] =>
      assert (Hlt : S (length h) < length h1)
        by (rewrite length_app; simpl; lia);
      rewrite (run_returning_Node _ _ _ _
                 (__add___lit (S (length h)) q h1 Hlt))
  end.
  rewrite length_app. simpl. rewrite <- app_assoc. simpl.
  replace (length h + 2) with (S (S (length h))) by lia.
  read_appended. reflexivity.
Qed.

(** X12: the reflected subtraction [q - a] for a number [q] and a node [a]
    appends four objects (the leaf -1, [a * -1], a leaf holding [q], and
    the sum); the result's scalar equals [q - a.scalar]; backward
    propagation from it subtracts 1 from [a.gradient]. *)
Theorem rsub_rule (h : heap) (a : addr) (q : Q) :
  constructed h -> a < length h ->
  exists h',
    __rsub__ a (VNum q) h = Ok (VNode (S (S (S (length h)))), h') /\
    length h' = length h + 4 /\
    (forall i n, h !! i = Some n -> h' !! i = Some n) /\
    (scalar_of h' (S (S (S (length h)))) == q - scalar_of h a)%Q /\
    exists h'',
      backward_propagation (S (S (S (length h)))) h' = Some h'' /\
      (gradient_of h'' a == gradient_of h a - 1)%Q.
Proof.
  intros Hcons Ha.
  pose proof (__rsub___Num a q h Ha) as Hrun.
  set (h' := h ++ _) in *.
  set (L := length h) in *.
  assert (Hcons' : constructed h')
    by (apply (constructed_call h (call_rsub a (VNum q)) _ h' Hcons
                 (conj Ha I) Hrun)).
  pose proof (constructed_wf Hset h' Hcons') as Hwf'.
  assert (Hlen : length h' = L + 4)
    by (subst h' L; rewrite length_app; simpl; lia).
  assert (Hp_m : previous_of h' L = [])
    by (subst h' L; read_appended; apply (py_set_nil Hset)).
  assert (Hp_l : previous_of h' (S (S L)) = [])
    by (subst h' L; read_appended; apply (py_set_nil Hset)).
  assert (Hp_ns : forall c, c ∈ previous_of h' (S L) -> c = a \/ c = L).
  { intros c. subst h' L. read_appended. intros Hc.
    apply (proj1 (py_set_elem Hset _ _)) in Hc.
    apply elem_of_cons in Hc as [-> | Hc]; [left; reflexivity|].
    apply list_elem_of_singleton in Hc. right. exact Hc. }
  assert (Hp_r : forall c, c ∈ previous_of h' (S (S (S L))) ->
                           c = S L \/ c = S (S L)).
  { intros c. subst h' L. read_appended. intros Hc.
    apply (proj1 (py_set_elem Hset _ _)) in Hc.
    apply elem_of_cons in Hc as [-> | Hc]; [left; reflexivity|].
    apply list_elem_of_singleton in Hc. right. exact Hc. }
  assert (Hreach : forall m, reachable h' (S (S (S L))) m ->
                             m ∈ [S (S (S L)); S L; S (S L); L] \/ m <= a).
  { intros m Hm. rewrite !elem_of_cons.
    apply reachable_inv in Hm as [-> | (c & Hc & Hm)]; [auto|].
    destruct (Hp_r c Hc) as [-> | ->].
    - apply reachable_inv in Hm as [-> | (d & Hd & Hm)]; [auto|].
      destruct (Hp_ns d Hd) as [-> | ->].
      + right. apply (reachable_le h' a m Hwf' Hm).
      + apply reachable_inv in Hm as [-> | (e & He & _)]; [auto 6|].
        rewrite Hp_m in He. inversion He.
    - apply reachable_inv in Hm as [-> | (e & He & _)]; [auto 6|].
      rewrite Hp_l in He. inversion He. }
  exists h'. split; [exact Hrun|]. split; [exact Hlen|].
  split; [intros i n Hi; apply lookup_app_l_Some, Hi|].
  split; [subst h' L; read_appended; ring|].
  destruct (backward_propagation_returns Hset h' (S (S (S L))) Hcons')
    as (h'' & Hbp); [lia|].
  exists h''. split; [exact Hbp|].
  assert (Hg_r : (gradient_of h'' (S (S (S L))) == 1)%Q)
    by (apply (flow_root Hset h' h'' _ Hcons'); [lia | exact Hbp]).
  assert (Hg_ns : (gradient_of h'' (S L) == 1)%Q).
  { rewrite (flow_one_known h' h'' (S (S (S L))) (S (S (S L))) (S L) 1
               Hcons'); [ | lia | exact Hbp | apply reach_root | exact Hg_r | ].
    - subst h' L. read_appended. simpl. decide_eqs. simpl. ring.
    - intros m Hm Hne Hin.
      destruct (Hreach m Hm) as [Hcase | Hle].
      + rewrite !elem_of_cons, elem_of_nil in Hcase.
        destruct Hcase as [-> | [-> | [-> | [-> | []]]]];
          [ congruence
          | destruct (Hp_ns _ Hin); lia
          | rewrite Hp_l in Hin; inversion Hin
          | rewrite Hp_m in Hin; inversion Hin ].
      + apply (proj1 (Hwf' m)) in Hin. lia. }
  rewrite (flow_one_known h' h'' (S (S (S L))) (S L) a 1 Hcons');
    [ | lia | exact Hbp | | exact Hg_ns | ].
  - subst h' L. read_appended. simpl. decide_eqs. read_appended. simpl.
    ring.
  - eapply reach_operand; [apply reach_root|].
    subst h' L. read_appended. apply (py_set_elem Hset). left.
  - intros m Hm Hne Hin.
    destruct (Hreach m Hm) as [Hcase | Hle].
    + rewrite !elem_of_cons, elem_of_nil in Hcase.
      destruct Hcase as [-> | [-> | [-> | [-> | []]]]];
        [ destruct (Hp_r _ Hin); subst L; lia
        | congruence
        | rewrite Hp_l in Hin; inversion Hin
        | rewrite Hp_m in Hin; inversion Hin ].
    + apply (proj1 (Hwf' m)) in Hin. lia.
Qed.

Lemma gradient_of_clear_other (ps : list addr) (h : heap) (x : addr) :
  x ∉ ps -> gradient_of (clear_gradient ps h) x = gradient_of h x.
Proof.
  unfold clear_gradient. revert h.
  induction ps as [|p ps IH]; intros h Hx; simpl; [reflexivity|].
  rewrite IH by (intros Hin; apply Hx; right; exact Hin).
  unfold gradient_of. rewrite list_lookup_total_alter_ne; [reflexivity|].
  intros ->. apply Hx. left.
Qed.

Lemma length_clear_gradient (ps : list addr) (h : heap) :
  length (clear_gradient ps h) = length h.
Proof. apply (proj1 (same_graph_clear_gradient ps h)). Qed.

Lemma gradient_of_clear_param (ps : list addr) (h : heap) (x : addr) :
  x ∈ ps -> x < length h -> gradient_of (clear_gradient ps h) x = 0%Q.
Proof.
  revert h. induction ps as [|p ps IH]; intros h Hx Hlen; [inversion Hx|].
  change (clear_gradient (p :: ps) h)
    with (clear_gradient ps (alter (set_gradient 0) p h)).
  destruct (decide (x ∈ ps)) as [Hin | Hnin].
  - apply IH; [exact Hin | rewrite length_alter; exact Hlen].
  - rewrite gradient_of_clear_other by exact Hnin.
    apply elem_of_cons in Hx as [-> | Hx]; [|contradiction].
    unfold gradient_of. rewrite list_lookup_total_alter_eq by exact Hlen.
    reflexivity.
Qed.

(** One pass from a product of two distinct operand-free nodes. *)
Lemma pass_over_product (k k' : heap) (a b r : addr) :
  constructed k -> r < length k -> a < r -> b < r -> a <> b ->
  backward_of k r = mul_backward a b r ->
  (forall c, c ∈ previous_of k r -> c = a \/ c = b) ->
  previous_of k a = [] -> previous_of k b = [] ->
  backward_propagation r k = Some k' ->
  (gradient_of k' a == gradient_of k a + scalar_of k b)%Q /\
  (gradient_of k' b == gradient_of k b + scalar_of k a)%Q.
Proof.
  intros Hcons Hr Har Hbr Hab Hbw Hprev Hpa Hpb Hbp.
  split.
  - rewrite (flow_from_root Hset k k' r a Hcons Hr ltac:(lia) Hbp).
    + rewrite Hbw. simpl. decide_eqs. simpl. ring.
    + intros c Hc. destruct (Hprev c Hc) as [-> | ->]; [left; lia | auto].
  - rewrite (flow_from_root Hset k k' r b Hcons Hr ltac:(lia) Hbp).
    + rewrite Hbw. simpl. decide_eqs. simpl. ring.
    + intros c Hc. destruct (Hprev c Hc) as [-> | ->]; [auto | left; lia].
Qed.

(** X13: gradients are not reset between passes.  For [r = a * b] over
    distinct leaves, a first pass from [r] adds [b.scalar] to [a.gradient]
    and [a.scalar] to [b.gradient]; a second pass from the same [r] adds
    the same amounts again; after [clear_gradient] of [a] and [b], a pass
    leaves exactly [b.scalar] and [a.scalar]. *)
Theorem passes_accumulate (h : heap) (a b : addr) :
  constructed h -> leaf h a -> leaf h b -> a <> b ->
  exists h' h1 h2 h3,
    __mul__ a (VNode b) h = Ok (length h, h') /\
    backward_propagation (length h) h' = Some h1 /\
    (gradient_of h1 a == gradient_of h a + scalar_of h b)%Q /\
    (gradient_of h1 b == gradient_of h b + scalar_of h a)%Q /\
    backward_propagation (length h) h1 = Some h2 /\
    (gradient_of h2 a == gradient_of h a + 2 * scalar_of h b)%Q /\
    (gradient_of h2 b == gradient_of h b + 2 * scalar_of h a)%Q /\
    backward_propagation (length h) (clear_gradient [a; b] h1) = Some h3 /\
    (gradient_of h3 a == scalar_of h b)%Q /\
    (gradient_of h3 b == scalar_of h a)%Q.
Proof.
  intros Hcons (Ha & Hpa & _) (Hb & Hpb & _) Hab.
  pose proof (__mul___Node a b h) as Hrun.
  set (h' := h ++ _) in *.
  set (r := length h) in *.
  assert (Hcons' : constructed h').
  { apply (constructed_call h (call_mul a (VNode b)) (VNode r) h'
             Hcons (conj Ha Hb)).
    apply run_returning_Node, Hrun. }
  assert (Hr : r < length h')
    by (subst h' r; rewrite length_app; simpl; lia).
  assert (Hbw : backward_of h' r = mul_backward a b r)
    by (subst h' r; read_appended; reflexivity).
  assert (Hprev : forall c, c ∈ previous_of h' r -> c = a \/ c = b).
  { intros c. subst h' r. read_appended. intros Hc.
    apply (proj1 (py_set_elem Hset _ _)) in Hc.
    apply elem_of_cons in Hc as [-> | Hc]; [left; reflexivity|].
    apply list_elem_of_singleton in Hc. right. exact Hc. }
  assert (Hpa' : previous_of h' a = [])
    by (subst h' r; read_appended; exact Hpa).
  assert (Hpb' : previous_of h' b = [])
    by (subst h' r; read_appended; exact Hpb).
  assert (Hsa : scalar_of h' a = scalar_of h a)
    by (subst h' r; read_appended; reflexivity).
  assert (Hsb : scalar_of h' b = scalar_of h b)
    by (subst h' r; read_appended; reflexivity).
  assert (Hga : gradient_of h' a = gradient_of h a)
    by (subst h' r; read_appended; reflexivity).
  assert (Hgb : gradient_of h' b = gradient_of h b)
    by (subst h' r; read_appended; reflexivity).
  destruct (backward_propagation_returns Hset h' r Hcons' Hr)
    as (h1 & Hbp1).
  pose proof (same_graph_backward_propagation r h' h1 Hbp1) as Hsg1.
  assert (Hcons1 : constructed h1)
    by (apply (constructed_backward h' r h1 Hcons' Hr Hbp1)).
  assert (Hr1 : r < length h1) by (rewrite (proj1 Hsg1); exact Hr).
  destruct (backward_propagation_returns Hset h1 r Hcons1 Hr1)
    as (h2 & Hbp2).
  set (hc := clear_gradient [a; b] h1).
  pose proof (same_graph_clear_gradient [a; b] h1) as Hsgc. fold hc in Hsgc.
  assert (Hconsc : constructed hc) by (apply constructed_clear, Hcons1).
  assert (Hrc : r < length hc) by (rewrite (proj1 Hsgc); exact Hr1).
  destruct (backward_propagation_returns Hset hc r Hconsc Hrc)
    as (h3 & Hbp3).
  destruct (pass_over_product h' h1 a b r Hcons' Hr Ha Hb Hab Hbw Hprev
              Hpa' Hpb' Hbp1) as (E1a & E1b).
  destruct (pass_over_product h1 h2 a b r Hcons1 Hr1 Ha Hb Hab)
    as (E2a & E2b);
    [ rewrite (same_graph_backward_of h' h1) by exact Hsg1; exact Hbw
    | intros c; rewrite (same_graph_previous_of h' h1) by exact Hsg1;
      apply Hprev
    | rewrite (same_graph_previous_of h' h1) by exact Hsg1; exact Hpa'
    | rewrite (same_graph_previous_of h' h1) by exact Hsg1; exact Hpb'
    | exact Hbp2 | ].
  assert (Hsgc' : same_graph h' hc)
    by (eapply same_graph_trans; eassumption).
  destruct (pass_over_product hc h3 a b r Hconsc Hrc Ha Hb Hab)
    as (E3a & E3b);
    [ rewrite (same_graph_backward_of h' hc) by exact Hsgc'; exact Hbw
    | intros c; rewrite (same_graph_previous_of h' hc) by exact Hsgc';
      apply Hprev
    | rewrite (same_graph_previous_of h' hc) by exact Hsgc'; exact Hpa'
    | rewrite (same_graph_previous_of h' hc) by exact Hsgc'; exact Hpb'
    | exact Hbp3 | ].
  rewrite (same_graph_scalar_of h' h1) in E2a, E2b by exact Hsg1.
  rewrite (same_graph_scalar_of h' hc) in E3a, E3b by exact Hsgc'.
  unfold hc in E3a, E3b.
  rewrite gradient_of_clear_param in E3a
    by (first [left | rewrite (proj1 Hsg1); lia]).
  rewrite gradient_of_clear_param in E3b
    by (first [right; left | rewrite (proj1 Hsg1); lia]).
  rewrite Hsa, Hsb, ?Hga, ?Hgb in *.
  exists h', h1, h2, h3.
  split; [exact Hrun|]. split; [exact Hbp1|].
  split; [exact E1a|]. split; [exact E1b|]. split; [exact Hbp2|].
  split; [rewrite E2a, E1a; ring|]. split; [rewrite E2b, E1b; ring|].
  split; [exact Hbp3|].
  split; [rewrite E3a; ring | rewrite E3b; ring].
Qed.

(** X14: backward propagation from a leaf sets the gradient of that leaf to
    1 and changes nothing else in the store. *)
Theorem backward_from_leaf (h : heap) (a : addr) :
  constructed h -> leaf h a ->
  backward_propagation a h = Some (alter (set_gradient 1) a h).
Proof.
  intros Hcons (Ha & Hpa & Hba).
  rewrite (backward_propagation_over_leaves h a
             (constructed_wf Hset h Hcons) Ha).
  - rewrite Hba. reflexivity.
  - intros c Hc. rewrite Hpa in Hc. inversion Hc.
Qed.
End Derived.

(** ** The network layer *)

Section Network.

Context {rt : Runtime}.

Lemma __mul___value (self : addr) (b : value) (h : heap) :
  self < length h -> live h b ->
  exists r k,
    __mul__ self b h = Ok (r, h ++ k) /\ r < length (h ++ k) /\
    scalar_of (h ++ k) r = (scalar_of h self * operand_scalar h b)%Q.
Proof.
  intros Hself Hb. destruct b as [q | b]; simpl in Hb.
  - rewrite __mul___Num, __mul___Node. eexists _, [_; _].
    rewrite <- app_assoc. simpl. split; [reflexivity|].
    rewrite !length_app. simpl. split; [lia|].
    change (h ++ [?x; ?y]) with (h ++ [x] ++ [y]). rewrite app_assoc.
    replace (length h + 1) with (length (h ++ [mkNode q tag_empty 0 lambda_None (py_set [])]))
      by (rewrite length_app; reflexivity).
    rewrite scalar_of_new. simpl.
    rewrite scalar_of_old by exact Hself. rewrite scalar_of_new. reflexivity.
  - rewrite __mul___Node. eexists _, [_]. split; [reflexivity|].
    rewrite length_app. simpl. split; [lia|].
    rewrite scalar_of_new. reflexivity.
Qed.

Lemma __add___value (self : addr) (b : value) (h : heap) :
  self < length h -> live h b ->
  exists r k,
    __add__ self b h = Ok (r, h ++ k) /\ r < length (h ++ k) /\
    scalar_of (h ++ k) r = (scalar_of h self + operand_scalar h b)%Q.
Proof.
  intros Hself Hb. destruct b as [q | b]; simpl in Hb.
  - rewrite __add___Num, __add___Node. eexists _, [_; _].
    rewrite <- app_assoc. simpl. split; [reflexivity|].
    rewrite !length_app. simpl. split; [lia|].
    change (h ++ [?x; ?y]) with (h ++ [x] ++ [y]). rewrite app_assoc.
    replace (length h + 1) with (length (h ++ [mkNode q tag_empty 0 lambda_None (py_set [])]))
      by (rewrite length_app; reflexivity).
    rewrite scalar_of_new. simpl.
    rewrite scalar_of_old by exact Hself. rewrite scalar_of_new. reflexivity.
  - rewrite __add___Node. eexists _, [_]. split; [reflexivity|].
    rewrite length_app. simpl. split; [lia|].
    rewrite scalar_of_new. reflexivity.
Qed.

Lemma operand_scalar_old (h k : heap) (v : value) :
  live h v -> operand_scalar (h ++ k) v = operand_scalar h v.
Proof. destruct v as [q | a]; simpl; [reflexivity | apply scalar_of_old]. Qed.

Lemma live_pair_old (h k : heap) (p : addr * value) :
  live_pair h p -> live_pair (h ++ k) p.
Proof.
  intros [H1 H2]. split.
  - rewrite length_app. lia.
  - apply (live_weaken h); [apply prefix_app_r; reflexivity | exact H2].
Qed.

Lemma weighted_old (h k : heap) (pairs : list (addr * value)) :
  Forall (live_pair h) pairs -> weighted (h ++ k) pairs = weighted h pairs.
Proof.
  unfold weighted. induction 1 as [|p pairs [Hw Hx] _ IH]; [reflexivity|].
  rewrite !fmap_cons. unfold Qsum in *. simpl foldr.
  rewrite scalar_of_old by exact Hw.
  rewrite operand_scalar_old by exact Hx.
  rewrite IH. reflexivity.
Qed.

Lemma weighted_sum_value (pairs : list (addr * value)) :
  forall (acc : addr) (h : heap),
    acc < length h -> Forall (live_pair h) pairs ->
    exists r k,
      Neuron.weighted_sum pairs acc h = Ok (r, h ++ k) /\
      r < length (h ++ k) /\
      (scalar_of (h ++ k) r == scalar_of h acc + weighted h pairs)%Q.
Proof.
  induction pairs as [|[wi xi] rest IH]; intros acc h Hacc Hlive.
  - exists acc, []. rewrite app_nil_r. split; [reflexivity|].
    split; [exact Hacc|]. change (weighted h []) with 0%Q. ring.
  - apply Forall_cons in Hlive as [[Hw Hx] Hrest]. simpl in Hw, Hx.
    destruct (__mul___value wi xi h Hw Hx) as (p & k1 & E1 & Hp & Sp).
    destruct (__add___value acc (VNode p) (h ++ k1)) as (a & k2 & E2 & Ha & Sa);
      [rewrite length_app; lia | exact Hp |].
    destruct (IH a ((h ++ k1) ++ k2) Ha) as (r & k3 & E3 & Hr & Sr).
    { rewrite <- app_assoc.
      eapply Forall_impl; [exact Hrest|]. intros q. apply live_pair_old. }
    exists r, (k1 ++ k2 ++ k3).
    rewrite !app_assoc. split.
    + simpl. unfold bind. rewrite E1, E2. exact E3.
    + split; [exact Hr|]. rewrite Sr, Sa. simpl operand_scalar.
      rewrite Sp. rewrite (scalar_of_old h k1 acc Hacc).
      rewrite <- app_assoc, (weighted_old h (k1 ++ k2) rest Hrest).
      change (weighted h ((wi, xi) :: rest))
        with (scalar_of h wi * operand_scalar h xi + weighted h rest)%Q.
      ring.
Qed.

Lemma live_pairs_zip (h : heap) (ws : list addr) (xs : list value) :
  live_addrs h ws -> Forall (live h) xs -> Forall (live_pair h) (zip ws xs).
Proof.
  intros Hw. revert xs. induction Hw as [|wi ws Hwi _ IH]; intros xs Hx.
  - constructor.
  - destruct Hx as [|xi xs Hxi Hxs]; [constructor|].
    simpl. constructor; [split; assumption | apply IH, Hxs].
Qed.


Lemma zip_take_lengths {A B} (l : list A) (k : list B) :
  zip (take (length k) l) (take (length l) k) = zip l k.
Proof.
  revert k. induction l as [|a l IH]; intros [|b k]; simpl; try reflexivity.
  rewrite IH. reflexivity.
Qed.

(** X15: a neuron called on a list of live operands returns; it only
    appends to the store, and the scalar of the node it returns equals the
    bias's scalar plus the sum of [wi.scalar * xi] over the pairs of
    [zip(self.w, x)], passed through [max(0, .)] when the neuron is
    non-linear. *)
Theorem neuron_forward_value (n : Neuron.t) (xs : list value) (h : heap) :
  Neuron.b n < length h -> live_addrs h (Neuron.w n) -> Forall (live h) xs ->
  exists r k,
    Neuron.__call__ n (many xs) h = Ok (r, h ++ k) /\
    r < length (h ++ k) /\
    (scalar_of (h ++ k) r ==
       let a := scalar_of h (Neuron.b n) + weighted h (zip (Neuron.w n) xs) in
       if Neuron.non_linear n then Qmax 0 a else a)%Q.
Proof.
  intros Hb Hw Hx.
  destruct (weighted_sum_value (zip (Neuron.w n) xs) (Neuron.b n) h Hb
              (live_pairs_zip h _ _ Hw Hx)) as (a & k & E & Ha & Sa).
  unfold Neuron.__call__, bind. rewrite E.
  destruct (Neuron.non_linear n).
  - rewrite relu_eq. eexists _, (k ++ [_]). rewrite app_assoc.
    split; [reflexivity|]. split; [rewrite (length_app (h ++ k)); simpl; lia|].
    rewrite scalar_of_new. simpl scalar. rewrite relu_value.
    cbv zeta. rewrite Sa. reflexivity.
  - exists a, k. split; [reflexivity|]. split; [exact Ha | exact Sa].
Qed.

(** X16: a neuron does not check dimensions.  Called on something that is
    not a list it raises [TypeError]; called on a list it uses only the
    first [min(len(self.w), len(x))] weights and inputs, the others are
    ignored; and a linear neuron with no weight or no input returns its
    bias object itself and leaves the store as it is. *)
Theorem neuron_no_dimension_check (n : Neuron.t) (xs : list value)
    (v : value) (h : heap) :
  Neuron.__call__ n (one v) h = Raise TypeError /\
  Neuron.__call__ n (many xs) h
  = Neuron.__call__
      (Neuron.mk (take (length xs) (Neuron.w n)) (Neuron.b n)
         (Neuron.non_linear n))
      (many (take (length (Neuron.w n)) xs)) h /\
  (Neuron.non_linear n = false -> Neuron.w n = [] \/ xs = [] ->
   Neuron.__call__ n (many xs) h = Ok (Neuron.b n, h)).
Proof.
  split; [reflexivity|]. split.
  - unfold Neuron.__call__. simpl. rewrite zip_take_lengths. reflexivity.
  - intros Hnl Hempty. unfold Neuron.__call__, bind. rewrite Hnl.
    destruct Hempty as [-> | ->]; [reflexivity|].
    destruct (Neuron.w n); reflexivity.
Qed.

End Network.

Section NetworkBuilder.

Context {rt : Runtime}.
Variable Inv : heap -> Prop.
Hypothesis Inv_leaf : forall (h : heap) (q : Q),
  Inv h -> Inv (h ++ [mkNode q tag_empty 0 lambda_None (py_set [])]).
Hypothesis Inv_add : forall (h : heap) (s b : addr),
  Inv h -> s < length h -> b < length h ->
  Inv (h ++ [mkNode (scalar_of h s + scalar_of h b) tag_add 0
             (add_backward s b (length h)) (py_set [s; b])]).
Hypothesis Inv_mul : forall (h : heap) (s b : addr),
  Inv h -> s < length h -> b < length h ->
  Inv (h ++ [mkNode (scalar_of h s * scalar_of h b) tag_mul 0
             (mul_backward s b (length h)) (py_set [s; b])]).
Hypothesis Inv_relu : forall (h : heap) (s : addr),
  Inv h -> s < length h ->
  Inv (h ++ [mkNode (if Qltb (scalar_of h s) 0 then 0 else scalar_of h s)
             tag_ReLU 0 (relu_backward s (length h)) (py_set [s])]).

Lemma live_pair_weaken (h h' : heap) (p : addr * value) :
  h `prefix_of` h' -> live_pair h p -> live_pair h' p.
Proof. intros [k ->]. apply live_pair_old. Qed.

Lemma live_addr_weaken (h h' : heap) (a : addr) :
  h `prefix_of` h' -> live_addr h a -> live_addr h' a.
Proof. intros Hp. apply prefix_length in Hp. unfold live_addr. lia. Qed.

Lemma live_addrs_weaken (h h' : heap) (l : list addr) :
  h `prefix_of` h' -> live_addrs h l -> live_addrs h' l.
Proof.
  intros Hp Hl. eapply Forall_impl; [exact Hl|].
  intros a. apply live_addr_weaken, Hp.
Qed.

Lemma live_arg_weaken (h h' : heap) (x : arg) :
  h `prefix_of` h' -> live_arg h x -> live_arg h' x.
Proof.
  intros Hp. destruct x as [v | xs]; simpl.
  - apply live_weaken, Hp.
  - intros Hxs. eapply Forall_impl; [exact Hxs|].
    intros v. apply live_weaken, Hp.
Qed.

Lemma keeps_weighted_sum (pairs : list (addr * value)) :
  forall (acc : addr) (h : heap),
    Inv h -> acc < length h -> Forall (live_pair h) pairs ->
    keeps Inv live_addr (Neuron.weighted_sum pairs acc) h.
Proof.
  induction pairs as [|[wi xi] rest IH]; intros acc h HI Hacc Hlive.
  - intros r h' [= <- <-]. split; [exact HI|]. split; [reflexivity | exact Hacc].
  - apply Forall_cons in Hlive as [[Hw Hx] Hrest]. simpl in Hw, Hx.
    simpl Neuron.weighted_sum.
    eapply keeps_bind;
      [apply (keeps___mul__ Inv Inv_leaf Inv_mul); assumption|].
    intros p h1 E1.
    destruct (keeps___mul__ Inv Inv_leaf Inv_mul wi xi h HI Hw Hx p h1 E1)
      as (HI1 & Hp1 & Hp).
    pose proof (prefix_length _ _ Hp1) as Hlen1.
    eapply keeps_bind;
      [apply (keeps___add__ Inv Inv_leaf Inv_add);
       [exact HI1 | lia | exact Hp]|].
    intros a h2 E2.
    destruct (keeps___add__ Inv Inv_leaf Inv_add acc (VNode p) h1 HI1
                ltac:(lia) Hp a h2 E2) as (HI2 & Hp2 & Ha).
    apply IH; [exact HI2 | exact Ha |].
    eapply Forall_impl; [exact Hrest|]. intros q.
    apply live_pair_weaken. etransitivity; eassumption.
Qed.

Lemma keeps_Neuron_call (n : Neuron.t) (x : arg) (h : heap) :
  Inv h -> live_addrs h (Neuron.parameters n) -> live_arg h x ->
  keeps Inv live_addr (Neuron.__call__ n x) h.
Proof.
  intros HI Hn Hx. apply Forall_app in Hn as [Hw Hb].
  rewrite Forall_singleton in Hb.
  destruct x as [v | xs]; [intros r h' Hr; discriminate|].
  unfold Neuron.__call__.
  eapply keeps_bind;
    [apply keeps_weighted_sum;
     [exact HI | exact Hb | apply live_pairs_zip; assumption]|].
  intros a h1 E.
  destruct (keeps_weighted_sum _ _ h HI Hb (live_pairs_zip h _ _ Hw Hx)
              a h1 E) as (HI1 & Hp1 & Ha).
  destruct (Neuron.non_linear n).
  - apply (keeps_relu Inv Inv_relu); assumption.
  - intros r h' [= <- <-]. split; [exact HI1|]. split; [reflexivity | exact Ha].
Qed.

Lemma keeps_call_each (ns : list Neuron.t) (x : arg) :
  forall h : heap,
    Inv h -> Forall (fun n => live_addrs h (Neuron.parameters n)) ns ->
    live_arg h x ->
    keeps Inv live_addrs (Layer.call_each ns x) h.
Proof.
  induction ns as [|n ns IH]; intros h HI Hns Hx.
  - intros r h' [= <- <-]. split; [exact HI|].
    split; [reflexivity | constructor].
  - apply Forall_cons in Hns as [Hn Hns]. simpl Layer.call_each.
    intros rs h'. unfold bind.
    destruct (Neuron.__call__ n x h) as [[r h1]|e] eqn:E1; [|discriminate].
    destruct (keeps_Neuron_call n x h HI Hn Hx r h1 E1) as (HI1 & Hp1 & Hr).
    destruct (Layer.call_each ns x h1) as [[rs' h2]|e] eqn:E2; [|discriminate].
    intros [= <- <-].
    destruct (IH h1 HI1) with (r := rs') (h' := h2) as (HI2 & Hp2 & Hrs).
    { eapply Forall_impl; [exact Hns|]. intros m.
      apply live_addrs_weaken, Hp1. }
    { apply (live_arg_weaken h); assumption. }
    { exact E2. }
    split; [exact HI2|]. split; [etransitivity; eassumption|].
    constructor; [apply (live_addr_weaken h1); assumption | exact Hrs].
Qed.

Lemma live_arg_nodes (h : heap) (rs : list addr) :
  live_addrs h rs -> live_arg h (many (VNode <$> rs)).
Proof.
  intros H. simpl. rewrite Forall_fmap. eapply Forall_impl; [exact H|].
  intros a Ha. exact Ha.
Qed.

Lemma keeps_Layer_call (l : Layer.t) (x : arg) (h : heap) :
  Inv h -> live_addrs h (Layer.parameters l) -> live_arg h x ->
  keeps Inv live_arg (Layer.__call__ l x) h.
Proof.
  intros HI Hl Hx y h'. unfold Layer.__call__, bind.
  destruct (Layer.call_each (Layer.neurons l) x h) as [[rs h1]|e] eqn:E;
    [|discriminate].
  intros [= <- <-].
  destruct (keeps_call_each (Layer.neurons l) x h HI) with (r := rs) (h' := h1)
    as (HI1 & Hp1 & Hrs); [| exact Hx | exact E |].
  { unfold Layer.parameters, live_addrs in Hl.
    rewrite Forall_concat, Forall_fmap in Hl. exact Hl. }
  split; [exact HI1|]. split; [exact Hp1|].
  destruct rs as [|r [|r' rs]]; [constructor | | apply live_arg_nodes, Hrs].
  unfold live_addrs in Hrs. rewrite Forall_singleton in Hrs. exact Hrs.
Qed.

Lemma keeps_call_layers (ls : list Layer.t) :
  forall (x : arg) (h : heap),
    Inv h -> Forall (fun l => live_addrs h (Layer.parameters l)) ls ->
    live_arg h x ->
    keeps Inv live_arg (MLP.call_layers ls x) h.
Proof.
  induction ls as [|l ls IH]; intros x h HI Hls Hx.
  - intros r h' [= <- <-]. split; [exact HI|]. split; [reflexivity | exact Hx].
  - apply Forall_cons in Hls as [Hl Hls]. simpl MLP.call_layers.
    eapply keeps_bind; [apply keeps_Layer_call; assumption|].
    intros y h1 E.
    destruct (keeps_Layer_call l x h HI Hl Hx y h1 E) as (HI1 & Hp1 & Hy).
    apply IH; [exact HI1 | | exact Hy].
    eapply Forall_impl; [exact Hls|]. intros m.
    apply live_addrs_weaken, Hp1.
Qed.

Lemma keeps_MLP_call (m : MLP.t) (x : arg) (h : heap) :
  Inv h -> live_addrs h (MLP.parameters m) -> live_arg h x ->
  keeps Inv live_arg (MLP.__call__ m x) h.
Proof.
  intros HI Hm Hx. apply keeps_call_layers; [exact HI | | exact Hx].
  unfold MLP.parameters, live_addrs in Hm.
  rewrite Forall_concat, Forall_fmap in Hm. exact Hm.
Qed.

End NetworkBuilder.


(** ** Calling a network *)

Section NetworkCalls.

Context {rt : Runtime}.

Lemma __mul___returns (self : addr) (b : value) (h : heap) :
  exists r h', __mul__ self b h = Ok (r, h').
Proof.
  destruct b as [q | b]; [rewrite __mul___Num|]; rewrite __mul___Node;
    eexists _, _; reflexivity.
Qed.

Lemma weighted_sum_returns (pairs : list (addr * value)) :
  forall (acc : addr) (h : heap),
    exists r h', Neuron.weighted_sum pairs acc h = Ok (r, h').
Proof.
  induction pairs as [|[wi xi] rest IH]; intros acc h.
  - exists acc, h. reflexivity.
  - destruct (__mul___returns wi xi h) as (p & h1 & E1).
    simpl. unfold bind. rewrite E1, __add___Node. apply IH.
Qed.

Lemma Neuron_call_returns (n : Neuron.t) (xs : list value) (h : heap) :
  exists r h', Neuron.__call__ n (many xs) h = Ok (r, h').
Proof.
  destruct (weighted_sum_returns (zip (Neuron.w n) xs) (Neuron.b n) h)
    as (a & h1 & E).
  unfold Neuron.__call__, bind. rewrite E.
  destruct (Neuron.non_linear n); [rewrite relu_eq|]; eexists _, _; reflexivity.
Qed.

Lemma call_each_returns (ns : list Neuron.t) (xs : list value) :
  forall h : heap,
    exists rs h',
      Layer.call_each ns (many xs) h = Ok (rs, h') /\ length rs = length ns.
Proof.
  induction ns as [|n ns IH]; intros h.
  - exists [], h. split; reflexivity.
  - destruct (Neuron_call_returns n xs h) as (r & h1 & E1).
    destruct (IH h1) as (rs & h2 & E2 & Hlen).
    exists (r :: rs), h2. cbn [Layer.call_each]. unfold bind. rewrite E1, E2.
    split; [reflexivity | simpl; congruence].
Qed.

Lemma Layer_call_many (l : Layer.t) (xs : list value) (h : heap) :
  exists y h',
    Layer.__call__ l (many xs) h = Ok (y, h') /\
    layer_shape (length (Layer.neurons l)) y.
Proof.
  destruct (call_each_returns (Layer.neurons l) xs h) as (rs & h1 & E & Hlen).
  unfold Layer.__call__, bind. rewrite E. eexists _, _.
  split; [reflexivity|]. unfold layer_shape. rewrite <- Hlen.
  destruct rs as [|r [|r' rs]]; simpl.
  - exists []. split; reflexivity.
  - exists r. reflexivity.
  - exists (r :: r' :: rs). split; reflexivity.
Qed.

Lemma Layer_call_one (l : Layer.t) (v : value) (h : heap) :
  Layer.__call__ l (one v) h
  = match Layer.neurons l with
    | [] => Ok (many [], h)
    | _ :: _ => Raise TypeError
    end.
Proof.
  unfold Layer.__call__, bind. destruct (Layer.neurons l); reflexivity.
Qed.

Lemma layer_shape_is_many (n : nat) (y : arg) :
  layer_shape n y -> is_many y = negb (n =? 1).
Proof.
  unfold layer_shape. destruct (n =? 1).
  - intros (r & ->). reflexivity.
  - intros (rs & -> & _). reflexivity.
Qed.

Lemma call_layers_returns_or_raises (ls : list Layer.t) :
  forall (x : arg) (h : heap),
    let ws := (fun l => length (Layer.neurons l)) <$> ls in
    (chains (is_many x) ws = true ->
     exists y h',
       MLP.call_layers ls x h = Ok (y, h') /\
       match last ws with
       | None => y = x
       | Some n => layer_shape n y
       end) /\
    (chains (is_many x) ws = false ->
     MLP.call_layers ls x h = Raise TypeError).
Proof.
  induction ls as [|l ls IH]; intros x h; cbn zeta.
  - split; [|discriminate]. intros _. exists x, h. split; reflexivity.
  - rewrite fmap_cons. simpl chains. simpl MLP.call_layers. unfold bind.
    destruct x as [v | xs]; simpl is_many.
    + rewrite Layer_call_one.
      destruct (Layer.neurons l) as [|n ns] eqn:En; simpl length.
      * simpl. destruct (IH (many []) h) as [Hok Hraise]. split.
        -- intros Hc. destruct (Hok Hc) as (y & h' & E & Hy).
           exists y, h'. split; [exact E|].
           destruct ls as [|l' ls'];
             [|rewrite !fmap_cons in *; cbn [last] in *;
               destruct (last _) eqn:El;
               [exact Hy | apply last_None in El; discriminate]].
           simpl in *. subst y. exists []. split; reflexivity.
        -- exact Hraise.
      * simpl. split; [discriminate | reflexivity].
    + destruct (Layer_call_many l xs h) as (y & h1 & E & Hy). rewrite E.
      rewrite orb_true_l, andb_true_l.
      rewrite <- (layer_shape_is_many _ _ Hy).
      destruct (IH y h1) as [Hok Hraise]. split; [|exact Hraise].
      intros Hc. destruct (Hok Hc) as (z & h' & E' & Hz).
      exists z, h'. split; [exact E'|].
      destruct ls as [|l' ls'];
        [|rewrite !fmap_cons in *; cbn [last] in *;
          destruct (last _) eqn:El;
          [exact Hz | apply last_None in El; discriminate]].
      simpl in *. subst z. exact Hy.
Qed.

(** X17: when a network call returns and when it raises.  A layer with at
    least one neuron raises [TypeError] unless it is called on a list, and
    a layer of exactly one neuron returns that neuron's node, not a list.
    So a call of the network returns if no layer of width 1 is followed by
    a non-empty layer (and the input is a list or the first layer is
    empty), the result having the shape of the last layer; otherwise it
    raises [TypeError]. *)
Theorem MLP_call_returns_or_raises (m : MLP.t) (x : arg) (h : heap) :
  (chains (is_many x) (widths m) = true ->
   exists y h',
     MLP.__call__ m x h = Ok (y, h') /\
     match last (widths m) with
     | None => y = x
     | Some n => layer_shape n y
     end) /\
  (chains (is_many x) (widths m) = false ->
   MLP.__call__ m x h = Raise TypeError).
Proof. apply call_layers_returns_or_raises. Qed.


Lemma constructed_leaf (h : heap) (q : Q) :
  constructed h ->
  constructed (h ++ [mkNode q tag_empty 0 lambda_None (py_set [])]).
Proof.
  intros H.
  apply (constructed_call h (call_Node q) (VNode (length h)) _ H I).
  reflexivity.
Qed.

Lemma constructed_add (h : heap) (s b : addr) :
  constructed h -> s < length h -> b < length h ->
  constructed (h ++ [mkNode (scalar_of h s + scalar_of h b) tag_add 0
                       (add_backward s b (length h)) (py_set [s; b])]).
Proof.
  intros H Hs Hb.
  apply (constructed_call h (call_add s (VNode b)) (VNode (length h)) _ H
           (conj Hs Hb)).
  apply run_returning_Node, __add___Node.
Qed.

Lemma constructed_mul (h : heap) (s b : addr) :
  constructed h -> s < length h -> b < length h ->
  constructed (h ++ [mkNode (scalar_of h s * scalar_of h b) tag_mul 0
                       (mul_backward s b (length h)) (py_set [s; b])]).
Proof.
  intros H Hs Hb.
  apply (constructed_call h (call_mul s (VNode b)) (VNode (length h)) _ H
           (conj Hs Hb)).
  apply run_returning_Node, __mul___Node.
Qed.

Lemma constructed_relu (h : heap) (s : addr) :
  constructed h -> s < length h ->
  constructed
    (h ++ [mkNode (if Qltb (scalar_of h s) 0 then 0 else scalar_of h s)
             tag_ReLU 0 (relu_backward s (length h)) (py_set [s])]).
Proof.
  intros H Hs.
  apply (constructed_call h (call_relu s) (VNode (length h)) _ H Hs).
  apply run_returning_Node, relu_eq.
Qed.

(** X18: the network builds its output with the documented operations
    only: called in a constructed store on live parameters and a live
    input, it leaves a constructed store that extends the old one, and
    what it returns is live there. *)
Theorem network_call_constructed (m : MLP.t) (x y : arg) (h h' : heap) :
  constructed h -> live_addrs h (MLP.parameters m) -> live_arg h x ->
  MLP.__call__ m x h = Ok (y, h') ->
  constructed h' /\ h `prefix_of` h' /\ live_arg h' y.
Proof.
  intros Hc Hm Hx E.
  exact (keeps_MLP_call constructed constructed_leaf constructed_add
           constructed_mul constructed_relu m x h Hc Hm Hx y h' E).
Qed.

Lemma lookup_clear_gradient (ps : list addr) (h : heap) (i : addr) :
  clear_gradient ps h !! i
  = if decide (i ∈ ps) then set_gradient 0 <$> h !! i else h !! i.
Proof.
  unfold clear_gradient. revert h.
  induction ps as [|p ps IH]; intros h.
  - destruct (decide (i ∈ [])) as [H | _]; [inversion H | reflexivity].
  - cbn [foldl]. rewrite IH, list_lookup_alter.
    destruct (decide (i ∈ p :: ps)) as [Hin' | Hnin'];
      destruct (decide (i ∈ ps)) as [Hin | Hnin];
      destruct (decide (p = i)) as [<- | Hne];
      try reflexivity.
    + destruct (h !! p) as [[]|]; reflexivity.
    + apply elem_of_cons in Hin' as [-> | ?]; [congruence | contradiction].
    + exfalso. apply Hnin'. right. exact Hin.
    + exfalso. apply Hnin'. right. exact Hin.
    + exfalso. apply Hnin'. left.
Qed.

(** X19: [clear_gradient] changes gradients only; the gradient of every
    listed parameter becomes 0, also of one listed twice, the gradient of
    every other object stays, and clearing twice is clearing once. *)
Theorem clear_gradient_resets (ps : list addr) (h : heap) :
  same_graph h (clear_gradient ps h) /\
  (forall p, p ∈ ps -> p < length h ->
             gradient_of (clear_gradient ps h) p = 0%Q) /\
  (forall x, x ∉ ps ->
             gradient_of (clear_gradient ps h) x = gradient_of h x) /\
  clear_gradient ps (clear_gradient ps h) = clear_gradient ps h.
Proof.
  split; [apply same_graph_clear_gradient|].
  split; [intros p; apply gradient_of_clear_param|].
  split; [intros x; apply gradient_of_clear_other|].
  apply list_eq. intros i. rewrite !lookup_clear_gradient.
  destruct (decide (i ∈ ps)); [|reflexivity].
  destruct (h !! i) as [[]|]; reflexivity.
Qed.

End NetworkCalls.


(** ** Building a network *)

Section NetworkInit.

Context {rt : Runtime}.
Variable uniform : nat -> Q.

Lemma random_Nodes_eq (n : nat) :
  forall (k : nat) (h : heap),
    Neuron.random_Nodes uniform k n h
    = Ok (seq (length h) n, h ++ ((fun i => new_leaf (uniform i)) <$> seq k n)).
Proof.
  induction n as [|n IH]; intros k h.
  - simpl. rewrite app_nil_r. reflexivity.
  - cbn [Neuron.random_Nodes]. unfold bind, Node_init.
    rewrite IH. unfold ret. rewrite length_app, Nat.add_1_r.
    rewrite <- app_assoc. reflexivity.
Qed.

Lemma Neuron_init_eq (k n : nat) (nl : bool) (h : heap) :
  Neuron.__init__ uniform k n nl h
  = Ok (Neuron.mk (seq (length h) n) (length h + n) nl,
        h ++ ((fun i => new_leaf (uniform i)) <$> seq k n) ++ [new_leaf 0]).
Proof.
  unfold Neuron.__init__, bind. rewrite random_Nodes_eq.
  unfold Node_init, ret. rewrite length_app, length_fmap, length_seq.
  rewrite <- app_assoc. reflexivity.
Qed.

Lemma lookup_total_seq (l : list Node) :
  forall (h rest : heap),
    (fun a => (h ++ l ++ rest) !!! a) <$> seq (length h) (length l) = l.
Proof.
  induction l as [|x l IH]; intros h rest; [reflexivity|].
  cbn [length seq]. rewrite fmap_cons. f_equal.
  - apply list_lookup_total_middle. reflexivity.
  - specialize (IH (h ++ [x]) rest).
    rewrite length_app, Nat.add_1_r, <- app_assoc in IH. exact IH.
Qed.

Lemma constructed_new_leaves (ls : list Node) :
  forall h : heap,
    constructed h -> Forall is_new_leaf ls -> constructed (h ++ ls).
Proof.
  induction ls as [|x ls IH]; intros h Hc Hls.
  - rewrite app_nil_r. exact Hc.
  - apply Forall_cons in Hls as [[q ->] Hls].
    change (h ++ new_leaf q :: ls) with (h ++ [new_leaf q] ++ ls).
    rewrite app_assoc. apply IH; [|exact Hls].
    apply constructed_leaf, Hc.
Qed.

(** What one neuron's [__init__] gives, read in any later store. *)
Lemma Neuron_init_spec (k n : nat) (nl : bool) (h : heap) :
  exists neuron ls,
    Neuron.__init__ uniform k n nl h = Ok (neuron, h ++ ls) /\
    Neuron.parameters neuron = seq (length h) (length ls) /\
    length ls = n + 1 /\
    length (Neuron.w neuron) = n /\ Neuron.non_linear neuron = nl /\
    (forall rest,
       scalar_of (h ++ ls ++ rest) <$> Neuron.w neuron = uniform <$> seq k n) /\
    (forall rest, (h ++ ls ++ rest) !!! Neuron.b neuron = new_leaf 0) /\
    Forall is_new_leaf ls.
Proof.
  rewrite Neuron_init_eq. eexists _, _. split; [reflexivity|].
  assert (Hlen : length (((fun i => new_leaf (uniform i)) <$> seq k n)
                         ++ [new_leaf 0]) = n + 1).
  { rewrite length_app, length_fmap, length_seq. reflexivity. }
  split.
  { unfold Neuron.parameters. simpl. rewrite Hlen, Nat.add_1_r.
    rewrite seq_S. reflexivity. }
  split; [exact Hlen|].
  split; [simpl; apply length_seq|]. split; [reflexivity|].
  split; [|split].
  - intros rest. simpl Neuron.w. rewrite <- app_assoc.
    pose proof (lookup_total_seq ((fun i => new_leaf (uniform i)) <$> seq k n)
                  h ([new_leaf 0] ++ rest)) as H.
    rewrite length_fmap, length_seq in H.
    transitivity
      (scalar <$> ((fun a => (h ++ ((fun i => new_leaf (uniform i))
                                      <$> seq k n)
                              ++ [new_leaf 0] ++ rest) !!! a)
                     <$> seq (length h) n)).
    { rewrite <- list_fmap_compose. reflexivity. }
    rewrite H, <- list_fmap_compose. reflexivity.
  - intros rest. simpl Neuron.b. rewrite <- app_assoc, app_assoc.
    apply list_lookup_total_middle.
    rewrite length_app, length_fmap, length_seq. reflexivity.
  - apply Forall_app. split.
    + apply Forall_fmap, Forall_forall. intros i _. exists (uniform i).
      reflexivity.
    + apply Forall_singleton. exists 0%Q. reflexivity.
Qed.


Lemma new_neurons_spec (n_out : nat) :
  forall (k n_in : nat) (nl : bool) (h : heap),
    exists ns ls,
      Layer.new_neurons uniform k n_in n_out nl h = Ok (ns, h ++ ls) /\
      concat (Neuron.parameters <$> ns) = seq (length h) (length ls) /\
      length ls = n_out * (n_in + 1) /\
      (fun n => (length (Neuron.w n), Neuron.non_linear n)) <$> ns
      = replicate n_out (n_in, nl) /\
      (forall rest,
         scalar_of (h ++ ls ++ rest) <$> concat (Neuron.w <$> ns)
         = uniform <$> seq k (n_out * n_in)) /\
      (forall rest,
         Forall (fun b => (h ++ ls ++ rest) !!! b = new_leaf 0)
           (Neuron.b <$> ns)) /\
      Forall is_new_leaf ls.
Proof.
  induction n_out as [|n_out IH]; intros k n_in nl h.
  - exists [], []. rewrite app_nil_r. repeat split; try reflexivity;
      intros; constructor.
  - destruct (Neuron_init_spec k n_in nl h)
      as (n0 & l0 & E0 & P0 & L0 & W0 & NL0 & S0 & B0 & F0).
    destruct (IH (k + n_in) n_in nl (h ++ l0))
      as (ns & ls1 & E1 & P1 & L1 & Sh1 & S1 & B1 & F1).
    exists (n0 :: ns), (l0 ++ ls1).
    split.
    { cbn [Layer.new_neurons]. unfold bind. rewrite E0, E1, app_assoc.
      reflexivity. }
    split.
    { rewrite fmap_cons. cbn [concat]. rewrite P0, P1.
      rewrite !length_app, seq_app. reflexivity. }
    split; [rewrite length_app, L0, L1; simpl; lia|].
    split.
    { rewrite fmap_cons, W0, NL0, Sh1. reflexivity. }
    split; [|split].
    + intros rest. rewrite fmap_cons. cbn [concat].
      rewrite fmap_app, <- (app_assoc l0).
      rewrite (S0 (ls1 ++ rest)).
      specialize (S1 rest). rewrite <- app_assoc in S1. rewrite S1.
      change (S n_out * n_in) with (n_in + n_out * n_in).
      rewrite seq_app, fmap_app. reflexivity.
    + intros rest. rewrite fmap_cons, <- (app_assoc l0).
      constructor; [apply B0|].
      specialize (B1 rest). rewrite <- app_assoc in B1. exact B1.
    + apply Forall_app. split; assumption.
Qed.

Lemma Layer_weights_cons (l : Layer.t) (ls : list Layer.t) :
  weights (MLP.mk (l :: ls)) = Layer_weights l ++ weights (MLP.mk ls).
Proof. reflexivity. Qed.

Lemma new_layers_spec (n_outputs : list nat) :
  forall (k n_in : nat) (h : heap),
    exists layers ls,
      MLP.new_layers uniform k n_in n_outputs h = Ok (layers, h ++ ls) /\
      concat (Layer.parameters <$> layers) = seq (length h) (length ls) /\
      length ls = param_count n_in n_outputs /\
      shape (MLP.mk layers) = mlp_shape n_in n_outputs /\
      (forall rest,
         scalar_of (h ++ ls ++ rest) <$> weights (MLP.mk layers)
         = uniform <$> seq k (length (weights (MLP.mk layers)))) /\
      (forall rest,
         Forall (fun b => (h ++ ls ++ rest) !!! b = new_leaf 0)
           (biases (MLP.mk layers))) /\
      Forall is_new_leaf ls.
Proof.
  induction n_outputs as [|n_out outs IH]; intros k n_in h.
  - exists [], []. rewrite app_nil_r. repeat split; try reflexivity;
      intros; constructor.
  - destruct (new_neurons_spec n_out k n_in
                (match outs with [] => false | _ => true end) h)
      as (ns & l0 & E0 & P0 & L0 & Sh0 & S0 & B0 & F0).
    destruct (IH (k + n_out * n_in) n_out (h ++ l0))
      as (layers & ls1 & E1 & P1 & L1 & Sh1 & S1 & B1 & F1).
    assert (Hw : length (concat (Neuron.w <$> ns)) = n_out * n_in).
    { pose proof (f_equal length (S0 [])) as H.
      rewrite !length_fmap, length_seq in H. exact H. }
    exists (Layer.mk ns :: layers), (l0 ++ ls1).
    split.
    { cbn [MLP.new_layers]. unfold bind, Layer.__init__, bind.
      rewrite E0. unfold ret. rewrite E1, app_assoc. reflexivity. }
    split.
    { rewrite fmap_cons. cbn [concat]. unfold Layer.parameters at 1.
      cbn [Layer.neurons]. rewrite P0, P1.
      rewrite !length_app, seq_app. reflexivity. }
    split; [rewrite length_app, L0, L1; reflexivity|].
    split.
    { unfold shape in *. cbn [MLP.layers] in *. rewrite fmap_cons.
      cbn [Layer.neurons mlp_shape]. rewrite Sh0, Sh1. reflexivity. }
    split; [|split].
    + intros rest. rewrite Layer_weights_cons, length_app, fmap_app.
      change (Layer_weights (Layer.mk ns)) with (concat (Neuron.w <$> ns)).
      rewrite <- (app_assoc l0), (S0 (ls1 ++ rest)).
      specialize (S1 rest). rewrite <- app_assoc in S1. rewrite S1.
      rewrite Hw, seq_app, fmap_app. reflexivity.
    + intros rest. unfold biases. cbn [MLP.layers]. rewrite fmap_cons.
      cbn [concat Layer.neurons]. apply Forall_app. split.
      * rewrite <- (app_assoc l0). apply B0.
      * specialize (B1 rest). rewrite <- app_assoc in B1.
        rewrite <- (app_assoc l0). exact B1.
    + apply Forall_app. split; assumption.
Qed.

(** X20: [MLP(n_inputs, n_outputs)] never raises and only appends fresh
    leaves: one per weight and one per bias,
    [sum(n_outputs[i] * (net_dim[i] + 1))] in all.  [parameters()] lists
    exactly the new objects, each once, in the order of their creation;
    layer [i] has [n_outputs[i]] neurons of [net_dim[i]] weights, all
    non-linear except those of the last layer; the weights, read layer by
    layer, hold the successive draws of the generator and every bias is
    [Node(0)]; and the new store is one the documented operations
    reach. *)
Theorem MLP_init_parameters (k n_inputs : nat) (n_outputs : list nat)
    (h : heap) :
  exists m ls,
    MLP.__init__ uniform k n_inputs n_outputs h = Ok (m, h ++ ls) /\
    Forall is_new_leaf ls /\
    MLP.parameters m = seq (length h) (length ls) /\
    length ls = param_count n_inputs n_outputs /\
    shape m = mlp_shape n_inputs n_outputs /\
    scalar_of (h ++ ls) <$> weights m
    = uniform <$> seq k (length (weights m)) /\
    Forall (fun b => (h ++ ls) !!! b = new_leaf 0) (biases m) /\
    (constructed h -> constructed (h ++ ls)).
Proof.
  destruct (new_layers_spec n_outputs k n_inputs h)
    as (layers & ls & E & P & L & Sh & S & B & F).
  exists (MLP.mk layers), ls.
  split; [unfold MLP.__init__, bind; rewrite E; reflexivity|].
  split; [exact F|]. split; [exact P|]. split; [exact L|].
  split; [exact Sh|].
  split; [specialize (S []); rewrite app_nil_r in S; exact S|].
  split; [specialize (B []); rewrite app_nil_r in B; exact B|].
  intros Hc. apply constructed_new_leaves; assumption.
Qed.

End NetworkInit.


(** ** The gradients of a neuron *)

Section NeuronChain.

Context {rt : Runtime}.

Lemma chain_prev_shift (L acc i : nat) :
  chain_prev (S (S (S L))) (S (S L)) i = chain_prev L acc (S i).
Proof. destruct i; simpl; lia. Qed.

Lemma weighted_sum_chain (pairs : list (addr * Q)) :
  forall (acc : addr) (h : heap),
    acc < length h -> Forall (fun p => p.1 < length h) pairs ->
    exists k,
      Neuron.weighted_sum (prod_map id VNum <$> pairs) acc h
      = Ok (chain_prev (length h) acc (length pairs), h ++ k) /\
      length k = 3 * length pairs /\
      chain_at (h ++ k) (length h) acc pairs.
Proof.
  induction pairs as [|[w q] rest IH]; intros acc h Hacc Hlive.
  - exists []. rewrite app_nil_r. split; [reflexivity|].
    split; [reflexivity|]. intros i w q Hi. discriminate.
  - apply Forall_cons in Hlive as [Hw Hrest]. simpl in Hw.
    rewrite fmap_cons. cbn [prod_map fst snd id Neuron.weighted_sum].
    unfold bind. rewrite (__mul___lit w q h Hw), __add___Node.
    rewrite (length_app h), Nat.add_comm. cbn [length Nat.add].
    set (h2 := (h ++ _) ++ _).
    assert (Hlen2 : length h2 = S (S (S (length h)))).
    { subst h2. rewrite !length_app. simpl. lia. }
    destruct (IH (S (S (length h))) h2) as (k & E & Hk & Hchain).
    { lia. }
    { eapply Forall_impl; [exact Hrest|]. intros p Hp. simpl in *. lia. }
    rewrite E, Hlen2, (chain_prev_shift (length h) acc).
    subst h2. rewrite <- !app_assoc. cbn [app].
    eexists. split; [reflexivity|].
    split; [cbn [length]; rewrite Hk; lia|].
    intros i w' q' Hi. destruct i as [|i].
    + injection Hi as <- <-.
      replace (length h + 3 * 0) with (length h) by lia.
      replace (length h + 1) with (S (length h)) by lia.
      replace (length h + 2) with (S (S (length h))) by lia.
      rewrite appended_0, appended_1, appended_2. cbn [chain_prev].
      split; [reflexivity|]. split; eexists; reflexivity.
    + specialize (Hchain i w' q' Hi).
      rewrite Hlen2, (chain_prev_shift (length h) acc) in Hchain.
      rewrite <- !app_assoc in Hchain. cbn [app] in Hchain.
      replace (length h + 3 * S i) with (S (S (S (length h))) + 3 * i) by lia.
      exact Hchain.
Qed.

End NeuronChain.

Section ChainFlow.

Context {rt : Runtime}.
Hypothesis Hset : py_set_spec rt.

Variables (G G' : heap) (r L0 acc : addr) (pairs : list (addr * Q)) (d : Q).

Hypothesis Hcons : constructed G.
Hypothesis Hr : r < length G.
Hypothesis Hbp : backward_propagation r G = Some G'.
Hypothesis Hchain : chain_at G L0 acc pairs.
Hypothesis Hacc : acc < L0.
Hypothesis Hws : Forall (fun p => p.1 < L0) pairs.
Hypothesis Hleaf_acc : previous_of G acc = [].
Hypothesis Hleaf_ws : Forall (fun p => previous_of G p.1 = []) pairs.
Hypothesis Hnodup : NoDup (acc :: pairs.*1).
Hypothesis Htop_reach : reachable G r (chain_prev L0 acc (length pairs)).
Hypothesis Htop_grad :
  (gradient_of G' (chain_prev L0 acc (length pairs)) == d)%Q.
Hypothesis Hroot_top : chain_prev L0 acc (length pairs) <= r.
Hypothesis Hroot_new : L0 <= r.
Hypothesis Habove : forall m c,
  L0 + 3 * length pairs <= m -> c ∈ previous_of G m ->
  c = chain_prev L0 acc (length pairs).

Lemma chain_leaf (i : nat) (w : addr) (q : Q) :
  pairs !! i = Some (w, q) ->
  scalar_of G (L0 + 3 * i) = q /\ previous_of G (L0 + 3 * i) = [].
Proof.
  intros Hi. destruct (Hchain i w q Hi) as (H0 & _).
  unfold scalar_of, previous_of. rewrite H0. simpl.
  split; [reflexivity | apply (py_set_nil Hset)].
Qed.

Lemma chain_mul (i : nat) (w : addr) (q : Q) :
  pairs !! i = Some (w, q) ->
  previous_of G (L0 + 3 * i + 1) = py_set [w; L0 + 3 * i] /\
  backward_of G (L0 + 3 * i + 1)
  = mul_backward w (L0 + 3 * i) (L0 + 3 * i + 1) /\
  gradient_of G (L0 + 3 * i + 1) = 0%Q.
Proof.
  intros Hi. destruct (Hchain i w q Hi) as (_ & (s & H1) & _).
  unfold previous_of, backward_of, gradient_of. rewrite H1.
  repeat split.
Qed.

Lemma chain_add (i : nat) (w : addr) (q : Q) :
  pairs !! i = Some (w, q) ->
  previous_of G (L0 + 3 * i + 2)
  = py_set [chain_prev L0 acc i; L0 + 3 * i + 1] /\
  backward_of G (L0 + 3 * i + 2)
  = add_backward (chain_prev L0 acc i) (L0 + 3 * i + 1) (L0 + 3 * i + 2) /\
  gradient_of G (L0 + 3 * i + 2) = 0%Q.
Proof.
  intros Hi. destruct (Hchain i w q Hi) as (_ & _ & (s & H2)).
  unfold previous_of, backward_of, gradient_of. rewrite H2.
  repeat split.
Qed.

Lemma chain_decompose (m : addr) :
  L0 <= m -> m < L0 + 3 * length pairs ->
  exists i w q t, pairs !! i = Some (w, q) /\ t < 3 /\ m = L0 + 3 * i + t.
Proof.
  intros Hlo Hhi.
  assert (Hi : (m - L0) / 3 < length pairs).
  { apply Nat.Div0.div_lt_upper_bound. lia. }
  destruct (lookup_lt_is_Some_2 pairs _ Hi) as [[w q] Hp].
  exists ((m - L0) / 3), w, q, ((m - L0) mod 3).
  split; [exact Hp|].
  split; [apply Nat.mod_upper_bound; lia|].
  pose proof (Nat.div_mod_eq (m - L0) 3). lia.
Qed.

Lemma chain_operands (m n : addr) :
  L0 <= m -> n ∈ previous_of G m ->
  (exists i w q, pairs !! i = Some (w, q) /\ m = L0 + 3 * i + 1 /\
                 (n = w \/ n = L0 + 3 * i)) \/
  (exists i w q, pairs !! i = Some (w, q) /\ m = L0 + 3 * i + 2 /\
                 (n = chain_prev L0 acc i \/ n = L0 + 3 * i + 1)) \/
  (L0 + 3 * length pairs <= m /\ n = chain_prev L0 acc (length pairs)).
Proof.
  intros Hlo Hn.
  destruct (le_lt_dec (L0 + 3 * length pairs) m) as [Hge | Hlt].
  { right. right. split; [exact Hge | apply (Habove m n Hge Hn)]. }
  destruct (chain_decompose m Hlo Hlt) as (i & w & q & t & Hi & Ht & ->).
  destruct t as [|[|[|t]]]; [| | | lia].
  - rewrite Nat.add_0_r in Hn.
    rewrite (proj2 (chain_leaf i w q Hi)) in Hn. inversion Hn.
  - left. exists i, w, q. split; [exact Hi|]. split; [reflexivity|].
    rewrite (proj1 (chain_mul i w q Hi)) in Hn.
    apply (proj1 (py_set_elem Hset _ _)) in Hn.
    apply elem_of_cons in Hn as [-> | Hn]; [left; reflexivity|].
    apply list_elem_of_singleton in Hn as ->. right. reflexivity.
  - right. left. exists i, w, q. split; [exact Hi|]. split; [reflexivity|].
    rewrite (proj1 (chain_add i w q Hi)) in Hn.
    apply (proj1 (py_set_elem Hset _ _)) in Hn.
    apply elem_of_cons in Hn as [-> | Hn]; [left; reflexivity|].
    apply list_elem_of_singleton in Hn as ->. right. reflexivity.
Qed.

Lemma weight_old (i : nat) (w : addr) (q : Q) :
  pairs !! i = Some (w, q) -> w < L0 /\ previous_of G w = [].
Proof.
  intros Hi. split.
  - apply (proj1 (Forall_lookup _ _) Hws i (w, q) Hi).
  - apply (proj1 (Forall_lookup _ _) Hleaf_ws i (w, q) Hi).
Qed.

Lemma chain_prev_cases (i : nat) :
  (i = 0 /\ chain_prev L0 acc i = acc) \/
  (exists j, i = S j /\ chain_prev L0 acc i = L0 + 3 * j + 2).
Proof. destruct i as [|j]; [left | right; exists j]; split; reflexivity. Qed.

Lemma chain_reach (m : addr) :
  reachable G r m -> L0 <= m \/ m = acc \/ m ∈ pairs.*1.
Proof.
  induction 1 as [|n c Hn IH Hc].
  - left. exact Hroot_new.
  - destruct IH as [Hlo | [-> | Hw]].
    + destruct (chain_operands n c Hlo Hc)
        as [(i & w & q & Hi & _ & [-> | ->])
           | [(i & w & q & Hi & _ & [-> | ->])
             | (_ & ->)]].
      * right. right. apply list_elem_of_fmap. exists (w, q).
        split; [reflexivity | apply (list_elem_of_lookup_2 _ i), Hi].
      * left. lia.
      * destruct (chain_prev_cases i) as [[_ E] | (j & _ & E)]; rewrite E.
        -- right. left. reflexivity.
        -- left. lia.
      * left. lia.
      * destruct (chain_prev_cases (length pairs)) as [[_ E] | (j & _ & E)];
          rewrite E; [right; left; reflexivity | left; lia].
    + rewrite Hleaf_acc in Hc. inversion Hc.
    + apply list_elem_of_fmap in Hw as ([w q] & -> & Hw).
      apply list_elem_of_lookup_1 in Hw as [i Hi]. simpl in Hc.
      rewrite (proj2 (weight_old i w q Hi)) in Hc. inversion Hc.
Qed.


Lemma chain_consumers (m n : addr) :
  reachable G r m -> n ∈ previous_of G m ->
  (exists i w q, pairs !! i = Some (w, q) /\ m = L0 + 3 * i + 1 /\
                 (n = w \/ n = L0 + 3 * i)) \/
  (exists i w q, pairs !! i = Some (w, q) /\ m = L0 + 3 * i + 2 /\
                 (n = chain_prev L0 acc i \/ n = L0 + 3 * i + 1)) \/
  (L0 + 3 * length pairs <= m /\ n = chain_prev L0 acc (length pairs)).
Proof.
  intros Hm Hn. destruct (chain_reach m Hm) as [Hlo | [-> | Hw]].
  - apply chain_operands; assumption.
  - rewrite Hleaf_acc in Hn. inversion Hn.
  - apply list_elem_of_fmap in Hw as ([w q] & -> & Hw).
    apply list_elem_of_lookup_1 in Hw as [i Hi]. simpl in Hn.
    rewrite (proj2 (weight_old i w q Hi)) in Hn. inversion Hn.
Qed.

Lemma chain_top (i : nat) (w : addr) (q : Q) :
  pairs !! i = Some (w, q) ->
  exists j, length pairs = S j /\ i <= j /\
            chain_prev L0 acc (length pairs) = L0 + 3 * j + 2.
Proof.
  intros Hi. apply lookup_lt_Some in Hi.
  destruct (length pairs) as [|j]; [lia|].
  exists j. split; [reflexivity|]. split; [lia | reflexivity].
Qed.

(** Every running sum of the chain is reached, and its final gradient is
    the one of the last sum. *)
Lemma chain_sum_gradient (j : nat) :
  forall i w q,
    pairs !! i = Some (w, q) -> i + j + 1 = length pairs ->
    reachable G r (L0 + 3 * i + 2) /\
    (gradient_of G' (L0 + 3 * i + 2) == d)%Q.
Proof.
  induction j as [|j IH]; intros i w q Hi Hij.
  - destruct (chain_top i w q Hi) as (j & Hj & _ & E).
    assert (j = i) as -> by lia. rewrite <- E. split; assumption.
  - destruct (lookup_lt_is_Some_2 pairs (S i)) as [[w' q'] Hi']; [lia|].
    destruct (IH (S i) w' q' Hi' ltac:(lia)) as [Hreach Hgrad].
    destruct (chain_add (S i) w' q' Hi') as (Hprev & Hback & _).
    destruct (chain_add i w q Hi) as (_ & _ & Hg0).
    destruct (chain_top i w q Hi) as (t & Ht & _ & Etop).
    pose proof Hroot_top as Hrt. rewrite Etop in Hrt.
    assert (Hin : L0 + 3 * i + 2 ∈ previous_of G (L0 + 3 * S i + 2)).
    { rewrite Hprev. apply (py_set_elem Hset). left. }
    split; [eapply reach_operand; eassumption|].
    rewrite (flow_one_known Hset G G' r (L0 + 3 * S i + 2) (L0 + 3 * i + 2) d
               Hcons Hr Hbp Hreach Hgrad).
    + rewrite bool_decide_eq_false_2 by lia.
      rewrite Hg0, Hback. cbn [contribution chain_prev]. decide_eqs.
      unfold of_bool. ring.
    + intros m Hm Hne Hmn.
      destruct (chain_consumers m _ Hm Hmn)
        as [(i' & w1 & q1 & Hi1 & -> & [E | E])
           | [(i' & w1 & q1 & Hi1 & -> & [E | E])
             | (Hge & E)]].
      * pose proof (proj1 (weight_old i' w1 q1 Hi1)). lia.
      * lia.
      * destruct (chain_prev_cases i') as [[_ E'] | (j' & -> & E')];
          rewrite E' in E; [lia|].
        apply Hne. lia.
      * lia.
      * rewrite Etop in E. lia.
Qed.

Lemma chain_product_gradient (i : nat) (w : addr) (q : Q) :
  pairs !! i = Some (w, q) ->
  reachable G r (L0 + 3 * i + 1) /\
  (gradient_of G' (L0 + 3 * i + 1) == d)%Q.
Proof.
  intros Hi.
  destruct (chain_top i w q Hi) as (t & Ht & Hit & Etop).
  destruct (chain_sum_gradient (t - i) i w q Hi ltac:(lia))
    as [Hreach Hgrad].
  destruct (chain_add i w q Hi) as (Hprev & Hback & _).
  destruct (chain_mul i w q Hi) as (_ & _ & Hg0).
  pose proof Hroot_top as Hrt. rewrite Etop in Hrt.
  assert (Hin : L0 + 3 * i + 1 ∈ previous_of G (L0 + 3 * i + 2)).
  { rewrite Hprev. apply (py_set_elem Hset). right. left. }
  split; [eapply reach_operand; eassumption|].
  rewrite (flow_one_known Hset G G' r (L0 + 3 * i + 2) (L0 + 3 * i + 1) d
             Hcons Hr Hbp Hreach Hgrad).
  - rewrite bool_decide_eq_false_2 by lia.
    rewrite Hg0, Hback. cbn [contribution].
    destruct (chain_prev_cases i) as [[_ E'] | (j' & -> & E')]; rewrite E';
      decide_eqs; unfold of_bool; ring.
  - intros m Hm Hne Hmn.
    destruct (chain_consumers m _ Hm Hmn)
      as [(i' & w1 & q1 & Hi1 & -> & [E | E])
         | [(i' & w1 & q1 & Hi1 & -> & [E | E])
           | (Hge & E)]].
    + pose proof (proj1 (weight_old i' w1 q1 Hi1)). lia.
    + lia.
    + destruct (chain_prev_cases i') as [[_ E'] | (j' & -> & E')];
        rewrite E' in E; lia.
    + apply Hne. lia.
    + rewrite Etop in E. lia.
Qed.

Lemma weight_index (i i' : nat) (w : addr) (q q' : Q) :
  pairs !! i = Some (w, q) -> pairs !! i' = Some (w, q') -> i = i'.
Proof.
  intros Hi Hi'. apply NoDup_cons in Hnodup as [_ Hnd].
  apply (NoDup_lookup _ i i' w Hnd);
    rewrite list_lookup_fmap; [rewrite Hi | rewrite Hi']; reflexivity.
Qed.

Lemma weight_not_acc (i : nat) (w : addr) (q : Q) :
  pairs !! i = Some (w, q) -> w <> acc.
Proof.
  intros Hi ->. apply NoDup_cons in Hnodup as [Hnin _]. apply Hnin.
  apply list_elem_of_fmap. exists (acc, q).
  split; [reflexivity | apply (list_elem_of_lookup_2 _ i), Hi].
Qed.

(** What one pass adds to the gradient of a weight. *)
Lemma chain_weight_gradient (i : nat) (w : addr) (q : Q) :
  pairs !! i = Some (w, q) ->
  (gradient_of G' w == gradient_of G w + q * d)%Q.
Proof.
  intros Hi.
  destruct (chain_product_gradient i w q Hi) as [Hreach Hgrad].
  destruct (chain_mul i w q Hi) as (Hprev & Hback & _).
  destruct (chain_leaf i w q Hi) as (Hq & _).
  destruct (weight_old i w q Hi) as [Hw _].
  destruct (chain_top i w q Hi) as (t & Ht & Hit & Etop).
  rewrite (flow_one_known Hset G G' r (L0 + 3 * i + 1) w d
             Hcons Hr Hbp Hreach Hgrad).
  - rewrite bool_decide_eq_false_2 by lia.
    rewrite Hback. cbn [contribution]. rewrite Hq. decide_eqs.
    unfold of_bool. ring.
  - intros m Hm Hne Hmn.
    destruct (chain_consumers m _ Hm Hmn)
      as [(i' & w1 & q1 & Hi1 & -> & [E | E])
         | [(i' & w1 & q1 & Hi1 & -> & [E | E])
           | (Hge & E)]].
    + subst w1. apply Hne. rewrite (weight_index i i' w q q1 Hi Hi1).
      reflexivity.
    + lia.
    + destruct (chain_prev_cases i') as [[_ E'] | (j' & -> & E')];
        rewrite E' in E; [|lia].
      apply (weight_not_acc i w q Hi E).
    + lia.
    + rewrite Etop in E. lia.
Qed.

(** What one pass adds to the gradient of the start value. *)
Lemma chain_bias_gradient :
  pairs <> [] -> (gradient_of G' acc == gradient_of G acc + d)%Q.
Proof.
  intros Hne0.
  assert (Hlen : 0 < length pairs).
  { destruct (length pairs) eqn:El; [|lia].
    apply length_zero_iff_nil in El. contradiction. }
  destruct (lookup_lt_is_Some_2 pairs 0 Hlen) as [[w q] Hi].
  destruct (chain_top 0 w q Hi) as (t & Ht & Hit & Etop).
  destruct (chain_sum_gradient t 0 w q Hi ltac:(lia)) as [Hreach Hgrad].
  destruct (chain_add 0 w q Hi) as (Hprev & Hback & _).
  rewrite (flow_one_known Hset G G' r (L0 + 3 * 0 + 2) acc d
             Hcons Hr Hbp Hreach Hgrad).
  - rewrite bool_decide_eq_false_2 by lia.
    rewrite Hback. cbn [contribution chain_prev]. decide_eqs.
    unfold of_bool. ring.
  - intros m Hm Hne Hmn.
    destruct (chain_consumers m _ Hm Hmn)
      as [(i' & w1 & q1 & Hi1 & -> & [E | E])
         | [(i' & w1 & q1 & Hi1 & -> & [E | E])
           | (Hge & E)]].
    + apply (weight_not_acc i' w1 q1 Hi1). congruence.
    + lia.
    + destruct (chain_prev_cases i') as [[-> E'] | (j' & -> & E')];
        rewrite E' in E; [|lia].
      apply Hne. reflexivity.
    + lia.
    + rewrite Etop in E. lia.
Qed.

Lemma chain_gradients :
  pairs <> [] ->
  (forall i w q, pairs !! i = Some (w, q) ->
     (gradient_of G' w == gradient_of G w + q * d)%Q) /\
  (gradient_of G' acc == gradient_of G acc + d)%Q.
Proof.
  intros Hne. split.
  - apply chain_weight_gradient.
  - apply chain_bias_gradient, Hne.
Qed.

End ChainFlow.

Section NeuronGradients.

Context {rt : Runtime}.
Hypothesis Hset : py_set_spec rt.

Lemma zip_VNum (ws : list addr) (qs : list Q) :
  zip ws (VNum <$> qs) = prod_map id VNum <$> zip ws qs.
Proof.
  revert qs. induction ws as [|w ws IH]; intros [|q qs]; try reflexivity.
  cbn. f_equal. apply IH.
Qed.

Lemma zip_lookup (ws : list addr) (qs : list Q) (i : nat) (w : addr) (q : Q) :
  ws !! i = Some w -> qs !! i = Some q -> zip ws qs !! i = Some (w, q).
Proof.
  revert qs i. induction ws as [|w' ws IH]; intros [|q' qs] [|i];
    simpl; try discriminate.
  - intros [= ->] [= ->]. reflexivity.
  - apply IH.
Qed.

Lemma zip_fst_elem (ws : list addr) (qs : list Q) (x : addr) :
  x ∈ (zip ws qs).*1 -> x ∈ ws.
Proof.
  revert qs. induction ws as [|w ws IH]; intros [|q qs]; simpl;
    try (intros H; inversion H; fail).
  intros H. apply elem_of_cons in H as [-> | H]; [left | right].
  apply (IH qs H).
Qed.

Lemma zip_fst_NoDup (ws : list addr) (qs : list Q) :
  NoDup ws -> NoDup (zip ws qs).*1.
Proof.
  intros Hnd. revert qs. induction Hnd as [|w ws Hnin _ IH]; intros [|q qs];
    simpl; try constructor.
  - intros H. apply Hnin, (zip_fst_elem ws qs w H).
  - apply IH.
Qed.

Lemma zip_Forall_fst (P : addr -> Prop) (ws : list addr) (qs : list Q) :
  Forall P ws -> Forall (fun p => P p.1) (zip ws qs).
Proof.
  intros H. revert qs. induction H as [|w ws Hw _ IH]; intros [|q qs];
    simpl; constructor; [exact Hw | apply IH].
Qed.

Lemma zip_nonempty (ws : list addr) (qs : list Q) :
  ws <> [] -> qs <> [] -> zip ws qs <> [].
Proof. destruct ws, qs; simpl; congruence. Qed.

Lemma previous_of_ge (G : heap) (m : addr) :
  length G <= m -> previous_of G m = [].
Proof.
  intros Hm. unfold previous_of.
  rewrite list_lookup_total_alt, lookup_ge_None_2 by lia. reflexivity.
Qed.

Lemma chain_at_old (H k : heap) (L0 acc : addr) (pairs : list (addr * Q)) :
  chain_at H L0 acc pairs -> L0 + 3 * length pairs <= length H ->
  chain_at (H ++ k) L0 acc pairs.
Proof.
  intros Hc Hlen i w q Hi. destruct (Hc i w q Hi) as (A & B & C).
  pose proof (lookup_lt_Some _ _ _ Hi).
  rewrite !lookup_total_old by lia. auto.
Qed.

(** X21: the gradients of one neuron.  For a neuron whose weights and bias
    are distinct leaves, called on a non-empty list of numbers, backward
    propagation from the node it returned adds [xi * d] to the gradient
    of every weight [wi] that has an input and [d] to the gradient of the
    bias, where [d] is 1 for a linear neuron and [out.scalar > 0] for a
    non-linear one. *)
Theorem neuron_gradients (n : Neuron.t) (qs : list Q) (h : heap) :
  constructed h ->
  NoDup (Neuron.parameters n) ->
  Forall (leaf h) (Neuron.parameters n) ->
  Neuron.w n <> [] -> qs <> [] ->
  exists out h1 h2,
    Neuron.__call__ n (many (VNum <$> qs)) h = Ok (out, h1) /\
    backward_propagation out h1 = Some h2 /\
    let d := if Neuron.non_linear n
             then of_bool (Qgtb (scalar_of h1 out) 0) else 1%Q in
    (forall i w q,
       Neuron.w n !! i = Some w -> qs !! i = Some q ->
       (gradient_of h2 w == gradient_of h w + q * d)%Q) /\
    (gradient_of h2 (Neuron.b n) == gradient_of h (Neuron.b n) + d)%Q.
Proof.
  intros Hc Hnd Hleaf Hw0 Hq0.
  assert (Hlive : live_addrs h (Neuron.parameters n)).
  { eapply Forall_impl; [exact Hleaf|]. intros a Ha. apply Ha. }
  unfold Neuron.parameters in Hnd, Hleaf.
  apply Forall_app in Hleaf as [Hlw Hlb]. rewrite Forall_singleton in Hlb.
  destruct Hlb as (Hb & Hbprev & _).
  apply NoDup_app in Hnd as (Hndw & Hdisj & _).
  pose (pairs := zip (Neuron.w n) qs).
  assert (Hws : Forall (fun p : addr * Q => p.1 < length h) pairs).
  { apply (zip_Forall_fst (fun a => a < length h)).
    eapply Forall_impl; [exact Hlw|]. intros a Ha. apply Ha. }
  assert (Hwprev : Forall (fun p : addr * Q => previous_of h p.1 = []) pairs).
  { apply (zip_Forall_fst (fun a => previous_of h a = [])).
    eapply Forall_impl; [exact Hlw|]. intros a Ha. apply Ha. }
  assert (Hne : pairs <> []) by (apply zip_nonempty; assumption).
  assert (Hnd' : NoDup (Neuron.b n :: pairs.*1)).
  { constructor; [|apply zip_fst_NoDup, Hndw].
    intros Hin. apply zip_fst_elem in Hin.
    apply (Hdisj _ Hin). left. }
  destruct (weighted_sum_chain pairs (Neuron.b n) h Hb Hws)
    as (k & E & Hk & Hchain).
  assert (Hj : exists j, length pairs = S j).
  { destruct (length pairs) as [|j] eqn:El; [|exists j; reflexivity].
    apply length_zero_iff_nil in El. contradiction. }
  destruct Hj as [j Hj].
  assert (Etop : chain_prev (length h) (Neuron.b n) (length pairs)
                 = length h + 3 * j + 2) by (rewrite Hj; reflexivity).
  assert (HlenH : length (h ++ k) = length h + 3 * length pairs)
    by (rewrite length_app, Hk; reflexivity).
  assert (Hpj : exists wj qj, pairs !! j = Some (wj, qj)).
  { destruct (lookup_lt_is_Some_2 pairs j ltac:(lia)) as [[wj qj] Hp].
    exists wj, qj. exact Hp. }
  destruct Hpj as (wj & qj & Hpj).
  assert (Hbprev' : forall k', previous_of ((h ++ k) ++ k') (Neuron.b n) = []).
  { intros k'. rewrite <- app_assoc, previous_of_old by exact Hb.
    exact Hbprev. }
  assert (Hwprev' : forall k',
             Forall (fun p : addr * Q =>
                       previous_of ((h ++ k) ++ k') p.1 = []) pairs).
  { intros k'. apply Forall_forall. intros p Hp.
    rewrite <- app_assoc, previous_of_old.
    - apply (proj1 (Forall_forall _ _) Hwprev p Hp).
    - apply (proj1 (Forall_forall _ _) Hws p Hp). }
  assert (Hgold : forall k' a, a < length h ->
             gradient_of ((h ++ k) ++ k') a = gradient_of h a).
  { intros k' a Ha. rewrite <- app_assoc. apply gradient_of_old, Ha. }
  assert (Ecall : Neuron.__call__ n (many (VNum <$> qs)) h
                  = if Neuron.non_linear n
                    then relu (chain_prev (length h) (Neuron.b n)
                                 (length pairs)) (h ++ k)
                    else Ok (chain_prev (length h) (Neuron.b n)
                               (length pairs), h ++ k)).
  { unfold Neuron.__call__, bind. rewrite zip_VNum.
    fold pairs. rewrite E. destruct (Neuron.non_linear n); reflexivity. }
  assert (Hkeep := keeps_Neuron_call constructed constructed_leaf
                     constructed_add constructed_mul constructed_relu
                     n (many (VNum <$> qs)) h Hc Hlive).
  assert (Hx : live_arg h (many (VNum <$> qs))).
  { simpl. apply Forall_fmap, Forall_forall. intros q _. exact I. }
  specialize (Hkeep Hx).
  destruct (Neuron.non_linear n) eqn:Hnl.
  - (* ReLU on top of the sum *)
    rewrite relu_eq in Ecall. rewrite Etop in *.
    set (h1 := (h ++ k) ++ _) in *.
    destruct (Hkeep _ _ Ecall) as (Hc1 & _ & _).
    assert (Hlen1 : length h1 = S (length (h ++ k))).
    { subst h1. rewrite (length_app (h ++ k)). simpl. lia. }
    assert (Hr : length (h ++ k) < length h1) by lia.
    destruct (backward_propagation_returns Hset h1 _ Hc1 Hr) as [h2 Hbp].
    exists (length (h ++ k)), h1, h2.
    split; [exact Ecall|]. split; [exact Hbp|]. cbv zeta.
    assert (Hchain1 : chain_at h1 (length h) (Neuron.b n) pairs).
    { subst h1. apply chain_at_old; [exact Hchain | lia]. }
    assert (Hprev_r : previous_of h1 (length (h ++ k))
                      = py_set [length h + 3 * j + 2]).
    { subst h1. apply previous_of_new. }
    assert (Hback_r : backward_of h1 (length (h ++ k))
                      = relu_backward (length h + 3 * j + 2)
                          (length (h ++ k))).
    { subst h1. apply backward_of_new. }
    assert (Hin : length h + 3 * j + 2 ∈ previous_of h1 (length (h ++ k))).
    { rewrite Hprev_r. apply (py_set_elem Hset). left. }
    assert (Hg : (gradient_of h2 (length h + 3 * j + 2)
                  == of_bool (Qgtb (scalar_of h1 (length (h ++ k))) 0))%Q).
    { rewrite (flow_from_root Hset h1 h2 (length (h ++ k))
                 (length h + 3 * j + 2) Hc1 Hr ltac:(lia) Hbp).
      - rewrite Hback_r. cbn [contribution].
        rewrite (proj2 (proj2 (chain_add h1 (length h) (Neuron.b n) pairs
                                 Hchain1 j wj qj Hpj))).
        decide_eqs. unfold of_bool at 1. ring.
      - intros c Hcin. rewrite Hprev_r in Hcin.
        apply (proj1 (py_set_elem Hset _ _)) in Hcin.
        apply list_elem_of_singleton in Hcin as ->. left. lia. }
    destruct (chain_gradients Hset h1 h2 (length (h ++ k)) (length h)
                (Neuron.b n) pairs
                (of_bool (Qgtb (scalar_of h1 (length (h ++ k))) 0))
                Hc1 Hr Hbp Hchain1 Hb Hws (Hbprev' _) (Hwprev' _) Hnd')
      as [HW HB].
    + rewrite Etop. eapply reach_operand; [apply reach_root | exact Hin].
    + rewrite Etop. exact Hg.
    + rewrite Etop. lia.
    + lia.
    + intros m c Hm Hcin. rewrite Etop.
      destruct (decide (m = length (h ++ k))) as [-> | Hne'].
      * rewrite Hprev_r in Hcin.
        apply (proj1 (py_set_elem Hset _ _)) in Hcin.
        apply list_elem_of_singleton in Hcin. exact Hcin.
      * rewrite previous_of_ge in Hcin by lia. inversion Hcin.
    + exact Hne.
    + split.
      * intros i w q Hwi Hqi.
        rewrite (HW i w q (zip_lookup _ _ i w q Hwi Hqi)).
        subst h1. rewrite Hgold; [reflexivity|].
        apply (proj1 (Forall_lookup _ _) Hlw i w Hwi).
      * rewrite HB. subst h1. rewrite Hgold by exact Hb. reflexivity.
  - (* the sum itself is returned *)
    rewrite Etop in *.
    destruct (Hkeep _ _ Ecall) as (Hc1 & _ & _).
    assert (Hr : length h + 3 * j + 2 < length (h ++ k)) by lia.
    destruct (backward_propagation_returns Hset (h ++ k) _ Hc1 Hr)
      as [h2 Hbp].
    exists (length h + 3 * j + 2), (h ++ k), h2.
    split; [exact Ecall|]. split; [exact Hbp|]. cbv zeta.
    specialize (Hbprev' []). specialize (Hwprev' []).
    rewrite app_nil_r in Hbprev', Hwprev'.
    destruct (chain_gradients Hset (h ++ k) h2 (length h + 3 * j + 2)
                (length h) (Neuron.b n) pairs 1%Q
                Hc1 Hr Hbp Hchain Hb Hws Hbprev' Hwprev' Hnd')
      as [HW HB].
    + rewrite Etop. apply reach_root.
    + rewrite Etop. apply (flow_root Hset _ _ _ Hc1 Hr Hbp).
    + rewrite Etop. lia.
    + lia.
    + intros m c Hm Hcin.
      rewrite previous_of_ge in Hcin by lia. inversion Hcin.
    + exact Hne.
    + split.
      * intros i w q Hwi Hqi.
        rewrite (HW i w q (zip_lookup _ _ i w q Hwi Hqi)).
        rewrite gradient_of_old; [reflexivity|].
        apply (proj1 (Forall_lookup _ _) Hlw i w Hwi).
      * rewrite HB, gradient_of_old by exact Hb. reflexivity.
Qed.

End NeuronGradients.


(** ** The value a network computes *)

Section NetworkValue.

Context {rt : Runtime}.

Lemma weighted_as_sum (h : heap) (ws : list addr) (xs : list value) :
  weighted h (zip ws xs)
  = Qsum ((fun p => scalar_of h p.1 * p.2)%Q
            <$> zip ws (operand_scalar h <$> xs)).
Proof.
  unfold weighted. revert xs.
  induction ws as [|w ws IH]; intros [|x xs]; try reflexivity.
  cbn. unfold Qsum in IH. rewrite IH. reflexivity.
Qed.

Lemma weighted_terms_old (h k : heap) (ws : list addr) (xs : list Q) :
  live_addrs h ws ->
  (fun p => scalar_of (h ++ k) p.1 * p.2)%Q <$> zip ws xs
  = (fun p => scalar_of h p.1 * p.2)%Q <$> zip ws xs.
Proof.
  intros Hw. revert xs. induction Hw as [|w ws Hw _ IH]; intros [|x xs];
    try reflexivity.
  cbn. rewrite (scalar_of_old h k w Hw). f_equal. apply IH.
Qed.

Lemma neuron_eval_old (h k : heap) (n : Neuron.t) (xs : list Q) :
  live_addrs h (Neuron.parameters n) ->
  neuron_eval (h ++ k) n xs = neuron_eval h n xs.
Proof.
  intros Hn. apply Forall_app in Hn as [Hw Hb].
  rewrite Forall_singleton in Hb. unfold neuron_eval.
  rewrite (scalar_of_old h k _ Hb), (weighted_terms_old h k _ xs Hw).
  reflexivity.
Qed.

Lemma neurons_eval_old (h k : heap) (ns : list Neuron.t) (xs : list Q) :
  Forall (fun n => live_addrs h (Neuron.parameters n)) ns ->
  (fun n => neuron_eval (h ++ k) n xs) <$> ns
  = (fun n => neuron_eval h n xs) <$> ns.
Proof.
  induction 1 as [|n ns Hn _ IH]; [reflexivity|].
  rewrite !fmap_cons, IH, (neuron_eval_old h k n xs Hn). reflexivity.
Qed.

Lemma layer_eval_old (h k : heap) (l : Layer.t) (xs : list Q) :
  live_addrs h (Layer.parameters l) ->
  layer_eval (h ++ k) l xs = layer_eval h l xs.
Proof.
  intros Hl. unfold Layer.parameters, live_addrs in Hl.
  rewrite Forall_concat, Forall_fmap in Hl.
  apply neurons_eval_old, Hl.
Qed.

Lemma mlp_eval_old (h k : heap) (ls : list Layer.t) :
  Forall (fun l => live_addrs h (Layer.parameters l)) ls ->
  forall xs, mlp_eval (h ++ k) ls xs = mlp_eval h ls xs.
Proof.
  unfold mlp_eval. induction 1 as [|l ls Hl _ IH]; intros xs; [reflexivity|].
  cbn [foldl]. rewrite (layer_eval_old h k l xs Hl). apply IH.
Qed.

Lemma operand_scalars_old (h k : heap) (xs : list value) :
  Forall (live h) xs ->
  operand_scalar (h ++ k) <$> xs = operand_scalar h <$> xs.
Proof.
  induction 1 as [|x xs Hx _ IH]; [reflexivity|].
  rewrite !fmap_cons, IH, (operand_scalar_old h k x Hx). reflexivity.
Qed.

Lemma arg_scalars_old (h k : heap) (x : arg) :
  live_arg h x -> arg_scalars (h ++ k) x = arg_scalars h x.
Proof.
  destruct x as [v | vs]; simpl; intros Hx.
  - rewrite (operand_scalar_old h k v Hx). reflexivity.
  - apply operand_scalars_old, Hx.
Qed.

(** The function respects equality of rationals. *)
Lemma Forall2_Qeq_refl (l : list Q) : Forall2 Qeq l l.
Proof. induction l; constructor; [reflexivity | assumption]. Qed.

Lemma Forall2_Qeq_trans (l1 l2 l3 : list Q) :
  Forall2 Qeq l1 l2 -> Forall2 Qeq l2 l3 -> Forall2 Qeq l1 l3.
Proof.
  intros H12. revert l3. induction H12 as [|x y l1 l2 Hxy _ IH]; intros l3 H23.
  - inversion H23. constructor.
  - inversion H23 as [|y' z l2' l3' Hyz Hrest]; subst.
    constructor; [rewrite Hxy; exact Hyz | apply IH, Hrest].
Qed.

Lemma weighted_terms_proper (h : heap) (ws : list addr) (xs xs' : list Q) :
  Forall2 Qeq xs xs' ->
  (Qsum ((fun p => scalar_of h p.1 * p.2)%Q <$> zip ws xs)
   == Qsum ((fun p => scalar_of h p.1 * p.2)%Q <$> zip ws xs'))%Q.
Proof.
  intros H. revert ws. induction H as [|x x' xs xs' Hx _ IH]; intros ws.
  - reflexivity.
  - destruct ws as [|w ws]; [reflexivity|].
    cbn. rewrite Hx. unfold Qsum in IH. rewrite (IH ws). reflexivity.
Qed.

Lemma neuron_eval_proper (h : heap) (n : Neuron.t) (xs xs' : list Q) :
  Forall2 Qeq xs xs' -> (neuron_eval h n xs == neuron_eval h n xs')%Q.
Proof.
  intros H. unfold neuron_eval. cbv zeta.
  pose proof (weighted_terms_proper h (Neuron.w n) xs xs' H) as E.
  destruct (Neuron.non_linear n); rewrite E; reflexivity.
Qed.

Lemma layer_eval_proper (h : heap) (l : Layer.t) (xs xs' : list Q) :
  Forall2 Qeq xs xs' -> Forall2 Qeq (layer_eval h l xs) (layer_eval h l xs').
Proof.
  intros H. unfold layer_eval.
  induction (Layer.neurons l) as [|n ns IH]; [constructor|].
  rewrite !fmap_cons. constructor; [apply neuron_eval_proper, H | exact IH].
Qed.

Lemma mlp_eval_proper (h : heap) (ls : list Layer.t) :
  forall xs xs',
    Forall2 Qeq xs xs' -> Forall2 Qeq (mlp_eval h ls xs) (mlp_eval h ls xs').
Proof.
  unfold mlp_eval. induction ls as [|l ls IH]; intros xs xs' H; [exact H|].
  cbn [foldl]. apply IH, layer_eval_proper, H.
Qed.

Lemma Neuron_call_value (n : Neuron.t) (xs : list value) (h : heap)
    (r : addr) (h' : heap) :
  live_addrs h (Neuron.parameters n) -> Forall (live h) xs ->
  Neuron.__call__ n (many xs) h = Ok (r, h') ->
  h `prefix_of` h' /\ r < length h' /\
  (scalar_of h' r == neuron_eval h n (operand_scalar h <$> xs))%Q.
Proof.
  intros Hn Hx E. apply Forall_app in Hn as [Hw Hb].
  rewrite Forall_singleton in Hb.
  destruct (weighted_sum_value (zip (Neuron.w n) xs) (Neuron.b n) h Hb
              (live_pairs_zip h _ _ Hw Hx)) as (a & k & Ea & Ha & Sa).
  unfold Neuron.__call__, bind in E. rewrite Ea in E.
  unfold neuron_eval. rewrite <- weighted_as_sum. cbv zeta.
  destruct (Neuron.non_linear n).
  - rewrite relu_eq in E. injection E as <- <-.
    split; [eexists (k ++ [_]); rewrite app_assoc; reflexivity|].
    split; [rewrite (length_app (h ++ k)); simpl; lia|].
    rewrite scalar_of_new. simpl scalar. rewrite relu_value, Sa. reflexivity.
  - injection E as <- <-.
    split; [apply prefix_app_r; reflexivity|].
    split; [exact Ha | exact Sa].
Qed.

Lemma call_each_value (ns : list Neuron.t) (xs : list value) :
  forall (h : heap) (rs : list addr) (h' : heap),
    Forall (fun n => live_addrs h (Neuron.parameters n)) ns ->
    Forall (live h) xs ->
    Layer.call_each ns (many xs) h = Ok (rs, h') ->
    h `prefix_of` h' /\ live_addrs h' rs /\
    Forall2 Qeq (scalar_of h' <$> rs)
      ((fun n => neuron_eval h n (operand_scalar h <$> xs)) <$> ns).
Proof.
  induction ns as [|n ns IH]; intros h rs h' Hns Hx E.
  - injection E as <- <-. split; [reflexivity|]. split; constructor.
  - apply Forall_cons in Hns as [Hn Hns].
    cbn [Layer.call_each] in E. unfold bind in E.
    destruct (Neuron.__call__ n (many xs) h) as [[r h1]|e] eqn:E1;
      [|discriminate].
    destruct (Layer.call_each ns (many xs) h1) as [[rs' h2]|e] eqn:E2;
      [|discriminate].
    injection E as <- <-.
    destruct (Neuron_call_value n xs h r h1 Hn Hx E1) as ([k1 ->] & Hr & S1).
    destruct (IH (h ++ k1) rs' h2) as ([k2 ->] & Hrs & S2).
    { eapply Forall_impl; [exact Hns|]. intros m.
      apply live_addrs_weaken, prefix_app_r. reflexivity. }
    { eapply Forall_impl; [exact Hx|]. intros v.
      apply live_weaken, prefix_app_r. reflexivity. }
    { exact E2. }
    split; [exists (k1 ++ k2); rewrite app_assoc; reflexivity|].
    split.
    { constructor; [|exact Hrs]. unfold live_addr.
      rewrite (length_app (h ++ k1)). lia. }
    rewrite !fmap_cons. constructor.
    + rewrite (scalar_of_old (h ++ k1) k2 r Hr). exact S1.
    + rewrite (operand_scalars_old h k1 xs Hx) in S2.
      rewrite (neurons_eval_old h k1 ns _ Hns) in S2. exact S2.
Qed.

Lemma Layer_call_value (l : Layer.t) (x : arg) (h : heap) (y : arg)
    (h' : heap) :
  live_addrs h (Layer.parameters l) -> live_arg h x ->
  Layer.__call__ l x h = Ok (y, h') ->
  h `prefix_of` h' /\ live_arg h' y /\
  Forall2 Qeq (arg_scalars h' y) (layer_eval h l (arg_scalars h x)).
Proof.
  intros Hl Hx E. destruct x as [v | xs].
  - rewrite Layer_call_one in E. unfold layer_eval.
    destruct (Layer.neurons l); [|discriminate].
    injection E as <- <-. split; [reflexivity|]. split; constructor.
  - unfold Layer.parameters, live_addrs in Hl.
    rewrite Forall_concat, Forall_fmap in Hl.
    unfold Layer.__call__, bind in E.
    destruct (Layer.call_each (Layer.neurons l) (many xs) h)
      as [[rs h1]|e] eqn:E1; [|discriminate].
    injection E as <- <-.
    destruct (call_each_value _ xs h rs h1 Hl Hx E1) as (Hp & Hrs & S).
    split; [exact Hp|]. unfold layer_eval. simpl arg_scalars at 2.
    destruct rs as [|r [|r' rs]].
    + split; [constructor | exact S].
    + split; [|exact S]. unfold live_addrs in Hrs.
      rewrite Forall_singleton in Hrs. exact Hrs.
    + split; [apply live_arg_nodes, Hrs|].
      simpl arg_scalars. rewrite <- list_fmap_compose. exact S.
Qed.

Lemma call_layers_value (ls : list Layer.t) :
  forall (x : arg) (h : heap) (y : arg) (h' : heap),
    Forall (fun l => live_addrs h (Layer.parameters l)) ls ->
    live_arg h x ->
    MLP.call_layers ls x h = Ok (y, h') ->
    Forall2 Qeq (arg_scalars h' y) (mlp_eval h ls (arg_scalars h x)).
Proof.
  induction ls as [|l ls IH]; intros x h y h' Hls Hx E.
  - injection E as <- <-. apply Forall2_Qeq_refl.
  - apply Forall_cons in Hls as [Hl Hls].
    cbn [MLP.call_layers] in E. unfold bind in E.
    destruct (Layer.__call__ l x h) as [[x1 h1]|e] eqn:E1; [|discriminate].
    destruct (Layer_call_value l x h x1 h1 Hl Hx E1) as ([k1 ->] & Hx1 & S1).
    assert (Hls1 : Forall (fun l => live_addrs (h ++ k1) (Layer.parameters l))
                     ls).
    { eapply Forall_impl; [exact Hls|]. intros m.
      apply live_addrs_weaken, prefix_app_r. reflexivity. }
    pose proof (IH x1 (h ++ k1) y h' Hls1 Hx1 E) as S2.
    rewrite (mlp_eval_old h k1 ls Hls) in S2.
    eapply Forall2_Qeq_trans; [exact S2|].
    unfold mlp_eval at 2. cbn [foldl]. apply mlp_eval_proper, S1.
Qed.

(** X22: what a network computes.  When a call of the network on live
    parameters and a live input returns, the scalars of the nodes it
    returns equal the values of the chained layers on the input's numbers:
    each neuron gives [b + sum(wi * xi)], through [max(0, .)] when it is
    non-linear, the parameters being read in the store before the
    call. *)
Theorem network_forward_value (m : MLP.t) (x y : arg) (h h' : heap) :
  live_addrs h (MLP.parameters m) -> live_arg h x ->
  MLP.__call__ m x h = Ok (y, h') ->
  Forall2 Qeq (arg_scalars h' y)
    (mlp_eval h (MLP.layers m) (arg_scalars h x)).
Proof.
  intros Hm Hx E. apply (call_layers_value _ x h y h'); [|exact Hx|exact E].
  unfold MLP.parameters, live_addrs in Hm.
  rewrite Forall_concat, Forall_fmap in Hm. exact Hm.
Qed.

End NetworkValue.

(** * The theorems at concrete inputs *)

Section Examples.

#[local] Existing Instance example_runtime.

Lemma insertion_order_spec : py_set_spec example_runtime.
Proof.
  intros t. simpl. induction t as [|a t [IHnd IHin]]; simpl.
  - split; [apply NoDup_nil; exact I | reflexivity].
  - split.
    + apply NoDup_cons. split; [|apply NoDup_filter, IHnd].
      intros Ha. apply list_elem_of_filter in Ha as [Hne _]. congruence.
    + intros x. rewrite !elem_of_cons, list_elem_of_filter, IHin.
      destruct (decide (x = a)) as [-> | Hne]; [tauto|].
      split; [tauto|]. intros [-> | Hx]; [congruence|].
      right. split; [congruence | exact Hx].
Qed.

Lemma constructed_two_leaves : constructed two_leaves.
Proof.
  eapply (constructed_call _ (call_Node 4));
    [ eapply (constructed_call _ (call_Node 3));
      [ apply constructed_empty | exact I | reflexivity ]
    | exact I | reflexivity ].
Qed.

Lemma constructed_signed_leaves : constructed signed_leaves.
Proof.
  eapply (constructed_call _ (call_Node 0));
    [ eapply (constructed_call _ (call_Node 5));
      [ eapply (constructed_call _ (call_Node (-5)));
        [ apply constructed_empty | exact I | reflexivity ]
      | exact I | reflexivity ]
    | exact I | reflexivity ].
Qed.

Lemma constructed_zero_leaf : constructed zero_leaf.
Proof.
  eapply (constructed_call _ (call_Node 0));
    [ apply constructed_empty | exact I | reflexivity ].
Qed.

Lemma constructed_diamond : constructed diamond.
Proof.
  eapply (constructed_call _ (call_mul 0 (VNode 1)));
    [ eapply (constructed_call _ (call_relu 0));
      [ eapply (constructed_call _ (call_Node 2));
        [ apply constructed_empty | exact I | reflexivity ]
      | simpl; lia | reflexivity ]
    | simpl; lia | reflexivity ].
Qed.

Lemma ordering_phase_topological_witness :
  exists order,
    ordering_phase diamond 2 = Some order /\
    NoDup order /\
    (forall n c, n ∈ order -> c ∈ previous_of diamond n ->
                 strictly_before order c n) /\
    (forall n, n ∈ order <-> reachable diamond 2 n).
Proof.
  apply (ordering_phase_topological insertion_order_spec diamond 2
           constructed_diamond).
  simpl. lia.
Defined.

Lemma backward_propagation_changes_gradients_only_witness :
  exists h',
    backward_propagation 2 diamond = Some h' /\
    length h' = length diamond /\
    (forall i, scalar_of h' i = scalar_of diamond i) /\
    (forall v h1, run_call (call_relu 2) diamond = Ok (v, h1) ->
                  forall i n, diamond !! i = Some n -> h1 !! i = Some n).
Proof.
  destruct (backward_propagation_changes_gradients_only insertion_order_spec)
    as (Hframe & Htotal & Hops).
  destruct (Htotal diamond 2 constructed_diamond ltac:(simpl; lia))
    as (h' & Hbp).
  destruct (Hframe diamond 2 h' Hbp) as (Hlen & Hfields).
  exists h'. split; [exact Hbp|]. split; [exact Hlen|].
  split; [intros i; apply Hfields|].
  intros v h1 Hrun.
  apply (Hops diamond (call_relu 2) v h1 constructed_diamond
           ltac:(simpl; lia) Hrun).
Defined.

Lemma multiply_rule_witness :
  exists r h' h'',
    __mul__ 0 (VNode 1) two_leaves = Ok (r, h') /\
    backward_propagation r h' = Some h'' /\
    gradient_of h'' 0 == 4 /\ gradient_of h'' 1 == 3.
Proof.
  destruct (multiply_rule insertion_order_spec two_leaves 0 1
              constructed_two_leaves ltac:(simpl; lia) ltac:(simpl; lia))
    as (r & h' & Hmul & _ & _ & Hbp).
  destruct Hbp as (h'' & Hbp & _ & _ & H34).
  - repeat split. simpl. lia.
  - repeat split. simpl. lia.
  - lia.
  - reflexivity.
  - reflexivity.
  - exists r, h', h''. split; [exact Hmul|]. split; [exact Hbp|].
    apply H34; reflexivity.
Defined.

Lemma add_rule_witness :
  (exists r h' h'',
      __add__ 0 (VNode 1) two_leaves = Ok (r, h') /\
      backward_propagation r h' = Some h'' /\
      gradient_of h'' 0 == 1 /\ gradient_of h'' 1 == 1) /\
  (exists c h' h'',
      __add__ 0 (VNode 0) two_leaves = Ok (c, h') /\
      backward_propagation c h' = Some h'' /\
      gradient_of h'' 0 == 2).
Proof.
  destruct (add_rule insertion_order_spec two_leaves 0
              constructed_two_leaves) as (Hab & Haa).
  - repeat split. simpl. lia.
  - reflexivity.
  - split; [|exact Haa].
    destruct (Hab 1) as (r & h' & Hadd & _ & _ & Hbp).
    + repeat split. simpl. lia.
    + reflexivity.
    + destruct Hbp as (h'' & Hbp & Ha & Hb); [lia|].
      exists r, h', h''. auto.
Defined.

Lemma relu_rule_witness :
  (exists r h' h'',
      relu 0 signed_leaves = Ok (r, h') /\
      scalar_of h' r == 0 /\
      backward_propagation r h' = Some h'' /\ gradient_of h'' 0 == 0) /\
  (exists r h' h'',
      relu 1 signed_leaves = Ok (r, h') /\
      scalar_of h' r == 5 /\
      backward_propagation r h' = Some h'' /\ gradient_of h'' 1 == 1) /\
  (exists r h' h'',
      relu 2 signed_leaves = Ok (r, h') /\
      scalar_of h' r == 0 /\
      backward_propagation r h' = Some h'' /\ gradient_of h'' 2 == 0).
Proof.
  split; [|split].
  - destruct (relu_rule insertion_order_spec signed_leaves 0
                constructed_signed_leaves ltac:(simpl; lia))
      as (r & h' & Hrelu & Hval & _ & Hbp).
    destruct Hbp as (h'' & Hbp & Hneg & _); [reflexivity|].
    exists r, h', h''. split; [exact Hrelu|]. split; [exact Hval|].
    split; [exact Hbp|]. apply Hneg. discriminate.
  - destruct (relu_rule insertion_order_spec signed_leaves 1
                constructed_signed_leaves ltac:(simpl; lia))
      as (r & h' & Hrelu & Hval & _ & Hbp).
    destruct Hbp as (h'' & Hbp & _ & Hpos); [reflexivity|].
    exists r, h', h''. split; [exact Hrelu|]. split; [exact Hval|].
    split; [exact Hbp|]. apply Hpos. reflexivity.
  - destruct (relu_rule insertion_order_spec signed_leaves 2
                constructed_signed_leaves ltac:(simpl; lia))
      as (r & h' & Hrelu & Hval & _ & Hbp).
    destruct Hbp as (h'' & Hbp & Hneg & _); [reflexivity|].
    exists r, h', h''. split; [exact Hrelu|]. split; [exact Hval|].
    split; [exact Hbp|]. apply Hneg. discriminate.
Defined.

Lemma sigmoid_backward_unscaled_witness :
  exists s h1 y h2 h3,
    sigmoid 0 zero_leaf = Ok (s, h1) /\
    __add__ s (VNode s) h1 = Ok (y, h2) /\
    backward_propagation y h2 = Some h3 /\
    scalar_of h1 s == 1 # 2 /\
    gradient_of h3 s == 2 /\
    gradient_of h3 0 == 1 # 4 /\
    ~ gradient_of h3 0
      == scalar_of h1 s * (1 - scalar_of h1 s) * gradient_of h3 s.
Proof.
  destruct (sigmoid_backward_unscaled insertion_order_spec zero_leaf 0
              constructed_zero_leaf ltac:(simpl; lia))
    as (s & h1 & y & h2 & h3 & Hsig & Hval & _ & Hadd & Hbp & Hs & Ha).
  exists s, h1, y, h2, h3.
  split; [exact Hsig|]. split; [exact Hadd|]. split; [exact Hbp|].
  split; [rewrite Hval; reflexivity|]. split; [exact Hs|].
  split; [rewrite Ha, Hval; reflexivity|].
  rewrite Ha, Hs, Hval. discriminate.
Defined.

(** [a = Node(0); b = Node(0); a.softmax([a, b])] is [1], where the sum
    over both elements would give [1/2]. *)
Example softmax_example :
  (exists q h, softmax 0 [VNode 0; VNode 1]
                 [ mkNode 0 tag_empty 0 lambda_None [];
                   mkNode 0 tag_empty 0 lambda_None [] ] = Ok (q, h) /\
               q == 1) /\
  ~ np_exp 0 / (np_exp 0 + np_exp 0) == 1.
Proof.
  split; [eexists _, _; split; reflexivity | discriminate].
Qed.

(** The method [_pow__] called by name on [Node(2)] with exponent 3: the
    pass from the result leaves gradient [3 * 2**2 = 12]. *)
Example pow_by_name_example :
  bind (Node_init 2 [] tag_empty) (fun a =>
    bind (_pow__ a (VNum 3)) (fun r h =>
      Ok (option_map (fun h' => gradient_of h' a)
                     (backward_propagation r h), h))) []
  = Ok (Some 12%Q,
        [ mkNode 2 tag_empty 0 lambda_None [];
          mkNode 8 (tag_pow 3) 0 (pow_backward 0 3 1) [0] ]).
Proof. reflexivity. Qed.

(** [x = Node(2); y = Node(-3); z = Node(10); q = x*y + z; h = q.relu()] and
    backward propagation from [h]: [q.scalar] and [h.scalar] are 4, and the
    gradients of [x], [y], [z] are -3, 2 and 1. *)
Example end_to_end_scenario :
  bind (Node_init 2 [] tag_empty) (fun x =>
    bind (Node_init (-3) [] tag_empty) (fun y =>
      bind (Node_init 10 [] tag_empty) (fun z =>
        bind (__mul__ x (VNode y)) (fun xy =>
          bind (__add__ xy (VNode z)) (fun q =>
            bind (relu q) (fun r h =>
              Ok (option_map
                    (fun h' => (scalar_of h' q, scalar_of h' r,
                                gradient_of h' x, gradient_of h' y,
                                gradient_of h' z))
                    (backward_propagation r h), h))))))) []
  = Ok (Some (4, 4, -3, 2, 1)%Q,
        [ mkNode 2 tag_empty 0 lambda_None [];
          mkNode (-3) tag_empty 0 lambda_None [];
          mkNode 10 tag_empty 0 lambda_None [];
          mkNode (-6) tag_mul 0 (mul_backward 0 1 3) [0; 1];
          mkNode 4 tag_add 0 (add_backward 3 2 4) [3; 2];
          mkNode 4 tag_ReLU 0 (relu_backward 4 5) [4] ]).
Proof. vm_compute. reflexivity. Qed.

Lemma forward_values_consistent_witness :
  scalar_of diamond 2 = (scalar_of diamond 0 * scalar_of diamond 1)%Q /\
  scalar_of diamond 1
  = (if Qltb (scalar_of diamond 0) 0 then 0 else scalar_of diamond 0)%Q /\
  previous_of diamond 0 = [].
Proof.
  split; [|split].
  - exact (forward_values_consistent insertion_order_spec diamond 2
             constructed_diamond).
  - exact (forward_values_consistent insertion_order_spec diamond 1
             constructed_diamond).
  - exact (forward_values_consistent insertion_order_spec diamond 0
             constructed_diamond).
Defined.


Lemma root_gradient_is_one_witness :
  exists h',
    backward_propagation 2 diamond = Some h' /\ gradient_of h' 2 = 1%Q.
Proof.
  apply (root_gradient_is_one insertion_order_spec diamond 2
           constructed_diamond).
  simpl. lia.
Defined.

Lemma closure_reads_final_gradient_witness :
  exists h',
    backward_propagation 2 diamond = Some h' /\
    gradient_of (sweep (alter (set_gradient 1) 2 diamond) [2]) 1
    = gradient_of h' 1.
Proof.
  destruct (closure_reads_final_gradient insertion_order_spec diamond 2
              constructed_diamond ltac:(simpl; lia))
    as (order & h' & Hrun & Hbp & Hfinal).
  exists h'. split; [exact Hbp|].
  vm_compute in Hrun. injection Hrun as <-.
  apply (Hfinal [2] 1 [0]). reflexivity.
Defined.

Lemma gradient_is_sum_of_contributions_witness :
  exists order h',
    ordering_phase diamond 2 = Some order /\
    backward_propagation 2 diamond = Some h' /\
    (gradient_of h' 0
     == gradient_of diamond 0
        + Qsum ((fun m => contribution diamond (backward_of diamond m)
                            (gradient_of h' m) 0) <$> order))%Q.
Proof.
  destruct (gradient_is_sum_of_contributions diamond 2 insertion_order_spec
              constructed_diamond ltac:(simpl; lia))
    as (order & h' & Hrun & Hbp & _ & _ & Hflow).
  exists order, h'. split; [exact Hrun|]. split; [exact Hbp|].
  apply (Hflow 0).
Defined.

Lemma add_literal_rule_witness :
  exists h' h'',
    __add__ 0 (VNum 5) two_leaves = Ok (3, h') /\
    scalar_of h' 3 = (3 + 5)%Q /\
    backward_propagation 3 h' = Some h'' /\
    (gradient_of h'' 0 == 1)%Q /\ (gradient_of h'' 2 == 1)%Q.
Proof.
  destruct (add_literal_rule insertion_order_spec two_leaves 0 5
              constructed_two_leaves ltac:(simpl; lia))
    as (h' & Hrun & _ & _ & _ & _ & _ & _ & Hsc & h'' & Hbp & Ha & Hl).
  exists h', h''. split; [exact Hrun|]. split; [exact Hsc|].
  split; [exact Hbp|]. split; [rewrite Ha; reflexivity | exact Hl].
Defined.

Lemma mul_literal_rule_witness :
  exists h' h'',
    __mul__ 0 (VNum 5) two_leaves = Ok (3, h') /\
    scalar_of h' 3 = (3 * 5)%Q /\
    backward_propagation 3 h' = Some h'' /\
    (gradient_of h'' 0 == 5)%Q /\ (gradient_of h'' 2 == 3)%Q.
Proof.
  destruct (mul_literal_rule insertion_order_spec two_leaves 0 5
              constructed_two_leaves ltac:(simpl; lia))
    as (h' & Hrun & _ & _ & _ & _ & _ & _ & Hsc & h'' & Hbp & Ha & Hl).
  exists h', h''. split; [exact Hrun|]. split; [exact Hsc|].
  split; [exact Hbp|]. split; [rewrite Ha; reflexivity | exact Hl].
Defined.

Lemma neg_rule_witness :
  exists h' h'',
    __neg__ 1 two_leaves = Ok (3, h') /\
    (scalar_of h' 3 == -4)%Q /\
    backward_propagation 3 h' = Some h'' /\
    (gradient_of h'' 1 == -1)%Q.
Proof.
  destruct (neg_rule insertion_order_spec two_leaves 1
              constructed_two_leaves ltac:(simpl; lia))
    as (h' & Hrun & _ & _ & _ & _ & Hsc & h'' & Hbp & Ha).
  exists h', h''. split; [exact Hrun|]. split; [exact Hsc|].
  split; [exact Hbp|]. rewrite Ha. reflexivity.
Defined.


Lemma square_rule_witness :
  exists h' h'',
    __mul__ 1 (VNode 1) two_leaves = Ok (2, h') /\
    scalar_of h' 2 = (4 * 4)%Q /\
    backward_propagation 2 h' = Some h'' /\
    (gradient_of h'' 1 == 8)%Q.
Proof.
  destruct (square_rule insertion_order_spec two_leaves 1
              constructed_two_leaves ltac:(simpl; lia))
    as (h' & Hrun & _ & Hsc & _ & h'' & Hbp & Ha).
  exists h', h''. split; [exact Hrun|]. split; [exact Hsc|].
  split; [exact Hbp|]. rewrite Ha. reflexivity.
Defined.

Lemma leaf_two_leaves_0 : leaf two_leaves 0.
Proof. split; [simpl; lia | split; reflexivity]. Qed.

Lemma leaf_two_leaves_1 : leaf two_leaves 1.
Proof. split; [simpl; lia | split; reflexivity]. Qed.

Lemma sub_rule_witness :
  exists h' h'',
    __sub__ 0 (VNode 1) two_leaves = Ok (VNode 4, h') /\
    (scalar_of h' 4 == -1)%Q /\
    backward_propagation 4 h' = Some h'' /\
    (gradient_of h'' 0 == 1)%Q /\ (gradient_of h'' 1 == -1)%Q.
Proof.
  destruct (sub_rule insertion_order_spec two_leaves 0 1
              constructed_two_leaves leaf_two_leaves_0 leaf_two_leaves_1
              ltac:(lia))
    as (h' & Hrun & _ & _ & _ & Hsc & h'' & Hbp & Ha & Hb).
  exists h', h''. split; [exact Hrun|]. split; [exact Hsc|].
  split; [exact Hbp|]. split; [rewrite Ha | rewrite Hb]; reflexivity.
Defined.

Lemma rsub_rule_witness :
  exists h' h'',
    __rsub__ 0 (VNum 10) two_leaves = Ok (VNode 5, h') /\
    (scalar_of h' 5 == 7)%Q /\
    backward_propagation 5 h' = Some h'' /\
    (gradient_of h'' 0 == -1)%Q.
Proof.
  destruct (rsub_rule insertion_order_spec two_leaves 0 10
              constructed_two_leaves ltac:(simpl; lia))
    as (h' & Hrun & _ & _ & Hsc & h'' & Hbp & Ha).
  exists h', h''. split; [exact Hrun|]. split; [exact Hsc|].
  split; [exact Hbp|]. rewrite Ha. reflexivity.
Defined.

Lemma passes_accumulate_witness :
  exists h' h1 h2 h3,
    __mul__ 0 (VNode 1) two_leaves = Ok (2, h') /\
    backward_propagation 2 h' = Some h1 /\
    backward_propagation 2 h1 = Some h2 /\
    (gradient_of h2 0 == 8)%Q /\ (gradient_of h2 1 == 6)%Q /\
    backward_propagation 2 (clear_gradient [0; 1] h1) = Some h3 /\
    (gradient_of h3 0 == 4)%Q /\ (gradient_of h3 1 == 3)%Q.
Proof.
  destruct (passes_accumulate insertion_order_spec two_leaves 0 1
              constructed_two_leaves leaf_two_leaves_0 leaf_two_leaves_1
              ltac:(lia))
    as (h' & h1 & h2 & h3 & Hrun & Hbp1 & _ & _ & Hbp2 & H2a & H2b
        & Hbp3 & H3a & H3b).
  exists h', h1, h2, h3. split; [exact Hrun|]. split; [exact Hbp1|].
  split; [exact Hbp2|]. split; [rewrite H2a; reflexivity|].
  split; [rewrite H2b; reflexivity|]. split; [exact Hbp3|].
  split; [exact H3a | exact H3b].
Defined.

Lemma backward_from_leaf_witness :
  backward_propagation 0 two_leaves
  = Some [ mkNode 3 tag_empty 1 lambda_None [];
           mkNode 4 tag_empty 0 lambda_None [] ].
Proof.
  exact (backward_from_leaf insertion_order_spec two_leaves 0
           constructed_two_leaves leaf_two_leaves_0).
Defined.

Lemma neuron_forward_value_witness :
  exists r k,
    Neuron.__call__ (Neuron.mk [0] 1 true) (many [VNum 2; VNum 7]) two_leaves
    = Ok (r, two_leaves ++ k) /\
    (scalar_of (two_leaves ++ k) r == 10)%Q.
Proof.
  destruct (neuron_forward_value (Neuron.mk [0] 1 true) [VNum 2; VNum 7]
              two_leaves ltac:(simpl; lia)
              ltac:(repeat constructor) ltac:(repeat constructor))
    as (r & k & E & _ & S).
  exists r, k. split; [exact E|]. rewrite S. reflexivity.
Defined.

Lemma neuron_no_dimension_check_witness :
  Neuron.__call__ (Neuron.mk [0] 1 false) (one (VNode 1)) two_leaves
  = Raise TypeError /\
  Neuron.__call__ (Neuron.mk [0] 1 false) (many [VNum 2; VNum 7]) two_leaves
  = Neuron.__call__ (Neuron.mk [0] 1 false) (many [VNum 2]) two_leaves /\
  Neuron.__call__ (Neuron.mk [0] 1 false) (many []) two_leaves
  = Ok (1, two_leaves).
Proof.
  destruct (neuron_no_dimension_check (Neuron.mk [0] 1 false)
              [VNum 2; VNum 7] (VNode 1) two_leaves) as (H1 & H2 & _).
  destruct (neuron_no_dimension_check (Neuron.mk [0] 1 false)
              [] (VNode 1) two_leaves) as (_ & _ & H3).
  split; [exact H1|]. split; [exact H2|].
  apply H3; [reflexivity | right; reflexivity].
Defined.

Lemma MLP_call_returns_or_raises_witness :
  let n := Neuron.mk [0] 1 true in
  MLP.__call__ (MLP.mk [Layer.mk [n; n]; Layer.mk [n]; Layer.mk [n]])
    (many [VNum 2]) two_leaves
  = Raise TypeError /\
  exists r h',
    MLP.__call__ (MLP.mk [Layer.mk [n; n]; Layer.mk [n]])
      (many [VNum 2]) two_leaves
    = Ok (one (VNode r), h').
Proof.
  intros n. split.
  - apply (proj2 (MLP_call_returns_or_raises
                    (MLP.mk [Layer.mk [n; n]; Layer.mk [n]; Layer.mk [n]])
                    (many [VNum 2]) two_leaves)).
    reflexivity.
  - destruct (proj1 (MLP_call_returns_or_raises
                       (MLP.mk [Layer.mk [n; n]; Layer.mk [n]])
                       (many [VNum 2]) two_leaves) eq_refl)
      as (y & h' & E & r & ->).
    exists r, h'. exact E.
Defined.

Lemma network_call_constructed_witness :
  exists y h',
    MLP.__call__ (MLP.mk [Layer.mk [Neuron.mk [0] 1 false]])
      (many [VNum 2]) two_leaves = Ok (y, h') /\
    constructed h' /\ live_arg h' y.
Proof.
  pose proof (network_call_constructed
                (MLP.mk [Layer.mk [Neuron.mk [0] 1 false]])
                (many [VNum 2]) _ two_leaves _ constructed_two_leaves
                ltac:(repeat constructor) ltac:(repeat constructor)
                eq_refl) as (Hc & _ & Hy).
  eexists _, _. split; [reflexivity|]. split; [exact Hc | exact Hy].
Defined.

Lemma MLP_init_parameters_witness :
  exists m ls,
    MLP.__init__ (fun i => inject_Z (Z.of_nat i) / 10)%Q 0 2 [2; 1] []
    = Ok (m, ls) /\
    MLP.parameters m = seq 0 9 /\
    shape m = [[(2, true); (2, true)]; [(2, false)]] /\
    constructed ls.
Proof.
  destruct (MLP_init_parameters (fun i => inject_Z (Z.of_nat i) / 10)%Q
              0 2 [2; 1] [])
    as (m & ls & E & _ & P & L & Sh & _ & _ & C).
  exists m, ls. split; [exact E|].
  split; [rewrite P, L; reflexivity|].
  split; [exact Sh|]. apply C, constructed_empty.
Defined.

Lemma neuron_gradients_witness :
  exists out h1 h2,
    Neuron.__call__ (Neuron.mk [0] 1 true) (many [VNum 2]) two_leaves
    = Ok (out, h1) /\
    backward_propagation out h1 = Some h2 /\
    (gradient_of h2 0 == 2)%Q /\ (gradient_of h2 1 == 1)%Q.
Proof.
  assert (Hnd : NoDup (Neuron.parameters (Neuron.mk [0] 1 true))).
  { apply NoDup_cons. split; [|apply NoDup_singleton].
    intros H. apply list_elem_of_singleton in H. discriminate. }
  assert (Hleaf : Forall (leaf two_leaves)
                    (Neuron.parameters (Neuron.mk [0] 1 true))).
  { apply Forall_cons. split; [apply leaf_two_leaves_0|].
    apply Forall_singleton, leaf_two_leaves_1. }
  destruct (neuron_gradients insertion_order_spec (Neuron.mk [0] 1 true)
              [2%Q] two_leaves constructed_two_leaves Hnd Hleaf
              ltac:(discriminate) ltac:(discriminate))
    as (out & h1 & h2 & E & Hbp & HW & HB).
  exists out, h1, h2. split; [exact E|]. split; [exact Hbp|].
  vm_compute in E. injection E as <- <-.
  split.
  - rewrite (HW 0 0 2%Q eq_refl eq_refl). reflexivity.
  - rewrite HB. reflexivity.
Defined.

Lemma network_forward_value_witness :
  let n := Neuron.mk [0] 1 true in
  let m := MLP.mk [Layer.mk [n; n]; Layer.mk [Neuron.mk [0; 1] 1 false]] in
  exists y h',
    MLP.__call__ m (many [VNum 2]) two_leaves = Ok (y, h') /\
    Forall2 Qeq (arg_scalars h' y) [74%Q].
Proof.
  intros n m.
  assert (Hm : live_addrs two_leaves (MLP.parameters m)).
  { repeat constructor. }
  assert (Hx : live_arg two_leaves (many [VNum 2])).
  { repeat constructor. }
  destruct (MLP.__call__ m (many [VNum 2]) two_leaves) as [[y h']|e] eqn:E;
    [|vm_compute in E; discriminate].
  exists y, h'. split; [reflexivity|].
  pose proof (network_forward_value m _ y two_leaves h' Hm Hx E) as H.
  vm_compute in E. injection E as <- <-.
  eapply Forall2_Qeq_trans; [exact H|].
  vm_compute. repeat constructor.
Defined.

End Examples.
